(** * MockRTC handler steps

    A shallow embedding of [src/handling/handler-step-definitions.ts] and
    [src/handling/handler-steps.ts]: the ten step classes, the two lookup
    tables, and the [handle] method of every step, run against a model of
    the event emitters, promises and suspended asynchronous calls that the
    methods use.

    JavaScript objects with identity (streams, promises, listener closures,
    external connections) are named by natural numbers handed out by one
    counter.  Arrow functions that are registered as listeners are
    defunctionalised: a [Closure] records which arrow function it is and
    the variables it captured. *)

From Stdlib Require Import List String Bool Arith Lia FunctionalExtensionality.
Import ListNotations.
Local Open Scope string_scope.
Local Open Scope list_scope.

(* ================================================================== *)
(** * The step registry *)

Module StepDefinitionClass.

(** The classes exported by handler-step-definitions.ts. *)
Inductive t :=
| WaitForDurationStepDefinition
| WaitForChannelStepDefinition
| WaitForMessageStepDefinition
| WaitForTrackStepDefinition
| WaitForMediaStepDefinition
| SendStepDefinition
| CloseStepDefinition
| EchoStepDefinition
| PeerProxyStepDefinition
| DynamicProxyStepDefinition.

(** The [readonly type = '...'] field of each class. *)
Definition type (c : t) : string :=
  match c with
  | WaitForDurationStepDefinition => "wait-for-duration"
  | WaitForChannelStepDefinition => "wait-for-channel"
  | WaitForMessageStepDefinition => "wait-for-message"
  | WaitForTrackStepDefinition => "wait-for-track"
  | WaitForMediaStepDefinition => "wait-for-media"
  | SendStepDefinition => "send-message"
  | CloseStepDefinition => "close-connection"
  | EchoStepDefinition => "echo-channels"
  | PeerProxyStepDefinition => "peer-proxy"
  | DynamicProxyStepDefinition => "dynamic-proxy"
  end.

End StepDefinitionClass.

Module StepClass.

(** The classes exported by handler-steps.ts. *)
Inductive t :=
| WaitForDurationStep
| WaitForChannelStep
| WaitForMessageStep
| WaitForTrackStep
| WaitForMediaStep
| SendStep
| CloseStep
| EchoStep
| PeerProxyStep
| DynamicProxyStep.

(** [class X extends XDefinition]. *)
Definition extends (c : t) : StepDefinitionClass.t :=
  match c with
  | WaitForDurationStep => StepDefinitionClass.WaitForDurationStepDefinition
  | WaitForChannelStep => StepDefinitionClass.WaitForChannelStepDefinition
  | WaitForMessageStep => StepDefinitionClass.WaitForMessageStepDefinition
  | WaitForTrackStep => StepDefinitionClass.WaitForTrackStepDefinition
  | WaitForMediaStep => StepDefinitionClass.WaitForMediaStepDefinition
  | SendStep => StepDefinitionClass.SendStepDefinition
  | CloseStep => StepDefinitionClass.CloseStepDefinition
  | EchoStep => StepDefinitionClass.EchoStepDefinition
  | PeerProxyStep => StepDefinitionClass.PeerProxyStepDefinition
  | DynamicProxyStep => StepDefinitionClass.DynamicProxyStepDefinition
  end.

(** No step class redeclares [type]: it is inherited. *)
Definition type (c : t) : string := StepDefinitionClass.type (extends c).

End StepClass.

(** An object literal used as a table: keys in source order. *)
Definition StepDefinitionLookup : list (string * StepDefinitionClass.t) :=
  [ ("wait-for-duration", StepDefinitionClass.WaitForDurationStepDefinition);
    ("wait-for-channel", StepDefinitionClass.WaitForChannelStepDefinition);
    ("wait-for-track", StepDefinitionClass.WaitForTrackStepDefinition);
    ("wait-for-media", StepDefinitionClass.WaitForMediaStepDefinition);
    ("wait-for-message", StepDefinitionClass.WaitForMessageStepDefinition);
    ("send-message", StepDefinitionClass.SendStepDefinition);
    ("close-connection", StepDefinitionClass.CloseStepDefinition);
    ("echo-channels", StepDefinitionClass.EchoStepDefinition);
    ("peer-proxy", StepDefinitionClass.PeerProxyStepDefinition);
    ("dynamic-proxy", StepDefinitionClass.DynamicProxyStepDefinition) ].

Definition StepLookup : list (string * StepClass.t) :=
  [ ("wait-for-duration", StepClass.WaitForDurationStep);
    ("wait-for-channel", StepClass.WaitForChannelStep);
    ("wait-for-track", StepClass.WaitForTrackStep);
    ("wait-for-media", StepClass.WaitForMediaStep);
    ("wait-for-message", StepClass.WaitForMessageStep);
    ("send-message", StepClass.SendStep);
    ("close-connection", StepClass.CloseStep);
    ("echo-channels", StepClass.EchoStep);
    ("peer-proxy", StepClass.PeerProxyStep);
    ("dynamic-proxy", StepClass.DynamicProxyStep) ].

(** [table[key]] on the table's own properties. *)
Fixpoint property {A : Type} (table : list (string * A)) (key : string) : option A :=
  match table with
  | [] => None
  | (k, v) :: rest => if String.eqb k key then Some v else property rest key
  end.

Definition keys {A : Type} (table : list (string * A)) : list string := map fst table.

Module Registry.

Inductive Failure := UnknownStepType (tag : string).

(** Modelled from the spec: the registry's [resolve(tag)], which is not in
    the sources (the tables are consumed by the serialization library).
    Spec 4.1: "resolve(tag) -> (DefinitionType, ExecutorType); fails with
    UnknownStepType if the tag is absent." *)
Definition resolve (tag : string) : (StepDefinitionClass.t * StepClass.t) + Failure :=
  match property StepDefinitionLookup tag, property StepLookup tag with
  | Some d, Some e => inl (d, e)
  | _, _ => inr (UnknownStepType tag)
  end.

End Registry.

(* ================================================================== *)
(** * Values *)

Definition Error := string.

Record RTCSessionDescriptionInit := { sd_type : string; sdp : string }.

(** What a promise does in the end: [never] is a promise that stays
    pending. *)
Inductive Eventually (A : Type) : Type :=
| resolves (a : A)
| rejects (e : Error)
| never.
Arguments resolves {A} a.
Arguments rejects {A} e.
Arguments never {A}.

(** [string | Buffer] *)
Inductive Payload :=
| text (s : string)
| buffer (bytes : list nat).

Inductive StreamKind := DataChannel | MediaTrack.

(** A DataChannelStream or MediaTrackStream owned by the connection.
    [paused] is the stream having been paused explicitly, [piped] that it
    has been piped into itself. *)
Record Stream := { ident : nat; label : string; paused : bool; piped : bool }.

Record Tracked := { stream : Stream; isLocal : bool }.

(** A reference to a stream as a listener receives it: which object it is,
    and its read-only label. *)
Record StreamRef := { ref_kind : StreamKind; ref_ident : nat; ref_label : string }.

(** An event emitter: the connection, or one of the streams. *)
Inductive Target :=
| connection
| on_stream (k : StreamKind) (i : nat).

(** The arrow functions that the [handle] methods register as listeners.
    [p] is the promise of the [handle] call that created the closure, so
    two calls create different closures. *)
Inductive Closure :=
| channelOpened (channelLabel : option string) (p : nat)
| messageReceived (channelLabel : option string) (p : nat)
| listenForMessage (channelLabel : option string) (p : nat)
| trackOpened (p : nat)
| mediaReceived (p : nat)
| listenForData (p : nat)
| echoContent (p : nat)
| closedResolve (p : nat).

Definition owner (c : Closure) : nat :=
  match c with
  | channelOpened _ p | messageReceived _ p | listenForMessage _ p
  | trackOpened p | mediaReceived p | listenForData p
  | echoContent p | closedResolve p => p
  end.

(** One entry of an emitter's listener table. *)
Record Registration := {
  reg_id : nat;
  target : Target;
  event : string;
  callback : Closure;
  is_once : bool
}.

(** The rest of an [async] method after an [await], or a callback handed
    to the platform, waiting to be run. *)
Inductive Continuation :=
| timer (durationMs : nat) (p : nat)
| closing (p : nat)
| written (q : nat)
| after_getLocalDescription
    (getAnswer : RTCSessionDescriptionInit -> Eventually RTCSessionDescriptionInit)
    (externalConn : nat) (p : nat)
| after_getAnswer (externalConn : nat)
    (answer : Eventually RTCSessionDescriptionInit) (p : nat)
| after_proxyTrafficToExternalConnection (p : nat).

Definition awaiter (k : Continuation) : nat :=
  match k with
  | timer _ p | closing p | written p
  | after_getLocalDescription _ _ p | after_getAnswer _ _ p
  | after_proxyTrafficToExternalConnection p => p
  end.

Inductive Settlement := Fulfilled | Rejected (e : Error).

(** [Promise.all(elements)] and the promise it returned. *)
Record PromiseAll := { all_target : nat; all_elements : list nat }.

(** An [RTCConnection] created by a proxy step. *)
Record RTCConnection := {
  conn_id : nat;
  conn_open : bool;
  remoteDescription : option RTCSessionDescriptionInit
}.

(** What the methods do to the outside, in order. *)
Inductive Effect :=
| Subscribed (t : Target) (ev : string) (c : Closure) (once : bool)
| Unsubscribed (t : Target) (ev : string) (c : Closure)
| Called (c : Closure) (a : option StreamRef)
| Examined (collection : string)
| Wrote (i : nat) (message : Payload).

(* ================================================================== *)
(** * The world of one mock connection *)

(** Modelled from the spec: the MockRTCConnection and its streams, whose
    sources (webrtc/mockrtc-connection.ts, rtc-connection.ts, the stream
    classes) are not given.  Spec 3: the connection "exposes a mutable,
    append-only collection of opened data channels, a mutable, append-only
    collection of opened media tracks, and a lifecycle event stream
    (channel-opened, remote-channel-opened, track-opened,
    remote-track-opened, connection-closed)".

    [registrations] holds the listener tables of all emitters in one list,
    in registration order: the table of emitter [t] is the sub-list of the
    entries whose [target] is [t].  [settlements] lists the promises that
    are no longer pending. *)
Record World := {
  next_id : nat;
  settlements : list (nat * Settlement);
  combinators : list PromiseAll;
  registrations : list Registration;
  trackedChannels : list Tracked;
  trackedMediaTracks : list Tracked;
  externalConns : list RTCConnection;
  proxiedTo : list nat;
  suspended : list Continuation;
  trace : list Effect
}.

Definition set_next_id (f : nat -> nat) (w : World) : World :=
  {| next_id := f (next_id w); settlements := settlements w;
     combinators := combinators w; registrations := registrations w;
     trackedChannels := trackedChannels w;
     trackedMediaTracks := trackedMediaTracks w;
     externalConns := externalConns w; proxiedTo := proxiedTo w;
     suspended := suspended w; trace := trace w |}.

Definition set_settlements (f : list (nat * Settlement) -> list (nat * Settlement))
  (w : World) : World :=
  {| next_id := next_id w; settlements := f (settlements w);
     combinators := combinators w; registrations := registrations w;
     trackedChannels := trackedChannels w;
     trackedMediaTracks := trackedMediaTracks w;
     externalConns := externalConns w; proxiedTo := proxiedTo w;
     suspended := suspended w; trace := trace w |}.

Definition set_combinators (f : list PromiseAll -> list PromiseAll) (w : World) : World :=
  {| next_id := next_id w; settlements := settlements w;
     combinators := f (combinators w); registrations := registrations w;
     trackedChannels := trackedChannels w;
     trackedMediaTracks := trackedMediaTracks w;
     externalConns := externalConns w; proxiedTo := proxiedTo w;
     suspended := suspended w; trace := trace w |}.

Definition set_registrations (f : list Registration -> list Registration) (w : World) : World :=
  {| next_id := next_id w; settlements := settlements w;
     combinators := combinators w; registrations := f (registrations w);
     trackedChannels := trackedChannels w;
     trackedMediaTracks := trackedMediaTracks w;
     externalConns := externalConns w; proxiedTo := proxiedTo w;
     suspended := suspended w; trace := trace w |}.

Definition set_trackedChannels (f : list Tracked -> list Tracked) (w : World) : World :=
  {| next_id := next_id w; settlements := settlements w;
     combinators := combinators w; registrations := registrations w;
     trackedChannels := f (trackedChannels w);
     trackedMediaTracks := trackedMediaTracks w;
     externalConns := externalConns w; proxiedTo := proxiedTo w;
     suspended := suspended w; trace := trace w |}.

Definition set_trackedMediaTracks (f : list Tracked -> list Tracked) (w : World) : World :=
  {| next_id := next_id w; settlements := settlements w;
     combinators := combinators w; registrations := registrations w;
     trackedChannels := trackedChannels w;
     trackedMediaTracks := f (trackedMediaTracks w);
     externalConns := externalConns w; proxiedTo := proxiedTo w;
     suspended := suspended w; trace := trace w |}.

Definition set_externalConns (f : list RTCConnection -> list RTCConnection) (w : World) : World :=
  {| next_id := next_id w; settlements := settlements w;
     combinators := combinators w; registrations := registrations w;
     trackedChannels := trackedChannels w;
     trackedMediaTracks := trackedMediaTracks w;
     externalConns := f (externalConns w); proxiedTo := proxiedTo w;
     suspended := suspended w; trace := trace w |}.

Definition set_proxiedTo (f : list nat -> list nat) (w : World) : World :=
  {| next_id := next_id w; settlements := settlements w;
     combinators := combinators w; registrations := registrations w;
     trackedChannels := trackedChannels w;
     trackedMediaTracks := trackedMediaTracks w;
     externalConns := externalConns w; proxiedTo := f (proxiedTo w);
     suspended := suspended w; trace := trace w |}.

Definition set_suspended (f : list Continuation -> list Continuation) (w : World) : World :=
  {| next_id := next_id w; settlements := settlements w;
     combinators := combinators w; registrations := registrations w;
     trackedChannels := trackedChannels w;
     trackedMediaTracks := trackedMediaTracks w;
     externalConns := externalConns w; proxiedTo := proxiedTo w;
     suspended := f (suspended w); trace := trace w |}.

Definition set_trace (f : list Effect -> list Effect) (w : World) : World :=
  {| next_id := next_id w; settlements := settlements w;
     combinators := combinators w; registrations := registrations w;
     trackedChannels := trackedChannels w;
     trackedMediaTracks := trackedMediaTracks w;
     externalConns := externalConns w; proxiedTo := proxiedTo w;
     suspended := suspended w; trace := f (trace w) |}.

(** A connection on which nothing has happened yet. *)
Definition new_world : World :=
  {| next_id := 0; settlements := []; combinators := []; registrations := [];
     trackedChannels := []; trackedMediaTracks := []; externalConns := [];
     proxiedTo := []; suspended := []; trace := [] |}.

(** Statements are world transformers; [s1 ;; s2] runs [s1] then [s2]. *)
Definition Stmt := World -> World.

Definition skip : Stmt := fun w => w.

Definition andThen (s1 s2 : Stmt) : Stmt := fun w => s2 (s1 w).
Notation "s1 ;; s2" := (andThen s1 s2) (at level 61, right associativity).

(** [array.forEach(f)] over a snapshot of the array. *)
Definition forEach {A : Type} (l : list A) (f : A -> Stmt) : Stmt :=
  fun w => fold_left (fun w x => f x w) l w.

Definition log (e : Effect) : Stmt := set_trace (fun t => t ++ [e]).

Definition fresh (w : World) : nat * World := (next_id w, set_next_id S w).

(* ------------------------------------------------------------------ *)
(** ** Identity of closures and registrations *)

Definition option_string_eqb (a b : option string) : bool :=
  match a, b with
  | None, None => true
  | Some x, Some y => String.eqb x y
  | _, _ => false
  end.

(** [===] on listener functions. *)
Definition Closure_eqb (a b : Closure) : bool :=
  match a, b with
  | channelOpened l p, channelOpened l' p' => option_string_eqb l l' && Nat.eqb p p'
  | messageReceived l p, messageReceived l' p' => option_string_eqb l l' && Nat.eqb p p'
  | listenForMessage l p, listenForMessage l' p' => option_string_eqb l l' && Nat.eqb p p'
  | trackOpened p, trackOpened p' => Nat.eqb p p'
  | mediaReceived p, mediaReceived p' => Nat.eqb p p'
  | listenForData p, listenForData p' => Nat.eqb p p'
  | echoContent p, echoContent p' => Nat.eqb p p'
  | closedResolve p, closedResolve p' => Nat.eqb p p'
  | _, _ => false
  end.

Definition StreamKind_eqb (a b : StreamKind) : bool :=
  match a, b with
  | DataChannel, DataChannel | MediaTrack, MediaTrack => true
  | _, _ => false
  end.

Definition Target_eqb (a b : Target) : bool :=
  match a, b with
  | connection, connection => true
  | on_stream k i, on_stream k' i' => StreamKind_eqb k k' && Nat.eqb i i'
  | _, _ => false
  end.

Definition Registration_eqb (a b : Registration) : bool :=
  Nat.eqb (reg_id a) (reg_id b) && Target_eqb (target a) (target b)
  && String.eqb (event a) (event b) && Closure_eqb (callback a) (callback b)
  && Bool.eqb (is_once a) (is_once b).

(* ------------------------------------------------------------------ *)
(** ** Promises *)

Fixpoint assoc (p : nat) (l : list (nat * Settlement)) : option Settlement :=
  match l with
  | [] => None
  | (q, s) :: rest => if Nat.eqb q p then Some s else assoc p rest
  end.

(** [None] is a pending promise. *)
Definition pstate (p : nat) (w : World) : option Settlement := assoc p (settlements w).

(** A promise settles at most once. *)
Definition settle (p : nat) (s : Settlement) : Stmt := fun w =>
  match pstate p w with
  | None => set_settlements (fun l => l ++ [(p, s)]) w
  | Some _ => w
  end.

Definition watches (p : nat) (c : PromiseAll) : bool :=
  existsb (Nat.eqb p) (all_elements c).

Definition is_fulfilled (s : option Settlement) : bool :=
  match s with Some Fulfilled => true | _ => false end.

(** [Promise.all] fulfils once every element has fulfilled. *)
Definition all_done (c : PromiseAll) : Stmt := fun w =>
  if forallb (fun q => is_fulfilled (pstate q w)) (all_elements c)
  then settle (all_target c) Fulfilled w
  else w.

(** [resolve()] of promise [p], and what the [Promise.all]s waiting on
    [p] do about it. *)
Definition resolve (p : nat) : Stmt := fun w =>
  match pstate p w with
  | None => (settle p Fulfilled ;; forEach (filter (watches p) (combinators w)) all_done) w
  | Some _ => w
  end.

(** [reject(e)] of promise [p]: a [Promise.all] waiting on [p] rejects
    with the same error. *)
Definition reject (p : nat) (e : Error) : Stmt := fun w =>
  match pstate p w with
  | None =>
      (settle p (Rejected e) ;;
       forEach (filter (watches p) (combinators w))
         (fun c => settle (all_target c) (Rejected e))) w
  | Some _ => w
  end.

(** [new Promise(executor)]: the executor runs at once. *)
Definition new_Promise (executor : nat -> Stmt) (w : World) : nat * World :=
  let (p, w1) := fresh w in (p, executor p w1).

(** [list.map(x => new Promise(executor x))] *)
Fixpoint new_Promises {A : Type} (l : list A) (executor : A -> nat -> Stmt) (w : World)
  : list nat * World :=
  match l with
  | [] => ([], w)
  | x :: rest =>
      let (q, w1) := new_Promise (executor x) w in
      let (qs, w2) := new_Promises rest executor w1 in
      (q :: qs, w2)
  end.

Fixpoint first_rejection (elements : list nat) (w : World) : option Error :=
  match elements with
  | [] => None
  | q :: rest =>
      match pstate q w with
      | Some (Rejected e) => Some e
      | _ => first_rejection rest w
      end
  end.

(** [Promise.all(elements)] *)
Definition Promise_all (elements : list nat) (w : World) : nat * World :=
  let (p, w1) := fresh w in
  let c := {| all_target := p; all_elements := elements |} in
  let w2 := set_combinators (fun l => l ++ [c]) w1 in
  (p, match first_rejection elements w2 with
      | Some e => settle p (Rejected e) w2
      | None => all_done c w2
      end).

Definition suspend (k : Continuation) : Stmt := set_suspended (fun l => l ++ [k]).

(** The platform calls back: the selected continuations leave the
    waiting list and run. *)
Definition take (sel : Continuation -> bool) (k : Continuation -> Stmt) : Stmt := fun w =>
  forEach (filter sel (suspended w)) k
    (set_suspended (filter (fun c => negb (sel c))) w).

(* ------------------------------------------------------------------ *)
(** ** Event emitters (Node's EventEmitter) *)

Definition subscribe (once_ : bool) (t : Target) (ev : string) (c : Closure) : Stmt := fun w =>
  let (i, w1) := fresh w in
  log (Subscribed t ev c once_)
    (set_registrations
       (fun l => l ++ [ {| reg_id := i; target := t; event := ev;
                           callback := c; is_once := once_ |} ]) w1).

(** [emitter.on(ev, c)] *)
Definition on : Target -> string -> Closure -> Stmt := subscribe false.

(** [emitter.once(ev, c)] *)
Definition once : Target -> string -> Closure -> Stmt := subscribe true.

Definition listens (t : Target) (ev : string) (r : Registration) : bool :=
  Target_eqb (target r) t && String.eqb (event r) ev.

Fixpoint remove_last {A : Type} (f : A -> bool) (l : list A) : list A :=
  match l with
  | [] => []
  | x :: rest =>
      if existsb f rest then x :: remove_last f rest
      else if f x then rest else x :: rest
  end.

(** [emitter.removeListener(ev, c)] removes the most recently added
    entry for [c], whether added by [on] or by [once]. *)
Definition removeListener (t : Target) (ev : string) (c : Closure) : Stmt :=
  set_registrations
    (remove_last (fun r => listens t ev r && Closure_eqb (callback r) c)) ;;
  log (Unsubscribed t ev c).

(** A [once] entry takes itself out of the table when it fires. *)
Definition drop (r : Registration) : Stmt :=
  set_registrations (filter (fun r' => negb (Registration_eqb r' r))).

(* ------------------------------------------------------------------ *)
(** ** Streams and collections *)

Definition update_in (i : nat) (f : Stream -> Stream) (l : list Tracked) : list Tracked :=
  map (fun t => if Nat.eqb (ident (stream t)) i
                then {| stream := f (stream t); isLocal := isLocal t |}
                else t) l.

Definition update_stream (k : StreamKind) (i : nat) (f : Stream -> Stream) : Stmt :=
  match k with
  | DataChannel => set_trackedChannels (update_in i f)
  | MediaTrack => set_trackedMediaTracks (update_in i f)
  end.

Definition emitter (s : StreamRef) : Target := on_stream (ref_kind s) (ref_ident s).

(** [stream.pause()] *)
Definition pause (s : StreamRef) : Stmt :=
  update_stream (ref_kind s) (ref_ident s)
    (fun st => {| ident := ident st; label := label st; paused := true; piped := piped st |}).

(** [stream.resume()] *)
Definition resume (k : StreamKind) (i : nat) : Stmt :=
  update_stream k i
    (fun st => {| ident := ident st; label := label st; paused := false; piped := piped st |}).

(** [stream.pipe(stream)]: piping sets the stream flowing. *)
Definition pipe (s : StreamRef) : Stmt :=
  update_stream (ref_kind s) (ref_ident s)
    (fun st => {| ident := ident st; label := label st; paused := false; piped := true |}).

Definition ref_of (k : StreamKind) (t : Tracked) : StreamRef :=
  {| ref_kind := k; ref_ident := ident (stream t); ref_label := label (stream t) |}.

Definition is_remote (t : Tracked) : bool := negb (isLocal t).

(** The connection's getters: each returns a new array. *)
Definition channels (w : World) : list StreamRef :=
  map (ref_of DataChannel) (trackedChannels w).

Definition remoteChannels (w : World) : list StreamRef :=
  map (ref_of DataChannel) (filter is_remote (trackedChannels w)).

Definition mediaTracks (w : World) : list StreamRef :=
  map (ref_of MediaTrack) (trackedMediaTracks w).

Definition remoteMediaTracks (w : World) : list StreamRef :=
  map (ref_of MediaTrack) (filter is_remote (trackedMediaTracks w)).

(** [connection.<name>.forEach(f)] *)
Definition forEach_of (name : string) (collection : World -> list StreamRef)
  (f : StreamRef -> Stmt) : Stmt := fun w =>
  forEach (collection w) f (log (Examined name) w).

Definition tracked (k : StreamKind) (w : World) : list Tracked :=
  match k with
  | DataChannel => trackedChannels w
  | MediaTrack => trackedMediaTracks w
  end.

(** A stream delivers ['data'] events unless it has been paused. *)
Definition is_flowing (k : StreamKind) (i : nat) (w : World) : bool :=
  existsb (fun t => Nat.eqb (ident (stream t)) i && negb (paused (stream t)))
    (tracked k w).

(* ------------------------------------------------------------------ *)
(** ** External connections *)

(** [new RTCConnection()] *)
Definition new_RTCConnection (w : World) : nat * World :=
  let (i, w1) := fresh w in
  (i, set_externalConns
        (fun l => l ++ [ {| conn_id := i; conn_open := true; remoteDescription := None |} ])
        w1).

Definition update_conn (i : nat) (f : RTCConnection -> RTCConnection) : Stmt :=
  set_externalConns (map (fun c => if Nat.eqb (conn_id c) i then f c else c)).

(** [conn.close()] *)
Definition close (i : nat) : Stmt :=
  update_conn i (fun c =>
    {| conn_id := conn_id c; conn_open := false; remoteDescription := remoteDescription c |}).

(** [conn.setRemoteDescription(answer)] *)
Definition setRemoteDescription (i : nat) (answer : RTCSessionDescriptionInit) : Stmt :=
  update_conn i (fun c =>
    {| conn_id := conn_id c; conn_open := conn_open c; remoteDescription := Some answer |}).

(** [connection.proxyTrafficTo(externalConn)] *)
Definition proxyTrafficTo (i : nat) : Stmt := set_proxiedTo (fun l => l ++ [i]).

Definition is_open (i : nat) (w : World) : bool :=
  existsb (fun c => Nat.eqb (conn_id c) i && conn_open c) (externalConns w).

(* ================================================================== *)
(** * The step classes *)

(** [this.channelLabel === undefined || this.channelLabel === channel.label];
    the same private method in WaitForChannelStep, WaitForMessageStep and
    SendStep.  Reading [label] of a missing argument throws, and the
    caller goes no further. *)
Definition matchesChannel (channelLabel : option string) (channel : option StreamRef) : bool :=
  match channelLabel, channel with
  | None, _ => true
  | Some l, Some ch => String.eqb l (ref_label ch)
  | Some _, None => false
  end.

(** The bodies of the listener closures. *)
Definition body (c : Closure) (arg : option StreamRef) : Stmt :=
  match c with
  | channelOpened channelLabel p =>
      (* WaitForChannelStep.handle *)
      if matchesChannel channelLabel arg then
        removeListener connection "remote-channel-open" c ;;
        resolve p
      else skip
  | messageReceived channelLabel p =>
      (* WaitForMessageStep.handle *)
      removeListener connection "channel-open" (listenForMessage channelLabel p) ;;
      forEach_of "channels" channels (fun channel =>
        removeListener (emitter channel) "data" c ;;
        pause channel) ;;
      resolve p
  | listenForMessage channelLabel p =>
      match arg with
      | Some channel =>
          if matchesChannel channelLabel arg then
            once (emitter channel) "data" (messageReceived channelLabel p)
          else skip
      | None => skip
      end
  | trackOpened p =>
      (* WaitForTrackStep.handle: () => resolve() *)
      resolve p
  | mediaReceived p =>
      (* WaitForMediaStep.handle: messageReceived *)
      removeListener connection "track-open" (listenForData p) ;;
      forEach_of "mediaTracks" mediaTracks (fun track =>
        removeListener (emitter track) "data" c ;;
        pause track) ;;
      resolve p
  | listenForData p =>
      match arg with
      | Some track => once (emitter track) "data" (mediaReceived p)
      | None => skip
      end
  | echoContent p =>
      (* EchoStep.handle *)
      match arg with
      | Some stream => pipe stream
      | None => skip
      end
  | closedResolve p =>
      (* the promise's [resolve], given to connection.on('connection-closed', _) *)
      resolve p
  end.

Definition call (c : Closure) (arg : option StreamRef) : Stmt :=
  log (Called c arg) ;; body c arg.

(** One listener of the snapshot runs. *)
Definition invoke (arg : option StreamRef) (r : Registration) : Stmt :=
  (if is_once r then drop r else skip) ;; call (callback r) arg.

(** [emitter.emit(ev, arg)]: the listeners registered at the time of the
    call run in registration order, also those removed meanwhile.  No
    listener of this file emits, so an emit never starts inside
    another. *)
Definition emit (t : Target) (ev : string) (arg : option StreamRef) : Stmt := fun w =>
  forEach (filter (listens t ev) (registrations w)) (invoke arg) w.

(** The step objects.  [PeerProxyStep] and [DynamicProxyStep] carry their
    private [externalConnections] array. *)
Inductive HandlerStep :=
| WaitForDurationStep (durationMs : nat)
| WaitForChannelStep (channelLabel : option string)
| WaitForMessageStep (channelLabel : option string)
| WaitForTrackStep
| WaitForMediaStep
| SendStep (channelLabel : option string) (message : Payload)
| CloseStep
| EchoStep
| PeerProxyStep
    (getAnswer : RTCSessionDescriptionInit -> Eventually RTCSessionDescriptionInit)
    (externalConnections : list nat)
| DynamicProxyStep (externalConnections : list nat).

Definition class_of (s : HandlerStep) : StepClass.t :=
  match s with
  | WaitForDurationStep _ => StepClass.WaitForDurationStep
  | WaitForChannelStep _ => StepClass.WaitForChannelStep
  | WaitForMessageStep _ => StepClass.WaitForMessageStep
  | WaitForTrackStep => StepClass.WaitForTrackStep
  | WaitForMediaStep => StepClass.WaitForMediaStep
  | SendStep _ _ => StepClass.SendStep
  | CloseStep => StepClass.CloseStep
  | EchoStep => StepClass.EchoStep
  | PeerProxyStep _ _ => StepClass.PeerProxyStep
  | DynamicProxyStep _ => StepClass.DynamicProxyStep
  end.

(** Every [handle] returns the promise of the call and the new world. The
    promise of an [async] method is identified with the promise it
    returns or awaits last. *)

Definition WaitForDurationStep_handle (durationMs : nat) (w : World) : nat * World :=
  new_Promise (fun p => suspend (timer durationMs p)) w.

Definition WaitForChannelStep_handle (channelLabel : option string) (w : World) : nat * World :=
  new_Promise (fun p =>
    on connection "remote-channel-open" (channelOpened channelLabel p) ;;
    forEach_of "remoteChannels" remoteChannels (fun channel =>
      call (channelOpened channelLabel p) (Some channel))) w.

Definition WaitForMessageStep_handle (channelLabel : option string) (w : World) : nat * World :=
  new_Promise (fun p =>
    on connection "channel-open" (listenForMessage channelLabel p) ;;
    forEach_of "channels" channels (fun channel =>
      call (listenForMessage channelLabel p) (Some channel))) w.

Definition WaitForTrackStep_handle (w : World) : nat * World :=
  new_Promise (fun p => fun w1 =>
    let w2 := log (Examined "remoteMediaTracks") w1 in
    if Nat.ltb 0 (List.length (remoteMediaTracks w2)) then resolve p w2
    else once connection "remote-track-open" (trackOpened p) w2) w.

Definition WaitForMediaStep_handle (w : World) : nat * World :=
  new_Promise (fun p =>
    on connection "track-open" (listenForData p) ;;
    forEach_of "mediaTracks" mediaTracks (fun track =>
      call (listenForData p) (Some track))) w.

(** [channel.write(message, callback)]: the callback is kept by the
    stream until the write is over. *)
Definition write (channel : StreamRef) (message : Payload) (q : nat) : Stmt :=
  log (Wrote (ref_ident channel) message) ;; suspend (written q).

Definition SendStep_handle (channelLabel : option string) (message : Payload) (w : World)
  : nat * World :=
  let w1 := log (Examined "channels") w in
  let matching := filter (fun channel => matchesChannel channelLabel (Some channel)) (channels w1) in
  let (elements, w2) := new_Promises matching (fun channel q => write channel message q) w1 in
  Promise_all elements w2.

Definition CloseStep_handle (w : World) : nat * World :=
  new_Promise (fun p => suspend (closing p)) w.

Definition EchoStep_handle (w : World) : nat * World :=
  new_Promise (fun p =>
    on connection "channel-open" (echoContent p) ;;
    on connection "track-open" (echoContent p) ;;
    forEach_of "channels" channels (fun stream => call (echoContent p) (Some stream)) ;;
    forEach_of "mediaTracks" mediaTracks (fun stream => call (echoContent p) (Some stream)) ;;
    on connection "connection-closed" (closedResolve p)) w.

(** Up to the first [await]. Returns the new [this.externalConnections]
    too. *)
Definition PeerProxyStep_handle
  (getAnswer : RTCSessionDescriptionInit -> Eventually RTCSessionDescriptionInit)
  (externalConnections : list nat) (w : World) : list nat * nat * World :=
  let (externalConn, w1) := new_RTCConnection w in
  let externalConnections := externalConnections ++ [externalConn] in
  let (p, w2) :=
    new_Promise (fun p => suspend (after_getLocalDescription getAnswer externalConn p)) w1 in
  (externalConnections, p, w2).

(** [externalConn.getLocalDescription()] has settled. *)
Definition PeerProxyStep_handle_1
  (getAnswer : RTCSessionDescriptionInit -> Eventually RTCSessionDescriptionInit)
  (externalConn p : nat) (externalOffer : RTCSessionDescriptionInit + Error) : Stmt :=
  match externalOffer with
  | inl offer => suspend (after_getAnswer externalConn (getAnswer offer) p)
  | inr e => reject p e
  end.

(** [this.getAnswer(externalOffer)] has settled. *)
Definition PeerProxyStep_handle_2 (externalConn p : nat)
  (answer : Eventually RTCSessionDescriptionInit) : Stmt :=
  match answer with
  | resolves a =>
      setRemoteDescription externalConn a ;;
      proxyTrafficTo externalConn ;;
      on connection "connection-closed" (closedResolve p)
  | rejects e => reject p e
  | never => skip
  end.

(** Up to the [await] of [connection.proxyTrafficToExternalConnection()]. *)
Definition DynamicProxyStep_handle (externalConnections : list nat) (w : World)
  : list nat * nat * World :=
  let (p, w1) := new_Promise (fun p => suspend (after_proxyTrafficToExternalConnection p)) w in
  (externalConnections, p, w1).

Definition DynamicProxyStep_handle_1 (p : nat) (error : option Error) : Stmt :=
  match error with
  | None => on connection "connection-closed" (closedResolve p)
  | Some e => reject p e
  end.

(** [step.handle(connection)] *)
Definition handle (s : HandlerStep) (w : World) : HandlerStep * nat * World :=
  match s with
  | WaitForDurationStep durationMs =>
      let (p, w1) := WaitForDurationStep_handle durationMs w in (s, p, w1)
  | WaitForChannelStep channelLabel =>
      let (p, w1) := WaitForChannelStep_handle channelLabel w in (s, p, w1)
  | WaitForMessageStep channelLabel =>
      let (p, w1) := WaitForMessageStep_handle channelLabel w in (s, p, w1)
  | WaitForTrackStep => let (p, w1) := WaitForTrackStep_handle w in (s, p, w1)
  | WaitForMediaStep => let (p, w1) := WaitForMediaStep_handle w in (s, p, w1)
  | SendStep channelLabel message =>
      let (p, w1) := SendStep_handle channelLabel message w in (s, p, w1)
  | CloseStep => let (p, w1) := CloseStep_handle w in (s, p, w1)
  | EchoStep => let (p, w1) := EchoStep_handle w in (s, p, w1)
  | PeerProxyStep getAnswer externalConnections =>
      let '(l, p, w1) := PeerProxyStep_handle getAnswer externalConnections w in
      (PeerProxyStep getAnswer l, p, w1)
  | DynamicProxyStep externalConnections =>
      let '(l, p, w1) := DynamicProxyStep_handle externalConnections w in
      (DynamicProxyStep l, p, w1)
  end.

(** [this.externalConnections.forEach(conn => conn.close())]; the other
    classes inherit a [dispose] that does nothing. *)
Definition dispose (s : HandlerStep) : Stmt :=
  match s with
  | PeerProxyStep _ externalConnections => forEach externalConnections close
  | DynamicProxyStep externalConnections => forEach externalConnections close
  | _ => skip
  end.

Definition externalConnections_of (s : HandlerStep) : list nat :=
  match s with
  | PeerProxyStep _ l | DynamicProxyStep l => l
  | _ => []
  end.

(* ================================================================== *)
(** * What happens to a connection *)

(** Modelled from the spec: the events the transport and the platform
    produce (spec 3 and 5): streams open and are appended to the
    connection's collections before their open events are emitted, data
    arrives, the connection closes, and awaited calls settle. *)
Inductive Event :=
| channel_opens (label : string) (local : bool)
| track_opens (local : bool)
| data_arrives (k : StreamKind) (i : nat)
| stream_resumes (k : StreamKind) (i : nat)
| connection_closes
| timer_fires (p : nat)
| close_returns (p : nat) (error : option Error)
| write_returns (q : nat) (error : option Error)
| localDescription_returns (p : nat) (result : RTCSessionDescriptionInit + Error)
| answer_returns (p : nat)
| proxy_setup_returns (p : nat) (error : option Error)
| step_starts (s : HandlerStep).

Definition opens (k : StreamKind) (label : string) (local : bool) : Stmt := fun w =>
  let (i, w1) := fresh w in
  let t := {| stream := {| ident := i; label := label; paused := false; piped := false |};
              isLocal := local |} in
  let arg := Some (ref_of k t) in
  match k with
  | DataChannel =>
      (set_trackedChannels (fun l => l ++ [t]) ;;
       emit connection "channel-open" arg ;;
       emit connection (if local then "local-channel-open" else "remote-channel-open") arg) w1
  | MediaTrack =>
      (set_trackedMediaTracks (fun l => l ++ [t]) ;;
       emit connection "track-open" arg ;;
       emit connection (if local then "local-track-open" else "remote-track-open") arg) w1
  end.

Definition settle_or_reject (p : nat) (error : option Error) : Stmt :=
  match error with
  | None => resolve p
  | Some e => reject p e
  end.

Definition step (e : Event) : Stmt :=
  match e with
  | channel_opens label local => opens DataChannel label local
  | track_opens local => opens MediaTrack "" local
  | data_arrives k i => fun w =>
      if is_flowing k i w then emit (on_stream k i) "data" None w else w
  | stream_resumes k i => resume k i
  | connection_closes => emit connection "connection-closed" None
  | timer_fires p =>
      take (fun k => match k with timer _ p' => Nat.eqb p' p | _ => false end)
           (fun _ => resolve p)
  | close_returns p error =>
      take (fun k => match k with closing p' => Nat.eqb p' p | _ => false end)
           (fun _ => settle_or_reject p error)
  | write_returns q error =>
      (* (error) => { if (error) reject(error); else resolve(); } *)
      take (fun k => match k with written q' => Nat.eqb q' q | _ => false end)
           (fun _ => settle_or_reject q error)
  | localDescription_returns p result =>
      take (fun k => match k with
                     | after_getLocalDescription _ _ p' => Nat.eqb p' p
                     | _ => false
                     end)
           (fun k => match k with
                     | after_getLocalDescription getAnswer externalConn _ =>
                         PeerProxyStep_handle_1 getAnswer externalConn p result
                     | _ => skip
                     end)
  | answer_returns p =>
      take (fun k => match k with
                     | after_getAnswer _ (resolves _) p' => Nat.eqb p' p
                     | after_getAnswer _ (rejects _) p' => Nat.eqb p' p
                     | _ => false
                     end)
           (fun k => match k with
                     | after_getAnswer externalConn answer _ =>
                         PeerProxyStep_handle_2 externalConn p answer
                     | _ => skip
                     end)
  | proxy_setup_returns p error =>
      take (fun k => match k with
                     | after_proxyTrafficToExternalConnection p' => Nat.eqb p' p
                     | _ => false
                     end)
           (fun _ => DynamicProxyStep_handle_1 p error)
  | step_starts s => fun w => snd (handle s w)
  end.

(** A history of the connection. *)
Definition run (history : list Event) : Stmt := forEach history step.

(* ================================================================== *)
(** * Serialization of the peer-proxy step *)

(** The caller-supplied [RTCPeerConnection], reduced to the three calls
    the constructor makes on it.  [createAnswer] answers the remote
    description it has just been given. *)
Record RTCPeerConnection := {
  pc_setRemoteDescription : RTCSessionDescriptionInit -> Eventually unit;
  pc_createAnswer : RTCSessionDescriptionInit -> Eventually RTCSessionDescriptionInit;
  pc_setLocalDescription : RTCSessionDescriptionInit -> Eventually unit
}.

(** [await x; k] *)
Definition await {A B : Type} (x : Eventually A) (k : A -> Eventually B) : Eventually B :=
  match x with
  | resolves a => k a
  | rejects e => rejects e
  | never => never
  end.

(** [new PeerProxyStep(connectionTarget)] *)
Definition new_PeerProxyStep
  (connectionTarget :
     RTCPeerConnection + (RTCSessionDescriptionInit -> Eventually RTCSessionDescriptionInit))
  : HandlerStep :=
  PeerProxyStep
    match connectionTarget with
    | inr f => f
    | inl pc => fun offer =>
        await (pc_setRemoteDescription pc offer) (fun _ =>
        await (pc_createAnswer pc offer) (fun answer =>
        await (pc_setLocalDescription pc answer) (fun _ =>
        resolves answer)))
    end
    [].

(** [new DynamicProxyStep()] *)
Definition new_DynamicProxyStep : HandlerStep := DynamicProxyStep [].

Record OfferMessage := { offer : RTCSessionDescriptionInit }.
Record AnswerMessage := { answer : RTCSessionDescriptionInit }.

(** Modelled from the spec: the ClientServerChannel of the serialization
    library, which is not in the sources.  Spec 4.3: "the definition side
    registers a handler (offer) -> answer against a named channel; the
    remote side can issue a {offer} request and receive {answer}
    regardless of which process physically holds the real peer object";
    "if the remote handler throws [...] the request fails".  A request on
    a channel without handler is never answered. *)
Record ClientServerChannel := {
  requestHandlers : list (OfferMessage -> Eventually AnswerMessage)
}.

Definition onRequest (cb : OfferMessage -> Eventually AnswerMessage)
  (channel : ClientServerChannel) : ClientServerChannel :=
  {| requestHandlers := requestHandlers channel ++ [cb] |}.

Definition request (channel : ClientServerChannel) (msg : OfferMessage)
  : Eventually AnswerMessage :=
  match requestHandlers channel with
  | [] => never
  | cb :: _ => cb msg
  end.

Record Serialized := { data_type : string }.

(** [PeerProxyStep.serialize(channel)], the same method as
    [PeerProxyStepDefinition.serialize]: returns the channel with the
    handler registered, and the wire data. *)
Definition PeerProxyStep_serialize
  (getAnswer : RTCSessionDescriptionInit -> Eventually RTCSessionDescriptionInit)
  (channel : ClientServerChannel) : ClientServerChannel * Serialized :=
  (onRequest (fun msg => await (getAnswer (offer msg)) (fun a => resolves {| answer := a |}))
     channel,
   {| data_type := StepClass.type StepClass.PeerProxyStep |}).

(** [PeerProxyStep.deserialize(_data, channel)] *)
Definition PeerProxyStep_deserialize (_data : Serialized) (channel : ClientServerChannel)
  : HandlerStep :=
  new_PeerProxyStep (inr (fun offer =>
    await (request channel {| offer := offer |}) (fun response =>
    resolves (answer response)))).

Definition getAnswer_of (s : HandlerStep)
  : RTCSessionDescriptionInit -> Eventually RTCSessionDescriptionInit :=
  match s with
  | PeerProxyStep getAnswer _ => getAnswer
  | _ => fun _ => never
  end.

(* ================================================================== *)
(** * Well-formed worlds *)

Fixpoint distinct (l : list nat) : bool :=
  match l with
  | [] => true
  | x :: rest => negb (existsb (Nat.eqb x) rest) && distinct rest
  end.

(** Nothing in the world refers to an identifier that has not been
    handed out yet, and no stream is tracked twice. *)
Definition wf (w : World) : bool :=
  let n := next_id w in
  forallb (fun x => Nat.ltb (fst x) n) (settlements w)
  && forallb (fun c => Nat.ltb (all_target c) n
                       && forallb (fun q => Nat.ltb q n) (all_elements c))
       (combinators w)
  && forallb (fun r => Nat.ltb (owner (callback r)) n) (registrations w)
  && forallb (fun k => Nat.ltb (awaiter k) n) (suspended w)
  && forallb (fun t => Nat.ltb (ident (stream t)) n) (trackedChannels w)
  && forallb (fun t => Nat.ltb (ident (stream t)) n) (trackedMediaTracks w)
  && distinct (map (fun t => ident (stream t)) (trackedChannels w))
  && distinct (map (fun t => ident (stream t)) (trackedMediaTracks w)).

(** The effects a statement added to the trace. *)
Definition effects_since (w w' : World) : list Effect :=
  skipn (List.length (trace w)) (trace w').




(** What can be done with a step object and its connection. *)
Inductive Action :=
| do_handle
| do_dispose
| do_event (e : Event).

Definition perform (a : Action) (sw : HandlerStep * World) : HandlerStep * World :=
  let (s, w) := sw in
  match a with
  | do_handle => let '(s', _, w') := handle s w in (s', w')
  | do_dispose => (s, dispose s w)
  | do_event e => (s, step e w)
  end.

Definition performs (l : list Action) (sw : HandlerStep * World) : HandlerStep * World :=
  fold_left (fun sw a => perform a sw) l sw.

(* ================================================================== *)
(** * Ownership: the part of a world that belongs to one step

    [own] picks the promises of the [handle] call under study.  The
    closures it created, the continuations that will settle its promises
    and the [Promise.all]s over them are [own]ed; the [view] of a world
    keeps only what is owned. *)

Definition owns_registration (own : nat -> bool) (r : Registration) : bool :=
  own (owner (callback r)).

Definition owns_continuation (own : nat -> bool) (k : Continuation) : bool :=
  own (awaiter k).

Definition owns_combinator (own : nat -> bool) (c : PromiseAll) : bool :=
  own (all_target c) || existsb own (all_elements c).

Definition owns_settlement (own : nat -> bool) (x : nat * Settlement) : bool :=
  own (fst x).

Definition owns_call (own : nat -> bool) (e : Effect) : bool :=
  match e with
  | Called c _ => own (owner c)
  | _ => false
  end.

Record View := {
  v_settlements : list (nat * Settlement);
  v_combinators : list PromiseAll;
  v_registrations : list Registration;
  v_suspended : list Continuation;
  v_calls : list Effect
}.

Definition view (own : nat -> bool) (w : World) : View :=
  {| v_settlements := filter (owns_settlement own) (settlements w);
     v_combinators := filter (owns_combinator own) (combinators w);
     v_registrations := filter (owns_registration own) (registrations w);
     v_suspended := filter (owns_continuation own) (suspended w);
     v_calls := filter (owns_call own) (trace w) |}.

(** A [Promise.all] that touches an owned promise is owned entirely. *)
Definition closed (own : nat -> bool) (w : World) : Prop :=
  forall c, In c (combinators w) -> owns_combinator own c = true ->
    own (all_target c) = true /\ forall q, In q (all_elements c) -> own q = true.

Definition bounded (own : nat -> bool) (w : World) : Prop :=
  forall i, own i = true -> i < next_id w.

Definition ids (k : StreamKind) (w : World) : list nat :=
  map (fun t => ident (stream t)) (tracked k w).

Definition ids_bounded (w : World) : Prop :=
  forall k i, In i (ids k w) -> i < next_id w.

Definition good (own : nat -> bool) (w : World) : Prop :=
  closed own w /\ bounded own w /\ ids_bounded w.

(** [w'] differs from [w] only in what is not owned; identifiers and
    streams are only added. *)
Definition unchanged (own : nat -> bool) (w w' : World) : Prop :=
  view own w' = view own w /\ next_id w <= next_id w'
  /\ forall k, incl (ids k w) (ids k w').

Definition Frame (own : nat -> bool) (f : Stmt) : Prop :=
  forall w, good own w -> good own (f w) /\ unchanged own w (f w).

(** The listeners an event reaches, and the continuations it resumes. *)
Definition fires (e : Event) (r : Registration) : bool :=
  match e with
  | channel_opens _ local =>
      listens connection "channel-open" r
      || listens connection (if local then "local-channel-open" else "remote-channel-open") r
  | track_opens local =>
      listens connection "track-open" r
      || listens connection (if local then "local-track-open" else "remote-track-open") r
  | data_arrives k i => listens (on_stream k i) "data" r
  | connection_closes => listens connection "connection-closed" r
  | _ => false
  end.

Definition resumed_by (e : Event) (k : Continuation) : bool :=
  match e, k with
  | timer_fires p, timer _ p' => Nat.eqb p' p
  | close_returns p _, closing p' => Nat.eqb p' p
  | write_returns q _, written q' => Nat.eqb q' q
  | localDescription_returns p _, after_getLocalDescription _ _ p' => Nat.eqb p' p
  | answer_returns p, after_getAnswer _ (resolves _) p' => Nat.eqb p' p
  | answer_returns p, after_getAnswer _ (rejects _) p' => Nat.eqb p' p
  | proxy_setup_returns p _, after_proxyTrafficToExternalConnection p' => Nat.eqb p' p
  | _, _ => false
  end.

(** Nothing owned is reached by the event. *)
Definition quiet (own : nat -> bool) (e : Event) (w : World) : Prop :=
  (forall r, In r (registrations w) -> owns_registration own r = true -> fires e r = false)
  /\ (forall k, In k (suspended w) -> owns_continuation own k = true -> resumed_by e k = false).


Definition two_channels_one_track : World :=
  run [channel_opens "chat" false; channel_opens "control" true; track_opens false] new_world.

(** A statement under which every settled promise keeps its settlement. *)
Definition Monotone (f : Stmt) : Prop :=
  forall w p s, pstate p w = Some s -> pstate p (f w) = Some s.

(** Statements that do not touch the settlements at all. *)
Definition Silent (f : Stmt) : Prop := forall w, settlements (f w) = settlements w.

(** [w'] differs from [w] only in what is not owned, and has the same
    streams. *)
Definition kept (own : nat -> bool) (w w' : World) : Prop :=
  view own w' = view own w /\ next_id w <= next_id w'
  /\ forall k, ids k w' = ids k w.

(** The step owns no listener and no continuation any more. *)
Definition idle (own : nat -> bool) (w : World) : Prop :=
  v_registrations (view own w) = [] /\ v_suspended (view own w) = [].

(** What the platform's callback runs when it resumes [k]. *)
Definition resumption (e : Event) (k : Continuation) : Stmt :=
  match e, k with
  | timer_fires p, _ => resolve p
  | close_returns p error, _ => settle_or_reject p error
  | write_returns q error, _ => settle_or_reject q error
  | localDescription_returns p result, after_getLocalDescription getAnswer externalConn _ =>
      PeerProxyStep_handle_1 getAnswer externalConn p result
  | answer_returns p, after_getAnswer externalConn answer _ =>
      PeerProxyStep_handle_2 externalConn p answer
  | proxy_setup_returns p error, _ => DynamicProxyStep_handle_1 p error
  | _, _ => skip
  end.

(** The event is the platform calling back. *)
Definition is_callback (e : Event) : bool :=
  match e with
  | timer_fires _ | close_returns _ _ | write_returns _ _
  | localDescription_returns _ _ | answer_returns _ | proxy_setup_returns _ _ => true
  | _ => false
  end.

(** A property of worlds that only depends on what is owned. *)
Definition Stable (own : nat -> bool) (I : World -> Prop) : Prop :=
  forall w w', I w -> good own w' -> unchanged own w w' -> I w'.

(** The event concerns promise [p]: it is the callback of something [p]
    waits for. *)
Definition concerns (p : nat) (e : Event) : bool :=
  match e with
  | timer_fires q | close_returns q _ | write_returns q _
  | localDescription_returns q _ | answer_returns q | proxy_setup_returns q _ => Nat.eqb q p
  | _ => false
  end.


(** The promises of one [handle] call: a single promise... *)
Definition only (p : nat) : nat -> bool := Nat.eqb p.

(** ...or a run of consecutive ones. *)
Definition between (lo hi : nat) : nat -> bool :=
  fun i => Nat.leb lo i && Nat.ltb i hi.

(** The events a newly opened stream is announced with. *)
Definition open_events (k : StreamKind) (local : bool) : list string :=
  match k with
  | DataChannel => ["channel-open"; if local then "local-channel-open" else "remote-channel-open"]
  | MediaTrack => ["track-open"; if local then "local-track-open" else "remote-track-open"]
  end.

(** The listener a perpetual step leaves on the connection:
    [connection.on('connection-closed', resolve)]. *)
Definition is_close_listener (p : nat) (r : Registration) : bool :=
  Closure_eqb (callback r) (closedResolve p) && listens connection "connection-closed" r.

Definition is_negotiation (k : Continuation) : bool :=
  match k with
  | after_getLocalDescription _ _ _ | after_getAnswer _ _ _
  | after_proxyTrafficToExternalConnection _ => true
  | _ => false
  end.

(** What belongs to the promise [p] of an echo or proxy step: echo
    listeners, listeners for the close of the connection, and the rest of
    a suspended [handle]. *)
Definition perpetual_shape (p : nat) (w : World) : Prop :=
  good (only p) w
  /\ v_combinators (view (only p) w) = []
  /\ Forall (fun r => callback r = echoContent p \/ is_close_listener p r = true)
       (v_registrations (view (only p) w))
  /\ Forall (fun k => is_negotiation k = true) (v_suspended (view (only p) w)).


(** The step is pending, rejected or complete, with nothing of its
    [handle] left to run. *)
Definition settling (p : nat) (w : World) : Prop :=
  perpetual_shape p w /\ v_suspended (view (only p) w) = []
  /\ (pstate p w = None \/ pstate p w = Some Fulfilled).

(** The step is parked on the close of the connection: pending, its
    listener for ['connection-closed'] registered, nothing of its
    [handle] left to run. *)
Definition parked (p : nat) (w : World) : Prop :=
  perpetual_shape p w /\ v_suspended (view (only p) w) = []
  /\ pstate p w = None
  /\ existsb (is_close_listener p) (registrations w) = true.

(** The step is in the middle of its [handle], suspended at [k]. *)
Definition negotiating (p : nat) (k : Continuation) (w : World) : Prop :=
  good (only p) w
  /\ v_combinators (view (only p) w) = []
  /\ v_registrations (view (only p) w) = []
  /\ v_suspended (view (only p) w) = [k]
  /\ pstate p w = None.

(** A statement that only settles promises. *)
Definition Settling (f : Stmt) : Prop :=
  forall w, f w = set_settlements (fun _ => settlements (f w)) w.

(** [w'] has the promises, listeners, continuations and streams of [w]. *)
Definition same_control (w w' : World) : Prop :=
  next_id w' = next_id w /\ settlements w' = settlements w
  /\ combinators w' = combinators w /\ registrations w' = registrations w
  /\ suspended w' = suspended w /\ forall k, ids k w' = ids k w.


(** A history in which nothing that [p] awaits comes back. *)
Definition undisturbed (p : nat) (history : list Event) : bool :=
  forallb (fun e => negb (concerns p e)) history.

(** The event that announces a new stream of kind [k] to everybody. *)
Definition open_event (k : StreamKind) : string :=
  match k with
  | DataChannel => "channel-open"
  | MediaTrack => "track-open"
  end.

(** [connection.channels] or [connection.mediaTracks]. *)
Definition streams_of (k : StreamKind) (w : World) : list StreamRef :=
  map (ref_of k) (tracked k w).

(** The entries [removeListener (t, ev, c)] looks for. *)
Definition registered_as (t : Target) (ev : string) (c : Closure) (r : Registration) : bool :=
  listens t ev r && Closure_eqb (callback r) c.

Definition is_call_of (c : Closure) (e : Effect) : bool :=
  match e with
  | Called c' _ => Closure_eqb c' c
  | _ => false
  end.

(** How often closure [c] has been called so far. *)
Definition calls_of (c : Closure) (w : World) : nat :=
  List.length (filter (is_call_of c) (trace w)).

(** The listeners of a step that waits for data on streams of kind [k]:
    [L], on the connection, listens for new streams; [D], on a stream of
    the connection, listens for data. *)
Definition watch_shape (k : StreamKind) (L D : Closure) (w : World) (r : Registration)
  : Prop :=
  (callback r = L /\ target r = connection /\ event r = open_event k)
  \/ (callback r = D /\ event r = "data"
      /\ exists i, target r = on_stream k i /\ In i (ids k w)).

(** The step is waiting: pending, with listeners of the above kinds only,
    none of them registered twice for the same emitter and event, and [D]
    called [n] times so far. *)
Definition watching (p : nat) (k : StreamKind) (L D : Closure) (n : nat) (w : World)
  : Prop :=
  good (only p) w
  /\ v_combinators (view (only p) w) = []
  /\ v_suspended (view (only p) w) = []
  /\ pstate p w = None
  /\ Forall (watch_shape k L D w) (v_registrations (view (only p) w))
  /\ (forall t ev c, owner c = p ->
        List.length (filter (registered_as t ev c) (v_registrations (view (only p) w))) <= 1)
  /\ List.length (filter (is_call_of D) (v_calls (view (only p) w))) = n.

(** The step has fired: fulfilled, no listener of it left anywhere, and
    [D] called once more than before. *)
Definition fired (p : nat) (D : Closure) (n : nat) (w : World) : Prop :=
  good (only p) w
  /\ v_combinators (view (only p) w) = []
  /\ idle (only p) w
  /\ pstate p w = Some Fulfilled
  /\ List.length (filter (is_call_of D) (v_calls (view (only p) w))) = S n.

(** [w'] is [w] with some listeners removed and some streams paused or
    flowing, and nothing called. *)
Definition pruned (w w' : World) : Prop :=
  next_id w' = next_id w /\ settlements w' = settlements w
  /\ combinators w' = combinators w /\ suspended w' = suspended w
  /\ (forall k, ids k w' = ids k w)
  /\ (exists g, registrations w' = filter g (registrations w))
  /\ (forall own, v_calls (view own w') = v_calls (view own w)).

(** No listener is registered twice for the same emitter, event and
    closure of promise [p]. *)
Definition registered_once (p : nat) (w : World) : Prop :=
  forall t ev c, owner c = p ->
    List.length (filter (registered_as t ev c) (registrations w)) <= 1.

(** Promise [p] has no listener on stream [i] of kind [k]. *)
Definition unwatched (p : nat) (k : StreamKind) (i : nat) (w : World) : Prop :=
  forall r, In r (registrations w) -> owner (callback r) = p -> target r <> on_stream k i.

(** The kind of stream an event is about, if any. *)
Definition kind_of_event (e : Event) : option StreamKind :=
  match e with
  | channel_opens _ _ => Some DataChannel
  | track_opens _ => Some MediaTrack
  | data_arrives k _ => Some k
  | _ => None
  end.

(** The steps that wait for data on a stream, and their data listener
    ([messageReceived] in both classes of the source). *)
Definition is_data_wait (s : HandlerStep) : bool :=
  match s with
  | WaitForMessageStep _ | WaitForMediaStep => true
  | _ => false
  end.

Definition data_listener (s : HandlerStep) (p : nat) : Closure :=
  match s with
  | WaitForMessageStep channelLabel => messageReceived channelLabel p
  | _ => mediaReceived p
  end.

(** What the transport answered to the write that promise [q] waits
    for: the argument of its first callback in the history. *)
Fixpoint acknowledged (q : nat) (history : list Event) : option (option Error) :=
  match history with
  | [] => None
  | write_returns q' error :: rest =>
      if Nat.eqb q' q then Some error else acknowledged q rest
  | _ :: rest => acknowledged q rest
  end.

(** [(error) => { if (error) reject(error); else resolve(); }] *)
Definition settled_by (a : option (option Error)) : option Settlement :=
  match a with
  | None => None
  | Some None => Some Fulfilled
  | Some (Some e) => Some (Rejected e)
  end.

(** How the promise [P] of a [Promise.all] stands to its elements [qs]. *)
Definition consistent (P : nat) (qs : list nat) (st : nat -> option Settlement) : Prop :=
  (st P = Some Fulfilled <-> forall q, In q qs -> st q = Some Fulfilled)
  /\ (forall e, st P = Some (Rejected e) -> exists q, In q qs /\ st q = Some (Rejected e))
  /\ (forall q e, In q qs -> st q = Some (Rejected e) -> exists e', st P = Some (Rejected e')).

(** A send step whose promises are [qs], one for each write, and [P], that
    of [Promise.all]: the callbacks of the writes not yet acknowledged are
    all that the step waits for. *)
Definition sending (lo P : nat) (qs : list nat) (w : World) : Prop :=
  good (between lo (S P)) w
  /\ (forall q, In q qs -> lo <= q /\ q < P)
  /\ lo <= P
  /\ v_combinators (view (between lo (S P)) w)
     = [{| all_target := P; all_elements := qs |}]
  /\ v_registrations (view (between lo (S P)) w) = []
  /\ (forall k, In k (v_suspended (view (between lo (S P)) w)) <->
        exists q, k = written q /\ In q qs /\ pstate q w = None)
  /\ consistent P qs (fun x => pstate x w).

(** What [connection.close()] came back with: the argument of its first
    callback in the history. *)
Fixpoint closed_with (p : nat) (history : list Event) : option (option Error) :=
  match history with
  | [] => None
  | close_returns p' error :: rest =>
      if Nat.eqb p' p then Some error else closed_with p rest
  | _ :: rest => closed_with p rest
  end.

(** The event that announces a new stream of kind [k] of the remote
    side. *)
Definition remote_open_event (k : StreamKind) : string :=
  match k with
  | DataChannel => "remote-channel-open"
  | MediaTrack => "remote-track-open"
  end.

(** [this.channelLabel === undefined || this.channelLabel === label] *)
Definition matches_label (channelLabel : option string) (label : string) : bool :=
  match channelLabel with
  | None => true
  | Some l => String.eqb l label
  end.

(** A step that waits for a remote stream to open: pending, its one
    listener [c] registered on the connection. *)
Definition awaiting (p : nat) (k : StreamKind) (c : Closure) (once_ : bool) (w : World)
  : Prop :=
  good (only p) w
  /\ v_combinators (view (only p) w) = []
  /\ v_suspended (view (only p) w) = []
  /\ pstate p w = None
  /\ exists r, v_registrations (view (only p) w) = [r]
       /\ target r = connection /\ event r = remote_open_event k
       /\ callback r = c /\ is_once r = once_.

(** A step that has completed and has nothing registered and nothing left
    to run. *)
Definition completed (p : nat) (w : World) : Prop :=
  good (only p) w /\ v_combinators (view (only p) w) = []
  /\ idle (only p) w /\ pstate p w = Some Fulfilled.

(** A stream of kind [k] of the remote side opens, with a label that
    satisfies [M]; a media track has no label. *)
Definition opens_remote (k : StreamKind) (M : string -> bool) (e : Event) : bool :=
  match e, k with
  | channel_opens label false, DataChannel => M label
  | track_opens false, MediaTrack => M ""
  | _, _ => false
  end.

(** Stream [t'] is stream [t] later on: the same stream of the same side;
    once piped, it stays piped. *)
Definition same_stream (t t' : Tracked) : Prop :=
  ident (stream t') = ident (stream t)
  /\ label (stream t') = label (stream t)
  /\ isLocal t' = isLocal t
  /\ (piped (stream t) = true -> piped (stream t') = true).

(** From [w] to [w'] no stream was added to or removed from the
    collections of the connection, and no external connection was
    removed. *)
Definition steady (w w' : World) : Prop :=
  (forall k, Forall2 same_stream (tracked k w) (tracked k w'))
  /\ exists extra, map conn_id (externalConns w') = map conn_id (externalConns w) ++ extra.

Definition Steady (f : Stmt) : Prop := forall w, steady w (f w).

(** Every stream of the connection is piped. *)
Definition all_piped (w : World) : Prop :=
  forall k, Forall (fun t => piped (stream t) = true) (tracked k w).

(** The first thing [opens] does: the new stream joins its collection. *)
Definition with_stream (k : StreamKind) (label : string) (local : bool) (w : World) : World :=
  let t := {| stream := {| ident := next_id w; label := label; paused := false;
                           piped := false |};
              isLocal := local |} in
  match k with
  | DataChannel => set_trackedChannels (fun l => l ++ [t]) (set_next_id S w)
  | MediaTrack => set_trackedMediaTracks (fun l => l ++ [t]) (set_next_id S w)
  end.

(** The echo listeners of promise [p] are registered, for channels and
    for media tracks. *)
Definition echoing (p : nat) (w : World) : Prop :=
  forall k, exists r,
    In r (registrations w) /\ target r = connection /\ event r = open_event k
    /\ callback r = echoContent p /\ is_once r = false.

(** A step that waits for data on streams of kind [k], as far as the
    streams of [S] go: its listener [L] for new streams is registered
    with [on]; its data listener [D] is on every stream of [S] that
    satisfies [F], and on no other stream. *)
Definition covering (p : nat) (k : StreamKind) (L D : Closure)
  (F : option StreamRef -> bool) (S : list StreamRef) (w : World) : Prop :=
  (exists r, In r (registrations w)
             /\ registered_as connection (open_event k) L r = true /\ is_once r = false)
  /\ (forall s, In s S -> F (Some s) = true ->
        exists r, In r (registrations w)
                  /\ registered_as (on_stream k (ref_ident s)) "data" D r = true)
  /\ (forall r i, In r (registrations w) -> owner (callback r) = p ->
        target r = on_stream k i ->
        exists s, In s S /\ ref_ident s = i /\ F (Some s) = true).

(** The kind of stream a wait-for-message or wait-for-media step listens
    on, and the streams it listens on: [this.matchesChannel(channel)] in
    [listenForMessage], every track in [listenForData]. *)
Definition data_kind (s : HandlerStep) : StreamKind :=
  match s with
  | WaitForMessageStep _ => DataChannel
  | _ => MediaTrack
  end.

Definition listens_on (s : HandlerStep) (stream : StreamRef) : bool :=
  match s with
  | WaitForMessageStep channelLabel => matchesChannel channelLabel (Some stream)
  | _ => true
  end.

Definition is_data_on (k : StreamKind) (e : Event) : bool :=
  match e with
  | data_arrives k' _ => StreamKind_eqb k' k
  | _ => false
  end.

(* ================================================================== *)
(** * Basic facts *)

Lemma option_string_eqb_eq (a b : option string) :
  option_string_eqb a b = true <-> a = b.
Proof.
  destruct a as [x|], b as [y|]; simpl; split; intro H;
    try discriminate; try reflexivity.
  - apply String.eqb_eq in H. now subst.
  - injection H as ->. apply String.eqb_refl.
Qed.

Lemma Closure_eqb_eq (a b : Closure) : Closure_eqb a b = true <-> a = b.
Proof.
  split.
  - destruct a, b; simpl; intro H; try discriminate;
      try (apply andb_true_iff in H as [H1 H2];
           apply option_string_eqb_eq in H1; apply Nat.eqb_eq in H2; now subst);
      apply Nat.eqb_eq in H; now subst.
  - intros <-. destruct a; simpl;
      rewrite ?Nat.eqb_refl, ?andb_true_r; try reflexivity;
      now apply option_string_eqb_eq.
Qed.

Lemma Closure_eqb_refl (a : Closure) : Closure_eqb a a = true.
Proof. now apply Closure_eqb_eq. Qed.

Lemma Registration_eqb_callback (a b : Registration) :
  Registration_eqb a b = true -> callback a = callback b.
Proof.
  unfold Registration_eqb. intro H.
  repeat (apply andb_true_iff in H as [H ?]).
  now apply Closure_eqb_eq.
Qed.

Lemma Registration_eqb_refl (a : Registration) : Registration_eqb a a = true.
Proof.
  unfold Registration_eqb.
  rewrite Nat.eqb_refl, String.eqb_refl, Closure_eqb_refl, Bool.eqb_reflx.
  destruct (target a) as [|k i]; simpl; [reflexivity|].
  rewrite Nat.eqb_refl. now destruct k.
Qed.

Lemma forEach_nil {A : Type} (f : A -> Stmt) (w : World) : forEach [] f w = w.
Proof. reflexivity. Qed.

Lemma forEach_cons {A : Type} (x : A) (l : list A) (f : A -> Stmt) (w : World) :
  forEach (x :: l) f w = forEach l f (f x w).
Proof. reflexivity. Qed.

Lemma forEach_app {A : Type} (l1 l2 : list A) (f : A -> Stmt) (w : World) :
  forEach (l1 ++ l2) f w = forEach l2 f (forEach l1 f w).
Proof. unfold forEach. apply fold_left_app. Qed.

Lemma run_app (h1 h2 : list Event) (w : World) : run (h1 ++ h2) w = run h2 (run h1 w).
Proof. apply forEach_app. Qed.

(** A statement that keeps a property, kept along a [forEach]. *)
Lemma forEach_preserves {A : Type} (P : World -> Prop) (f : A -> Stmt) (l : list A) :
  (forall x w, In x l -> P w -> P (f x w)) ->
  forall w, P w -> P (forEach l f w).
Proof.
  induction l as [|x l IH]; intros Hf w Hw; [exact Hw|].
  rewrite forEach_cons. apply IH.
  - intros y w' Hy. apply Hf. now right.
  - apply Hf; [now left | exact Hw].
Qed.

(* ================================================================== *)
(** * The registry *)

Lemma property_absent {A : Type} (table : list (string * A)) (key : string) :
  ~ In key (keys table) -> property table key = None.
Proof.
  induction table as [|[k v] rest IH]; simpl; intro H; [reflexivity|].
  destruct (String.eqb_spec k key) as [->|Hne].
  - exfalso. apply H. now left.
  - apply IH. intro Hin. apply H. now right.
Qed.

Lemma keys_distinct : NoDup (keys StepLookup).
Proof.
  unfold keys, StepLookup; simpl.
  repeat (constructor; [simpl; intro H; repeat (destruct H as [H|H]; [discriminate|]); exact H|]).
  constructor.
Qed.

(** C1. The two tables have the same ten keys, without repetition.  A tag
    among them resolves to one pair of a definition class and a step
    class, the only entries of the tables under that key, the step class
    extends the definition class and the [type] of both is the tag.  Any
    other tag fails with [UnknownStepType]. *)
Theorem registry_resolves_the_ten_tags :
  keys StepLookup = keys StepDefinitionLookup
  /\ List.length (keys StepLookup) = 10
  /\ NoDup (keys StepLookup)
  /\ (forall tag, In tag (keys StepLookup) ->
        exists d e,
          Registry.resolve tag = inl (d, e)
          /\ StepDefinitionClass.type d = tag
          /\ StepClass.type e = tag
          /\ StepClass.extends e = d
          /\ (forall d', In (tag, d') StepDefinitionLookup -> d' = d)
          /\ (forall e', In (tag, e') StepLookup -> e' = e))
  /\ (forall tag, ~ In tag (keys StepLookup) ->
        Registry.resolve tag = inr (Registry.UnknownStepType tag)).
Proof.
  split; [reflexivity|]. split; [reflexivity|]. split; [exact keys_distinct|]. split.
  - intros tag Hin. unfold keys, StepLookup in Hin; simpl in Hin.
    repeat (destruct Hin as [<-|Hin];
      [ eexists; eexists; split; [reflexivity|];
        split; [reflexivity|]; split; [reflexivity|]; split; [reflexivity|];
        split; intros x Hx; simpl in Hx;
        repeat (destruct Hx as [Hx|Hx]; [inversion Hx; reflexivity|]);
        contradiction
      | ]).
    contradiction.
  - intros tag Hnot. unfold Registry.resolve.
    rewrite (property_absent StepDefinitionLookup tag); [reflexivity|exact Hnot].
Qed.

Lemma registry_resolves_the_ten_tags_witness :
  (exists d e, Registry.resolve "peer-proxy" = inl (d, e)
               /\ StepDefinitionClass.type d = "peer-proxy"
               /\ StepClass.type e = "peer-proxy")
  /\ Registry.resolve "wait-for-nothing" = inr (Registry.UnknownStepType "wait-for-nothing").
Proof.
  destruct registry_resolves_the_ten_tags as (_ & _ & _ & Hin & Hout). split.
  - destruct (Hin "peer-proxy") as (d & e & H1 & H2 & H3 & _).
    + unfold keys, StepLookup; simpl. tauto.
    + exists d, e. tauto.
  - apply Hout. unfold keys, StepLookup; simpl.
    intro H. repeat (destruct H as [H|H]; [discriminate|]). exact H.
Defined.

(* ================================================================== *)
(** * Serialization of the peer-proxy step *)

Lemma await_resolves {A : Type} (x : Eventually A) : await x (fun a => resolves a) = x.
Proof. now destruct x. Qed.

Lemma roundtrip_getAnswer
  (getAnswer : RTCSessionDescriptionInit -> Eventually RTCSessionDescriptionInit)
  (channel : ClientServerChannel) :
  requestHandlers channel = [] ->
  forall offer,
    getAnswer_of
      (PeerProxyStep_deserialize (snd (PeerProxyStep_serialize getAnswer channel))
         (fst (PeerProxyStep_serialize getAnswer channel))) offer
    = getAnswer offer.
Proof.
  intros Hfresh o. simpl. unfold request, onRequest. simpl. rewrite Hfresh. simpl.
  now destruct (getAnswer o).
Qed.

(** C2. A peer-proxy step is serialized over a channel without earlier
    handler and deserialized from the wire data and that channel.  The
    data carries the tag [peer-proxy], which the registry resolves to the
    step class; the new step's [getAnswer] gives, for every offer, what
    the original [getAnswer] gives (answer, error, or no reply); and
    [handle] of the new step, from any world and followed by any history,
    produces the same promise and the same world as [handle] of a step
    holding the original function: [handle] only ever applies
    [getAnswer]. *)
Theorem peer_proxy_roundtrip :
  forall (getAnswer : RTCSessionDescriptionInit -> Eventually RTCSessionDescriptionInit)
         (externalConnections : list nat) (channel : ClientServerChannel),
    requestHandlers channel = [] ->
    let wire := PeerProxyStep_serialize getAnswer channel in
    let remote := PeerProxyStep_deserialize (snd wire) (fst wire) in
    data_type (snd wire) = "peer-proxy"
    /\ (exists d, Registry.resolve (data_type (snd wire)) = inl (d, class_of remote))
    /\ externalConnections_of remote = []
    /\ (forall offer, getAnswer_of remote offer = getAnswer offer)
    /\ (forall w history,
          let '(_, p', w') := handle remote w in
          let '(_, p, w1) := handle (PeerProxyStep getAnswer []) w in
          p' = p /\ run history w' = run history w1).
Proof.
  intros getAnswer exts channel Hfresh wire remote.
  split; [reflexivity|]. split; [eexists; reflexivity|]. split; [reflexivity|].
  assert (Hpoint : forall o, getAnswer_of remote o = getAnswer o)
    by (apply roundtrip_getAnswer; exact Hfresh).
  split; [exact Hpoint|].
  intros w history.
  assert (Hsame : remote = PeerProxyStep getAnswer []).
  { unfold remote, PeerProxyStep_deserialize, new_PeerProxyStep. f_equal.
    apply functional_extensionality. intro o. apply (Hpoint o). }
  rewrite Hsame.
  destruct (handle (PeerProxyStep getAnswer []) w) as [[s p] w1]. split; reflexivity.
Qed.

Lemma peer_proxy_roundtrip_witness :
  getAnswer_of
    (PeerProxyStep_deserialize
       (snd (PeerProxyStep_serialize (fun o => resolves o) {| requestHandlers := [] |}))
       (fst (PeerProxyStep_serialize (fun o => resolves o) {| requestHandlers := [] |})))
    {| sd_type := "offer"; sdp := "v=0" |}
  = resolves {| sd_type := "offer"; sdp := "v=0" |}.
Proof.
  exact (proj1 (proj2 (proj2 (proj2
    (peer_proxy_roundtrip (fun o => resolves o) [] {| requestHandlers := [] |} eq_refl))))
    {| sd_type := "offer"; sdp := "v=0" |}).
Defined.

(* ================================================================== *)
(** * Promises settle once *)

Lemma assoc_app (p : nat) (l1 l2 : list (nat * Settlement)) :
  assoc p (l1 ++ l2) = match assoc p l1 with Some s => Some s | None => assoc p l2 end.
Proof.
  induction l1 as [|[q s] l1 IH]; simpl; [reflexivity|].
  destruct (Nat.eqb q p); [reflexivity | exact IH].
Qed.

Lemma pstate_settle (p q : nat) (s : Settlement) (w : World) :
  pstate p (settle q s w)
  = match pstate p w with
    | Some x => Some x
    | None => if Nat.eqb q p then Some s else None
    end.
Proof.
  unfold settle. destruct (pstate q w) as [x|] eqn:Hq.
  - destruct (pstate p w) as [y|] eqn:Hp; [reflexivity|].
    destruct (Nat.eqb_spec q p) as [->|]; [congruence | reflexivity].
  - unfold pstate in *. simpl. rewrite assoc_app. simpl.
    destruct (assoc p (settlements w)); reflexivity.
Qed.

Lemma Monotone_skip : Monotone skip.
Proof. intros w p s H. exact H. Qed.

Lemma Monotone_andThen (f g : Stmt) : Monotone f -> Monotone g -> Monotone (f ;; g).
Proof. intros Hf Hg w p s H. unfold andThen. apply Hg, Hf, H. Qed.

Lemma Monotone_forEach {A : Type} (l : list A) (f : A -> Stmt) :
  (forall x, Monotone (f x)) -> Monotone (forEach l f).
Proof.
  intros Hf w p s. revert w. induction l as [|x l IH]; intros w H; [exact H|].
  rewrite forEach_cons. apply IH, Hf, H.
Qed.

Lemma Monotone_settle (q : nat) (x : Settlement) : Monotone (settle q x).
Proof. intros w p s H. rewrite pstate_settle, H. reflexivity. Qed.

Lemma Monotone_all_done (c : PromiseAll) : Monotone (all_done c).
Proof.
  intros w p s H. unfold all_done.
  destruct (forallb _ _); [now apply Monotone_settle | exact H].
Qed.

Lemma Monotone_resolve (q : nat) : Monotone (resolve q).
Proof.
  intros w p s H. unfold resolve. destruct (pstate q w); [exact H|].
  apply Monotone_andThen; [apply Monotone_settle | | exact H].
  apply Monotone_forEach. intro c. apply Monotone_all_done.
Qed.

Lemma Monotone_reject (q : nat) (e : Error) : Monotone (reject q e).
Proof.
  intros w p s H. unfold reject. destruct (pstate q w); [exact H|].
  apply Monotone_andThen; [apply Monotone_settle | | exact H].
  apply Monotone_forEach. intro c. apply Monotone_settle.
Qed.

Lemma Monotone_settle_or_reject (q : nat) (e : option Error) : Monotone (settle_or_reject q e).
Proof. destruct e; [apply Monotone_reject | apply Monotone_resolve]. Qed.

Lemma Silent_Monotone (f : Stmt) : Silent f -> Monotone f.
Proof. intros Hf w p s H. unfold pstate. rewrite Hf. exact H. Qed.

Lemma Silent_pstate (f : Stmt) (p : nat) (w : World) :
  Silent f -> pstate p (f w) = pstate p w.
Proof. intro Hf. unfold pstate. now rewrite Hf. Qed.

Lemma Silent_skip : Silent skip.
Proof. intro w. reflexivity. Qed.

Lemma Silent_andThen (f g : Stmt) : Silent f -> Silent g -> Silent (f ;; g).
Proof. intros Hf Hg w. unfold andThen. now rewrite Hg, Hf. Qed.

Lemma Silent_forEach {A : Type} (l : list A) (f : A -> Stmt) :
  (forall x, Silent (f x)) -> Silent (forEach l f).
Proof.
  intros Hf. induction l as [|x l IH]; intro w; [reflexivity|].
  rewrite forEach_cons, IH. apply Hf.
Qed.

Lemma Silent_log (e : Effect) : Silent (log e).
Proof. intro w. reflexivity. Qed.

Lemma Silent_subscribe (o : bool) (t : Target) (ev : string) (c : Closure) :
  Silent (subscribe o t ev c).
Proof. intro w. reflexivity. Qed.

Lemma Silent_removeListener (t : Target) (ev : string) (c : Closure) :
  Silent (removeListener t ev c).
Proof. intro w. reflexivity. Qed.

Lemma Silent_drop (r : Registration) : Silent (drop r).
Proof. intro w. reflexivity. Qed.

Lemma Silent_update_stream (k : StreamKind) (i : nat) (f : Stream -> Stream) :
  Silent (update_stream k i f).
Proof. intro w. now destruct k. Qed.

Lemma Silent_suspend (k : Continuation) : Silent (suspend k).
Proof. intro w. reflexivity. Qed.

Lemma Silent_forEach_of (name : string) (coll : World -> list StreamRef)
  (f : StreamRef -> Stmt) :
  (forall x, Silent (f x)) -> Silent (forEach_of name coll f).
Proof. intros Hf w. unfold forEach_of. now rewrite Silent_forEach. Qed.

Lemma Monotone_forEach_of (name : string) (coll : World -> list StreamRef)
  (f : StreamRef -> Stmt) :
  (forall x, Monotone (f x)) -> Monotone (forEach_of name coll f).
Proof.
  intros Hf w p s H. unfold forEach_of.
  apply Monotone_forEach; [exact Hf | exact H].
Qed.

Create HintDb settle.

#[local] Hint Resolve Monotone_skip Monotone_andThen Monotone_forEach Monotone_settle
  Monotone_all_done Monotone_resolve Monotone_reject Monotone_settle_or_reject
  Monotone_forEach_of Silent_skip Silent_andThen Silent_forEach Silent_log
  Silent_subscribe Silent_removeListener Silent_drop Silent_update_stream
  Silent_suspend Silent_forEach_of : settle.

Lemma Silent_on (t : Target) (ev : string) (c : Closure) : Silent (on t ev c).
Proof. apply Silent_subscribe. Qed.

Lemma Silent_once (t : Target) (ev : string) (c : Closure) : Silent (once t ev c).
Proof. apply Silent_subscribe. Qed.

Lemma Silent_pause (s : StreamRef) : Silent (pause s).
Proof. apply Silent_update_stream. Qed.

Lemma Silent_pipe (s : StreamRef) : Silent (pipe s).
Proof. apply Silent_update_stream. Qed.

#[local] Hint Resolve Silent_on Silent_once Silent_pause Silent_pipe Silent_Monotone : settle.

Lemma Monotone_body (c : Closure) (arg : option StreamRef) : Monotone (body c arg).
Proof.
  destruct c; simpl;
    repeat match goal with
           | |- Monotone (if ?b then _ else _) => destruct b
           | |- Monotone (match ?a with Some _ => _ | None => _ end) => destruct a
           end;
    auto 8 with settle.
Qed.

Lemma Monotone_call (c : Closure) (arg : option StreamRef) : Monotone (call c arg).
Proof. unfold call. auto using Monotone_body with settle. Qed.

Lemma Monotone_invoke (arg : option StreamRef) (r : Registration) : Monotone (invoke arg r).
Proof.
  unfold invoke. apply Monotone_andThen; [|apply Monotone_call].
  destruct (is_once r); auto with settle.
Qed.

Lemma Monotone_emit (t : Target) (ev : string) (arg : option StreamRef) :
  Monotone (emit t ev arg).
Proof.
  intros w p s H. unfold emit.
  apply Monotone_forEach; [apply Monotone_invoke | exact H].
Qed.

Lemma Monotone_take (sel : Continuation -> bool) (k : Continuation -> Stmt) :
  (forall c, Monotone (k c)) -> Monotone (take sel k).
Proof.
  intros Hk w p s H. unfold take.
  apply Monotone_forEach; [exact Hk | exact H].
Qed.

Lemma Monotone_new_Promise (executor : nat -> Stmt) :
  (forall p, Monotone (executor p)) ->
  Monotone (fun w => snd (new_Promise executor w)).
Proof. intros He w p s H. simpl. apply He. exact H. Qed.

Lemma Monotone_new_Promises {A : Type} (l : list A) (executor : A -> nat -> Stmt) :
  (forall x p, Monotone (executor x p)) ->
  Monotone (fun w => snd (new_Promises l executor w)).
Proof.
  intros He. induction l as [|x l IH]; intros w p s H; [exact H|].
  simpl. destruct (new_Promises l executor _) as [qs w2] eqn:E. simpl.
  change w2 with (snd (qs, w2)). rewrite <- E. apply IH. apply He. exact H.
Qed.

Lemma Monotone_Promise_all (elements : list nat) :
  Monotone (fun w => snd (Promise_all elements w)).
Proof.
  intros w p s H. unfold Promise_all. simpl.
  destruct (first_rejection _ _); [apply Monotone_settle | apply Monotone_all_done]; exact H.
Qed.

Lemma Monotone_handle (s : HandlerStep) : Monotone (fun w => snd (handle s w)).
Proof.
  destruct s; intros w p x H; simpl.
  - apply (Monotone_new_Promise (fun p => suspend (timer durationMs p))); auto with settle.
  - apply (Monotone_new_Promise (fun p =>
      on connection "remote-channel-open" (channelOpened channelLabel p) ;;
      forEach_of "remoteChannels" remoteChannels (fun channel =>
        call (channelOpened channelLabel p) (Some channel))));
      auto 6 using Monotone_call with settle.
  - apply (Monotone_new_Promise (fun p =>
      on connection "channel-open" (listenForMessage channelLabel p) ;;
      forEach_of "channels" channels (fun channel =>
        call (listenForMessage channelLabel p) (Some channel))));
      auto 6 using Monotone_call with settle.
  - unfold WaitForTrackStep_handle. simpl.
    destruct (Nat.ltb 0 _);
      [apply Monotone_resolve | apply (Silent_Monotone _ (Silent_once _ _ _))]; exact H.
  - apply (Monotone_new_Promise (fun p =>
      on connection "track-open" (listenForData p) ;;
      forEach_of "mediaTracks" mediaTracks (fun track =>
        call (listenForData p) (Some track))));
      auto 6 using Monotone_call with settle.
  - unfold SendStep_handle.
    destruct (new_Promises _ _ _) as [qs w2] eqn:E.
    apply Monotone_Promise_all.
    change w2 with (snd (qs, w2)). rewrite <- E.
    apply Monotone_new_Promises; [|exact H].
    intros c q. unfold write. auto with settle.
  - apply (Monotone_new_Promise (fun p => suspend (closing p))); auto with settle.
  - apply (Monotone_new_Promise (fun p =>
      on connection "channel-open" (echoContent p) ;;
      on connection "track-open" (echoContent p) ;;
      forEach_of "channels" channels (fun stream => call (echoContent p) (Some stream)) ;;
      forEach_of "mediaTracks" mediaTracks (fun stream => call (echoContent p) (Some stream)) ;;
      on connection "connection-closed" (closedResolve p)));
      auto 8 using Monotone_call with settle.
  - exact H.
  - exact H.
Qed.

Lemma Monotone_PeerProxyStep_handle_1 getAnswer externalConn p result :
  Monotone (PeerProxyStep_handle_1 getAnswer externalConn p result).
Proof. destruct result; simpl; auto with settle. Qed.

Lemma Monotone_PeerProxyStep_handle_2 externalConn p answer :
  Monotone (PeerProxyStep_handle_2 externalConn p answer).
Proof.
  destruct answer; simpl; auto with settle.
Qed.

Lemma Monotone_DynamicProxyStep_handle_1 p error :
  Monotone (DynamicProxyStep_handle_1 p error).
Proof. destruct error; simpl; auto with settle. Qed.

Lemma Monotone_step (e : Event) : Monotone (step e).
Proof.
  destruct e; simpl.
  - intros w p s H. unfold opens. simpl.
    repeat apply Monotone_andThen; try apply Monotone_emit; [|exact H].
    apply Silent_Monotone. intro w'. reflexivity.
  - intros w p s H. unfold opens. simpl.
    repeat apply Monotone_andThen; try apply Monotone_emit; [|exact H].
    apply Silent_Monotone. intro w'. reflexivity.
  - intros w p s H. destruct (is_flowing k i w); [apply Monotone_emit|]; exact H.
  - apply Silent_Monotone, Silent_update_stream.
  - apply Monotone_emit.
  - apply Monotone_take. intro. apply Monotone_resolve.
  - apply Monotone_take. intro. apply Monotone_settle_or_reject.
  - apply Monotone_take. intro. apply Monotone_settle_or_reject.
  - apply Monotone_take. intros [| | | g x q | |]; auto with settle.
    apply Monotone_PeerProxyStep_handle_1.
  - apply Monotone_take. intros [| | | | x a q |]; auto with settle.
    apply Monotone_PeerProxyStep_handle_2.
  - apply Monotone_take. intro. apply Monotone_DynamicProxyStep_handle_1.
  - apply Monotone_handle.
Qed.

(** Whatever happens to the connection, a settled promise stays as it
    settled. *)
Lemma Monotone_run (history : list Event) : Monotone (run history).
Proof. apply Monotone_forEach. exact Monotone_step. Qed.

(* ================================================================== *)
(** * Waiting for a channel or a track that is already there *)

Lemma assoc_unbound (n : nat) (l : list (nat * Settlement)) :
  forallb (fun x => Nat.ltb (fst x) n) l = true -> assoc n l = None.
Proof.
  induction l as [|[q s] l IH]; simpl; intro H; [reflexivity|].
  apply andb_true_iff in H as [H1 H2]. apply Nat.ltb_lt in H1.
  destruct (Nat.eqb_spec q n); [lia | now apply IH].
Qed.

Lemma wf_settlements (w : World) :
  wf w = true -> forallb (fun x => Nat.ltb (fst x) (next_id w)) (settlements w) = true.
Proof.
  unfold wf. intro H. repeat (apply andb_true_iff in H as [H _]). exact H.
Qed.

(** In a well-formed world the next promise to be created is pending. *)
Lemma wf_pending (w : World) : wf w = true -> pstate (next_id w) w = None.
Proof. intro H. apply assoc_unbound, wf_settlements, H. Qed.

Lemma resolve_fulfils (p : nat) (w : World) :
  pstate p w = None \/ pstate p w = Some Fulfilled ->
  pstate p (resolve p w) = Some Fulfilled.
Proof.
  intros [H|H]; [|now apply Monotone_resolve].
  unfold resolve. rewrite H. unfold andThen.
  apply Monotone_forEach; [intro; apply Monotone_all_done|].
  rewrite pstate_settle, H, Nat.eqb_refl. reflexivity.
Qed.

Lemma channelOpened_on_existing (channelLabel : option string) (p : nat)
  (l : list StreamRef) :
  forall w,
    pstate p w = Some Fulfilled
    \/ (pstate p w = None
        /\ existsb (fun channel => matchesChannel channelLabel (Some channel)) l = true) ->
    pstate p (forEach l (fun channel => call (channelOpened channelLabel p) (Some channel)) w)
    = Some Fulfilled.
Proof.
  induction l as [|ch l IH]; intros w H.
  - destruct H as [H|[_ H]]; [exact H | discriminate].
  - rewrite forEach_cons. apply IH.
    destruct H as [H|[Hp Hex]]; [left; now apply Monotone_call|].
    unfold call, andThen. simpl.
    destruct (matchesChannel channelLabel (Some ch)) eqn:Hm.
    + left. apply resolve_fulfils. left. exact Hp.
    + right. simpl in Hex. rewrite Hm in Hex. split; [exact Hp | exact Hex].
Qed.

(** C4. In a well-formed world where a remote channel matching the label
    filter is already open, the promise of [WaitForChannelStep.handle] is
    fulfilled when [handle] returns, before any event; and where a remote
    media track is already open, so is the promise of
    [WaitForTrackStep.handle]. *)
Theorem waits_complete_on_what_is_already_open :
  (forall (channelLabel : option string) (w : World),
     wf w = true ->
     existsb (fun channel => matchesChannel channelLabel (Some channel)) (remoteChannels w)
     = true ->
     pstate (fst (WaitForChannelStep_handle channelLabel w))
            (snd (WaitForChannelStep_handle channelLabel w)) = Some Fulfilled)
  /\ (forall w : World,
        wf w = true ->
        remoteMediaTracks w <> [] ->
        pstate (fst (WaitForTrackStep_handle w)) (snd (WaitForTrackStep_handle w))
        = Some Fulfilled).
Proof.
  split.
  - intros channelLabel w Hwf Hex. simpl.
    unfold andThen, forEach_of.
    apply channelOpened_on_existing. right. split.
    + exact (wf_pending w Hwf).
    + exact Hex.
  - intros w Hwf Hne. simpl.
    change (remoteMediaTracks (log (Examined "remoteMediaTracks") (set_next_id S w)))
      with (remoteMediaTracks w).
    destruct (remoteMediaTracks w) as [|t l]; [contradiction|]. simpl.
    apply resolve_fulfils. left. exact (wf_pending w Hwf).
Qed.

Lemma waits_complete_on_what_is_already_open_witness :
  pstate (fst (WaitForChannelStep_handle (Some "chat") two_channels_one_track))
         (snd (WaitForChannelStep_handle (Some "chat") two_channels_one_track))
  = Some Fulfilled
  /\ pstate (fst (WaitForTrackStep_handle two_channels_one_track))
            (snd (WaitForTrackStep_handle two_channels_one_track))
     = Some Fulfilled.
Proof.
  split.
  - apply (proj1 waits_complete_on_what_is_already_open); reflexivity.
  - apply (proj2 waits_complete_on_what_is_already_open); [reflexivity|].
    vm_compute. discriminate.
Defined.

(* ================================================================== *)
(** * Order of subscribing and checking in wait-for-channel *)







(* ================================================================== *)
(** * What firing a wait-for-message step pauses *)

Lemma update_in_idents (i : nat) (f : Stream -> Stream) (l : list Tracked) :
  (forall st, ident (f st) = ident st) ->
  map (fun t => ident (stream t)) (update_in i f l) = map (fun t => ident (stream t)) l.
Proof.
  intro Hf. unfold update_in. rewrite map_map. apply map_ext. intro t.
  destruct (Nat.eqb _ _); simpl; [apply Hf | reflexivity].
Qed.

Lemma update_in_labels (i : nat) (f : Stream -> Stream) (l : list Tracked) :
  (forall st, label (f st) = label st) ->
  map (fun t => label (stream t)) (update_in i f l) = map (fun t => label (stream t)) l.
Proof.
  intro Hf. unfold update_in. rewrite map_map. apply map_ext. intro t.
  destruct (Nat.eqb _ _); simpl; [apply Hf | reflexivity].
Qed.

(** Going through the channels [l], removing a listener from each and
    pausing it: the channels not named in [l] stay as they are, the
    others end up paused. *)
Lemma pausing_loop (c : Closure) (l : list StreamRef) :
  Forall (fun ch => ref_kind ch = DataChannel) l ->
  forall w,
    let w' := forEach l (fun channel =>
                removeListener (emitter channel) "data" c ;; pause channel) w in
    map (fun t => ident (stream t)) (trackedChannels w')
    = map (fun t => ident (stream t)) (trackedChannels w)
    /\ map (fun t => label (stream t)) (trackedChannels w')
       = map (fun t => label (stream t)) (trackedChannels w)
    /\ trackedMediaTracks w' = trackedMediaTracks w
    /\ (forall t, In t (trackedChannels w') ->
          paused (stream t) = true
          \/ (In t (trackedChannels w) /\ ~ In (ident (stream t)) (map ref_ident l))).
Proof.
  induction 1 as [|ch l Hk Hl IH]; intro w; cbv zeta.
  - simpl. repeat split; try reflexivity. intros t Ht. right. split; [exact Ht | tauto].
  - rewrite forEach_cons.
    set (w1 := (removeListener (emitter ch) "data" c ;; pause ch) w).
    destruct (IH w1) as (Hi & Hlab & Hm & Hp).
    assert (Htc : trackedChannels w1
                  = update_in (ref_ident ch)
                      (fun st => {| ident := ident st; label := label st;
                                    paused := true; piped := piped st |})
                      (trackedChannels w)).
    { unfold w1, andThen, pause. rewrite Hk. reflexivity. }
    assert (Htm : trackedMediaTracks w1 = trackedMediaTracks w).
    { unfold w1, andThen, pause. rewrite Hk. reflexivity. }
    split; [|split; [|split]].
    + rewrite Hi, Htc. now apply update_in_idents.
    + rewrite Hlab, Htc. now apply update_in_labels.
    + now rewrite Hm.
    + intros t Ht. destruct (Hp t Ht) as [Hpaused|[Hin Hnot]]; [now left|].
      rewrite Htc in Hin. unfold update_in in Hin.
      apply in_map_iff in Hin as (t0 & Heq & Hin0).
      destruct (Nat.eqb_spec (ident (stream t0)) (ref_ident ch)) as [Hid|Hid].
      * left. subst t. reflexivity.
      * right. subst t. split; [exact Hin0|]. intros [Habs|Habs]; [congruence|tauto].
Qed.

Lemma tracked_resolve (p : nat) (w : World) :
  trackedChannels (resolve p w) = trackedChannels w
  /\ trackedMediaTracks (resolve p w) = trackedMediaTracks w.
Proof.
  unfold resolve. destruct (pstate p w); [split; reflexivity|]. unfold andThen.
  apply (forEach_preserves (fun w' => trackedChannels w' = trackedChannels w
                                      /\ trackedMediaTracks w' = trackedMediaTracks w)).
  - intros c w' _ H. unfold all_done. destruct (forallb _ _); [|exact H].
    unfold settle. destruct (pstate _ w'); exact H.
  - unfold settle. destruct (pstate p w); split; reflexivity.
Qed.

(** C9. When the [messageReceived] listener of a wait-for-message step
    runs, every channel of the connection's [channels] collection is
    paused afterwards, whatever its label and whether or not the step had
    a listener on it; the collection holds the same channels as before,
    and the media tracks are untouched. *)
Theorem wait_for_message_pauses_every_channel :
  forall (channelLabel : option string) (p : nat) (arg : option StreamRef) (w : World),
    let w' := call (messageReceived channelLabel p) arg w in
    Forall (fun t => paused (stream t) = true) (trackedChannels w')
    /\ map (fun t => ident (stream t)) (trackedChannels w')
       = map (fun t => ident (stream t)) (trackedChannels w)
    /\ map (fun t => label (stream t)) (trackedChannels w')
       = map (fun t => label (stream t)) (trackedChannels w)
    /\ trackedMediaTracks w' = trackedMediaTracks w.
Proof.
  intros channelLabel p arg w w'. unfold w', call, andThen. simpl.
  unfold andThen, forEach_of.
  match goal with
  | |- context [forEach ?l ?f ?w0] =>
      assert (Hk : Forall (fun ch => ref_kind ch = DataChannel) l)
        by (apply Forall_forall; intros ch Hch; unfold channels in Hch;
            apply in_map_iff in Hch as (t & <- & _); reflexivity);
      destruct (pausing_loop (messageReceived channelLabel p) l Hk w0)
        as (Hi & Hlab & Hm & Hp);
      destruct (tracked_resolve p (forEach l f w0)) as (Hrc & Hrm)
  end.
  rewrite Hrc, Hrm. split; [|split; [|split]].
  - apply Forall_forall. intros t Ht.
    destruct (Hp t Ht) as [Hpaused|[Hin Hnot]]; [exact Hpaused|].
    exfalso. apply Hnot. simpl in Hin. unfold channels. simpl.
    rewrite map_map. simpl. apply in_map_iff. exists t. split; [reflexivity | exact Hin].
  - exact Hi.
  - exact Hlab.
  - exact Hm.
Qed.

(** The listener of a step waiting on ["chat"] fires: the ["control"]
    channel, which the step never listened on, is paused as well. *)
Example wait_for_message_pauses_unrelated_channel :
  let w1 := snd (WaitForMessageStep_handle (Some "chat") two_channels_one_track) in
  map (fun t => (label (stream t), paused (stream t))) (trackedChannels w1)
  = [("chat", false); ("control", false)]
  /\ map (fun r => target r) (registrations w1)
     = [connection; on_stream DataChannel 0]
  /\ map (fun t => (label (stream t), paused (stream t)))
       (trackedChannels (step (data_arrives DataChannel 0) w1))
     = [("chat", true); ("control", true)].
Proof. repeat split. Qed.

(* ================================================================== *)
(** * The external connections of a dynamic-proxy step *)

Lemma performs_app (l1 l2 : list Action) (sw : HandlerStep * World) :
  performs (l1 ++ l2) sw = performs l2 (performs l1 sw).
Proof. unfold performs. apply fold_left_app. Qed.

(** C10. Whatever is done with a dynamic-proxy step after its
    construction ([handle], [dispose], events on its connection, in any
    order and number), its [externalConnections] array stays empty, and
    its [dispose] leaves any world as it is: no connection is closed and
    nothing else changes. *)
Theorem dynamic_proxy_owns_no_connection :
  forall (actions : list Action) (w : World),
    let s := fst (performs actions (new_DynamicProxyStep, w)) in
    s = DynamicProxyStep []
    /\ externalConnections_of s = []
    /\ (forall w' : World, dispose s w' = w').
Proof.
  intros actions w.
  assert (H : fst (performs actions (new_DynamicProxyStep, w)) = DynamicProxyStep []).
  { unfold new_DynamicProxyStep. revert w.
    induction actions as [|a actions IH]; intro w; [reflexivity|].
    unfold performs in *. simpl. destruct a; simpl; apply IH. }
  simpl. rewrite H. repeat split.
Qed.

(* ================================================================== *)
(** * Framing: what a step does not own is none of its business *)

Section Ownership.

Variable own : nat -> bool.

Lemma unchanged_refl (w : World) : unchanged own w w.
Proof. repeat split; auto. intro k. apply incl_refl. Qed.

Lemma unchanged_trans (w1 w2 w3 : World) :
  unchanged own w1 w2 -> unchanged own w2 w3 -> unchanged own w1 w3.
Proof.
  intros (Hv1 & Hn1 & Hi1) (Hv2 & Hn2 & Hi2). repeat split.
  - now rewrite Hv2.
  - lia.
  - intro k. eapply incl_tran; [apply Hi1 | apply Hi2].
Qed.

Lemma closed_view (w : World) :
  closed own w <->
  (forall c, In c (v_combinators (view own w)) ->
     own (all_target c) = true /\ forall q, In q (all_elements c) -> own q = true).
Proof.
  unfold closed. simpl. split.
  - intros H c Hc. apply filter_In in Hc as [Hin Ho]. now apply H.
  - intros H c Hin Ho. apply H. apply filter_In. now split.
Qed.

Lemma kept_good (w w' : World) : kept own w w' -> good own w -> good own w'.
Proof.
  intros (Hv & Hn & Hi) (Hc & Hb & Hs). split; [|split].
  - apply closed_view. rewrite Hv. now apply closed_view.
  - intros i Hi'. specialize (Hb i Hi'). lia.
  - intros k i Hin. rewrite Hi in Hin. specialize (Hs k i Hin). lia.
Qed.

Lemma kept_unchanged (w w' : World) : kept own w w' -> unchanged own w w'.
Proof.
  intros (Hv & Hn & Hi). repeat split; auto. intro k. rewrite Hi. apply incl_refl.
Qed.

Lemma Frame_kept (f : Stmt) : (forall w, good own w -> kept own w (f w)) -> Frame own f.
Proof.
  intros H w Hg. split; [eapply kept_good | apply kept_unchanged]; eauto.
Qed.

Lemma Frame_skip : Frame own skip.
Proof. intros w Hg. split; [exact Hg | apply unchanged_refl]. Qed.

Lemma Frame_andThen (f g : Stmt) : Frame own f -> Frame own g -> Frame own (f ;; g).
Proof.
  intros Hf Hg w Hw. unfold andThen.
  destruct (Hf w Hw) as [Hw1 Hu1]. destruct (Hg _ Hw1) as [Hw2 Hu2].
  split; [exact Hw2 | eapply unchanged_trans; eauto].
Qed.

Lemma Frame_forEach_in {A : Type} (l : list A) (f : A -> Stmt) :
  (forall x, In x l -> Frame own (f x)) -> Frame own (forEach l f).
Proof.
  induction l as [|x l IH]; intros Hf w Hw.
  - split; [exact Hw | apply unchanged_refl].
  - rewrite forEach_cons.
    destruct (Hf x (or_introl eq_refl) w Hw) as [Hw1 Hu1].
    destruct (IH (fun y Hy => Hf y (or_intror Hy)) _ Hw1) as [Hw2 Hu2].
    split; [exact Hw2 | eapply unchanged_trans; eauto].
Qed.

Lemma Frame_forEach {A : Type} (l : list A) (f : A -> Stmt) :
  (forall x, Frame own (f x)) -> Frame own (forEach l f).
Proof. intro Hf. apply Frame_forEach_in. intros x _. apply Hf. Qed.

Lemma filter_app_not {A : Type} (f : A -> bool) (l : list A) (x : A) :
  f x = false -> filter f (l ++ [x]) = filter f l.
Proof. intro H. rewrite filter_app. simpl. rewrite H. apply app_nil_r. Qed.

Lemma Frame_log (e : Effect) : owns_call own e = false -> Frame own (log e).
Proof.
  intro H. apply Frame_kept. intros w _. repeat split; auto.
  unfold view. simpl. now rewrite filter_app_not.
Qed.

Lemma Frame_forEach_of (name : string) (coll : World -> list StreamRef)
  (f : StreamRef -> Stmt) :
  (forall x, Frame own (f x)) -> Frame own (forEach_of name coll f).
Proof.
  intros Hf w Hw. unfold forEach_of.
  destruct (Frame_log (Examined name) eq_refl w Hw) as [Hw1 Hu1].
  destruct (Frame_forEach (coll w) f Hf _ Hw1) as [Hw2 Hu2].
  split; [exact Hw2 | eapply unchanged_trans; eauto].
Qed.

Lemma Frame_subscribe (o : bool) (t : Target) (ev : string) (c : Closure) :
  own (owner c) = false -> Frame own (subscribe o t ev c).
Proof.
  intro H. apply Frame_kept. intros w _. repeat split; simpl; auto.
  unfold view. simpl. f_equal.
  - now rewrite filter_app_not.
  - now rewrite filter_app_not.
Qed.

Lemma filter_remove_last {A : Type} (f g : A -> bool) (l : list A) :
  (forall x, g x = true -> f x = false) ->
  filter f (remove_last g l) = filter f l.
Proof.
  intro H. induction l as [|x l IH]; simpl; [reflexivity|].
  destruct (existsb g l).
  - simpl. now rewrite IH.
  - destruct (g x) eqn:Hg; [|reflexivity]. now rewrite (H x Hg).
Qed.

Lemma Frame_removeListener (t : Target) (ev : string) (c : Closure) :
  own (owner c) = false -> Frame own (removeListener t ev c).
Proof.
  intro H. apply Frame_kept. intros w _. repeat split; simpl; auto.
  unfold view. simpl. f_equal.
  - apply filter_remove_last. intros r Hr.
    apply andb_true_iff in Hr as [_ Hr]. apply Closure_eqb_eq in Hr.
    unfold owns_registration. now rewrite Hr.
  - now rewrite filter_app_not.
Qed.

Lemma filter_filter_not {A : Type} (f g : A -> bool) (l : list A) :
  (forall x, g x = false -> f x = false) ->
  filter f (filter g l) = filter f l.
Proof.
  intro H. induction l as [|x l IH]; simpl; [reflexivity|].
  destruct (g x) eqn:Hg; simpl; [now rewrite IH|].
  now rewrite (H x Hg).
Qed.

Lemma Frame_drop (r : Registration) :
  owns_registration own r = false -> Frame own (drop r).
Proof.
  intro H. apply Frame_kept. intros w _. repeat split; simpl; auto.
  unfold view. simpl. f_equal.
  apply filter_filter_not. intros r' Hr'. apply negb_false_iff in Hr'.
  apply Registration_eqb_callback in Hr'. unfold owns_registration in *. now rewrite Hr'.
Qed.

Lemma ids_update_stream (k k' : StreamKind) (i : nat) (f : Stream -> Stream) (w : World) :
  (forall st, ident (f st) = ident st) ->
  ids k' (update_stream k i f w) = ids k' w.
Proof.
  intro Hf. unfold ids. destruct k, k'; simpl; try reflexivity;
    now apply update_in_idents.
Qed.

Lemma Frame_update_stream (k : StreamKind) (i : nat) (f : Stream -> Stream) :
  (forall st, ident (f st) = ident st) -> Frame own (update_stream k i f).
Proof.
  intro Hf. apply Frame_kept. intros w _. split; [|split].
  - now destruct k.
  - now destruct k.
  - intro k'. now apply ids_update_stream.
Qed.

Lemma Frame_pause (s : StreamRef) : Frame own (pause s).
Proof. apply Frame_update_stream. reflexivity. Qed.

Lemma Frame_pipe (s : StreamRef) : Frame own (pipe s).
Proof. apply Frame_update_stream. reflexivity. Qed.

Lemma Frame_resume (k : StreamKind) (i : nat) : Frame own (resume k i).
Proof. apply Frame_update_stream. reflexivity. Qed.

Lemma Frame_settle (q : nat) (s : Settlement) : own q = false -> Frame own (settle q s).
Proof.
  intro H. apply Frame_kept. intros w _. unfold settle.
  destruct (pstate q w); repeat split; simpl; auto.
  unfold view. simpl. f_equal. now rewrite filter_app_not.
Qed.

Lemma watcher_not_owned (q : nat) (c : PromiseAll) (w : World) :
  closed own w -> own q = false -> In c (combinators w) -> watches q c = true ->
  own (all_target c) = false.
Proof.
  intros Hc Hq Hin Hw.
  destruct (owns_combinator own c) eqn:Ho.
  - destruct (Hc c Hin Ho) as [_ He].
    apply existsb_exists in Hw as (x & Hx & Heq). apply Nat.eqb_eq in Heq. subst x.
    rewrite (He q Hx) in Hq. discriminate.
  - unfold owns_combinator in Ho. now apply orb_false_iff in Ho as [Ho _].
Qed.

Lemma Frame_all_done (c : PromiseAll) : own (all_target c) = false -> Frame own (all_done c).
Proof.
  intros H w Hw. unfold all_done.
  destruct (forallb _ _); [now apply Frame_settle | now apply Frame_skip].
Qed.

Lemma Frame_resolve (q : nat) : own q = false -> Frame own (resolve q).
Proof.
  intros H w Hw. unfold resolve. destruct (pstate q w); [now apply Frame_skip|].
  apply Frame_andThen; [now apply Frame_settle | | exact Hw].
  apply Frame_forEach_in. intros c Hc. apply filter_In in Hc as [Hin Hwatch].
  apply Frame_all_done. eapply watcher_not_owned; eauto. apply Hw.
Qed.

Lemma Frame_reject (q : nat) (e : Error) : own q = false -> Frame own (reject q e).
Proof.
  intros H w Hw. unfold reject. destruct (pstate q w); [now apply Frame_skip|].
  apply Frame_andThen; [now apply Frame_settle | | exact Hw].
  apply Frame_forEach_in. intros c Hc. apply filter_In in Hc as [Hin Hwatch].
  apply Frame_settle. eapply watcher_not_owned; eauto. apply Hw.
Qed.

Lemma Frame_settle_or_reject (q : nat) (e : option Error) :
  own q = false -> Frame own (settle_or_reject q e).
Proof. intro H. destruct e; [now apply Frame_reject | now apply Frame_resolve]. Qed.

Lemma Frame_suspend (k : Continuation) :
  owns_continuation own k = false -> Frame own (suspend k).
Proof.
  intro H. apply Frame_kept. intros w _. repeat split; simpl; auto.
  unfold view. simpl. f_equal. now rewrite filter_app_not.
Qed.

Lemma Frame_set_externalConns (f : list RTCConnection -> list RTCConnection) :
  Frame own (set_externalConns f).
Proof. apply Frame_kept. intros w _. repeat split; auto. Qed.

Lemma Frame_set_proxiedTo (f : list nat -> list nat) : Frame own (set_proxiedTo f).
Proof. apply Frame_kept. intros w _. repeat split; auto. Qed.

Lemma Frame_set_next_id : Frame own (set_next_id S).
Proof. apply Frame_kept. intros w _. repeat split; simpl; auto. Qed.

Ltac frame_step H :=
  match goal with
  | |- Frame _ skip => apply Frame_skip
  | |- Frame _ (_ ;; _) => apply Frame_andThen
  | |- Frame _ (forEach_of _ _ _) => apply Frame_forEach_of; intro
  | |- Frame _ (removeListener _ _ _) => apply Frame_removeListener; exact H
  | |- Frame _ (once _ _ _) => apply Frame_subscribe; exact H
  | |- Frame _ (on _ _ _) => apply Frame_subscribe; exact H
  | |- Frame _ (resolve _) => apply Frame_resolve; exact H
  | |- Frame _ (reject _ _) => apply Frame_reject; exact H
  | |- Frame _ (pause _) => apply Frame_pause
  | |- Frame _ (pipe _) => apply Frame_pipe
  | |- Frame _ (suspend _) => apply Frame_suspend; exact H
  | |- Frame _ (setRemoteDescription _ _) => apply Frame_set_externalConns
  | |- Frame _ (proxyTrafficTo _) => apply Frame_set_proxiedTo
  | |- Frame _ (if ?b then _ else _) => destruct b
  | |- Frame _ (match ?a with Some _ => _ | None => _ end) => destruct a
  end.

Lemma Frame_body (c : Closure) (arg : option StreamRef) :
  own (owner c) = false -> Frame own (body c arg).
Proof. intro H. destruct c; simpl in *; repeat frame_step H. Qed.

Lemma Frame_call (c : Closure) (arg : option StreamRef) :
  own (owner c) = false -> Frame own (call c arg).
Proof.
  intro H. unfold call. apply Frame_andThen; [apply Frame_log; exact H | now apply Frame_body].
Qed.

Lemma Frame_invoke (arg : option StreamRef) (r : Registration) :
  owns_registration own r = false -> Frame own (invoke arg r).
Proof.
  intro H. unfold invoke. apply Frame_andThen; [|now apply Frame_call].
  destruct (is_once r); [now apply Frame_drop | apply Frame_skip].
Qed.

(** An emit that reaches no owned listener. *)
Lemma emit_quiet (t : Target) (ev : string) (arg : option StreamRef) (w : World) :
  good own w ->
  (forall r, In r (registrations w) -> owns_registration own r = true ->
             listens t ev r = false) ->
  good own (emit t ev arg w) /\ unchanged own w (emit t ev arg w).
Proof.
  intros Hw Hq. unfold emit. apply Frame_forEach_in; [|exact Hw].
  intros r Hr. apply filter_In in Hr as [Hin Hl]. apply Frame_invoke.
  destruct (owns_registration own r) eqn:Ho; [|reflexivity].
  rewrite (Hq r Hin Ho) in Hl. discriminate.
Qed.

Lemma filter_filter_not_in {A : Type} (f g : A -> bool) (l : list A) :
  (forall x, In x l -> g x = false -> f x = false) ->
  filter f (filter g l) = filter f l.
Proof.
  induction l as [|x l IH]; intro H; simpl; [reflexivity|].
  assert (IH' := IH (fun y Hy => H y (or_intror Hy))).
  destruct (g x) eqn:Hg; simpl; [now rewrite IH'|].
  now rewrite (H x (or_introl eq_refl) Hg).
Qed.

(** A callback of the platform that resumes nothing owned. *)
Lemma take_quiet (sel : Continuation -> bool) (f : Continuation -> Stmt) (w : World) :
  good own w ->
  (forall k, In k (suspended w) -> sel k = true -> owns_continuation own k = false) ->
  (forall k, In k (suspended w) -> sel k = true -> Frame own (f k)) ->
  good own (take sel f w) /\ unchanged own w (take sel f w).
Proof.
  intros Hw Hsel Hf. unfold take.
  set (w1 := set_suspended (filter (fun c => negb (sel c))) w).
  assert (Hk : kept own w w1).
  { repeat split; auto. unfold view. simpl. f_equal.
    apply filter_filter_not_in. intros k Hin Hn. apply negb_false_iff in Hn. auto. }
  assert (Hw1 := kept_good _ _ Hk Hw).
  destruct (Frame_forEach_in (filter sel (suspended w)) f) with (w := w1) as [Hw2 Hu2].
  - intros k Hk'. apply filter_In in Hk' as [Hin Hs]. auto.
  - exact Hw1.
  - split; [exact Hw2|]. eapply unchanged_trans; [apply kept_unchanged, Hk | exact Hu2].
Qed.

Lemma bounded_fresh (w : World) : good own w -> own (next_id w) = false.
Proof.
  intros (_ & Hb & _). destruct (own (next_id w)) eqn:E; [|reflexivity].
  specialize (Hb _ E). lia.
Qed.

Lemma Frame_new_Promise (executor : nat -> Stmt) :
  (forall p, own p = false -> Frame own (executor p)) ->
  Frame own (fun w => snd (new_Promise executor w)).
Proof.
  intros He w Hw. simpl.
  destruct (Frame_set_next_id w Hw) as [Hw1 Hu1].
  destruct (He (next_id w) (bounded_fresh w Hw) _ Hw1) as [Hw2 Hu2].
  split; [exact Hw2 | eapply unchanged_trans; eauto].
Qed.

Lemma new_Promises_frame {A : Type} (l : list A) (executor : A -> nat -> Stmt) :
  (forall x p, own p = false -> Frame own (executor x p)) ->
  forall w, good own w ->
    good own (snd (new_Promises l executor w))
    /\ unchanged own w (snd (new_Promises l executor w))
    /\ Forall (fun q => own q = false) (fst (new_Promises l executor w)).
Proof.
  intro He. induction l as [|x l IH]; intros w Hw; simpl.
  - split; [exact Hw|]. split; [apply unchanged_refl | constructor].
  - destruct (Frame_new_Promise (executor x) (He x) w Hw) as [Hw1 Hu1]. simpl in Hw1, Hu1.
    destruct (IH _ Hw1) as (Hw2 & Hu2 & Hq).
    destruct (new_Promises l executor _) as [qs w2]. simpl in *.
    split; [exact Hw2|]. split; [eapply unchanged_trans; eauto|].
    constructor; [exact (bounded_fresh w Hw) | exact Hq].
Qed.

Lemma existsb_none {A : Type} (f : A -> bool) (l : list A) :
  Forall (fun x => f x = false) l -> existsb f l = false.
Proof. induction 1 as [|x l Hx _ IH]; simpl; [reflexivity | now rewrite Hx, IH]. Qed.

Lemma Frame_Promise_all (elements : list nat) :
  Forall (fun q => own q = false) elements ->
  Frame own (fun w => snd (Promise_all elements w)).
Proof.
  intros He w Hw. unfold Promise_all. simpl.
  assert (Hp := bounded_fresh w Hw).
  set (c := {| all_target := next_id w; all_elements := elements |}).
  set (w2 := set_combinators (fun l => l ++ [c]) (set_next_id S w)).
  assert (Hk : kept own w w2).
  { repeat split; simpl; auto. unfold view. simpl. f_equal.
    apply filter_app_not. unfold owns_combinator. simpl.
    now rewrite Hp, existsb_none. }
  assert (Hw2 := kept_good _ _ Hk Hw).
  assert (Hf : Frame own (match first_rejection elements w2 with
                          | Some e => settle (next_id w) (Rejected e)
                          | None => all_done c
                          end)).
  { destruct (first_rejection elements w2);
      [now apply Frame_settle | now apply Frame_all_done]. }
  destruct (Hf w2 Hw2) as [Hw3 Hu3].
  destruct (first_rejection elements w2);
    (split; [exact Hw3 | eapply unchanged_trans; [apply kept_unchanged, Hk | exact Hu3]]).
Qed.

Lemma Frame_PeerProxyStep_handle_1 getAnswer externalConn p result :
  own p = false -> Frame own (PeerProxyStep_handle_1 getAnswer externalConn p result).
Proof. intro H. destruct result; simpl; repeat frame_step H. Qed.

Lemma Frame_PeerProxyStep_handle_2 externalConn p answer :
  own p = false -> Frame own (PeerProxyStep_handle_2 externalConn p answer).
Proof. intro H. destruct answer; simpl; repeat frame_step H. Qed.

Lemma Frame_DynamicProxyStep_handle_1 p error :
  own p = false -> Frame own (DynamicProxyStep_handle_1 p error).
Proof. intro H. destruct error; simpl; repeat frame_step H. Qed.

(** Starting another step owns fresh promises only. *)
Lemma Frame_handle (s : HandlerStep) : Frame own (fun w => snd (handle s w)).
Proof.
  destruct s; simpl.
  - apply (Frame_new_Promise (fun p => suspend (timer durationMs p))).
    intros p H. repeat frame_step H.
  - apply (Frame_new_Promise (fun p =>
      on connection "remote-channel-open" (channelOpened channelLabel p) ;;
      forEach_of "remoteChannels" remoteChannels (fun channel =>
        call (channelOpened channelLabel p) (Some channel)))).
    intros p H. repeat frame_step H. now apply Frame_call.
  - apply (Frame_new_Promise (fun p =>
      on connection "channel-open" (listenForMessage channelLabel p) ;;
      forEach_of "channels" channels (fun channel =>
        call (listenForMessage channelLabel p) (Some channel)))).
    intros p H. repeat frame_step H. now apply Frame_call.
  - apply (Frame_new_Promise (fun p => fun w1 =>
      let w2 := log (Examined "remoteMediaTracks") w1 in
      if Nat.ltb 0 (List.length (remoteMediaTracks w2)) then resolve p w2
      else once connection "remote-track-open" (trackOpened p) w2)).
    intros p H w Hw. cbv zeta.
    destruct (Frame_log (Examined "remoteMediaTracks") eq_refl w Hw) as [Hw1 Hu1].
    destruct (Nat.ltb 0 _).
    + destruct (Frame_resolve p H _ Hw1) as [Hw2 Hu2].
      split; [exact Hw2 | eapply unchanged_trans; eauto].
    + destruct (Frame_subscribe true connection "remote-track-open" (trackOpened p) H _ Hw1)
        as [Hw2 Hu2].
      split; [exact Hw2 | eapply unchanged_trans; eauto].
  - apply (Frame_new_Promise (fun p =>
      on connection "track-open" (listenForData p) ;;
      forEach_of "mediaTracks" mediaTracks (fun track =>
        call (listenForData p) (Some track)))).
    intros p H. repeat frame_step H. now apply Frame_call.
  - intros w Hw. unfold SendStep_handle.
    destruct (Frame_log (Examined "channels") eq_refl w Hw) as [Hw1 Hu1].
    match goal with
    | |- context [new_Promises ?l ?ex ?w0] =>
        destruct (new_Promises_frame l ex) with (w := w0) as (Hw2 & Hu2 & Hq);
        [ intros x p H; unfold write; repeat frame_step H;
          apply Frame_log; reflexivity
        | exact Hw1
        | destruct (new_Promises l ex w0) as [qs w2] ]
    end.
    simpl in Hw2, Hu2, Hq.
    destruct (Frame_Promise_all qs Hq w2 Hw2) as [Hw3 Hu3].
    split; [exact Hw3|].
    eapply unchanged_trans; [exact Hu1|]. eapply unchanged_trans; eauto.
  - apply (Frame_new_Promise (fun p => suspend (closing p))).
    intros p H. repeat frame_step H.
  - apply (Frame_new_Promise (fun p =>
      on connection "channel-open" (echoContent p) ;;
      on connection "track-open" (echoContent p) ;;
      forEach_of "channels" channels (fun stream => call (echoContent p) (Some stream)) ;;
      forEach_of "mediaTracks" mediaTracks (fun stream => call (echoContent p) (Some stream)) ;;
      on connection "connection-closed" (closedResolve p))).
    intros p H. repeat frame_step H; now apply Frame_call.
  - intros w Hw. unfold PeerProxyStep_handle, new_RTCConnection. simpl.
    destruct (Frame_set_next_id w Hw) as [Hw1 Hu1].
    destruct (Frame_set_externalConns
                (fun l => l ++ [ {| conn_id := next_id w; conn_open := true;
                                    remoteDescription := None |} ]) _ Hw1) as [Hw2 Hu2].
    destruct (Frame_new_Promise
                (fun p => suspend (after_getLocalDescription getAnswer (next_id w) p))) with
      (w := set_externalConns
              (fun l => l ++ [ {| conn_id := next_id w; conn_open := true;
                                  remoteDescription := None |} ]) (set_next_id S w))
      as [Hw3 Hu3].
    + intros p H. repeat frame_step H.
    + exact Hw2.
    + split; [exact Hw3|].
      eapply unchanged_trans; [exact Hu1|].
      eapply unchanged_trans; [exact Hu2 | exact Hu3].
  - apply (Frame_new_Promise (fun p => suspend (after_proxyTrafficToExternalConnection p))).
    intros p H. repeat frame_step H.
Qed.

Lemma owned_registrations_kept (w w' : World) (r : Registration) :
  unchanged own w w' -> In r (registrations w') -> owns_registration own r = true ->
  In r (registrations w).
Proof.
  intros (Hv & _) Hin Ho.
  assert (H : In r (v_registrations (view own w'))) by (apply filter_In; now split).
  rewrite Hv in H. now apply filter_In in H as [H _].
Qed.

Lemma owned_continuations_kept (w w' : World) (k : Continuation) :
  unchanged own w w' -> In k (suspended w') -> owns_continuation own k = true ->
  In k (suspended w).
Proof.
  intros (Hv & _) Hin Ho.
  assert (H : In k (v_suspended (view own w'))) by (apply filter_In; now split).
  rewrite Hv in H. now apply filter_In in H as [H _].
Qed.

(** A newly opened stream: appended, then announced twice. *)
Lemma opens_quiet (k : StreamKind) (label : string) (local : bool) (w : World) :
  good own w ->
  (forall r, In r (registrations w) -> owns_registration own r = true ->
     listens connection
       (match k with DataChannel => "channel-open" | MediaTrack => "track-open" end) r = false
     /\ listens connection
          (match k with
           | DataChannel => if local then "local-channel-open" else "remote-channel-open"
           | MediaTrack => if local then "local-track-open" else "remote-track-open"
           end) r = false) ->
  good own (opens k label local w) /\ unchanged own w (opens k label local w).
Proof.
  intros Hw Hq. unfold opens. simpl.
  set (t := {| stream := {| ident := next_id w; label := label; paused := false;
                            piped := false |}; isLocal := local |}).
  set (w1 := match k with
             | DataChannel => set_trackedChannels (fun l => l ++ [t]) (set_next_id S w)
             | MediaTrack => set_trackedMediaTracks (fun l => l ++ [t]) (set_next_id S w)
             end).
  assert (Hids : forall k', ids k' w1 = ids k' w ++ (if StreamKind_eqb k' k then [next_id w] else [])).
  { intro k'. unfold w1, ids. destruct k, k'; simpl;
      rewrite ?map_app, ?app_nil_r; reflexivity. }
  assert (Hu1 : unchanged own w w1).
  { split; [|split].
    - unfold w1. now destruct k.
    - unfold w1. destruct k; simpl; lia.
    - intro k'. rewrite Hids. now apply incl_appl. }
  assert (Hw1 : good own w1).
  { destruct Hw as (Hc & Hb & Hs). split; [|split].
    - apply closed_view. destruct Hu1 as [-> _]. now apply closed_view.
    - intros i Hi. specialize (Hb i Hi). unfold w1. destruct k; simpl; lia.
    - intros k' i Hin. rewrite Hids in Hin. apply in_app_or in Hin as [Hin|Hin].
      + specialize (Hs k' i Hin). unfold w1. destruct k; simpl; lia.
      + destruct (StreamKind_eqb k' k); [|contradiction].
        destruct Hin as [<-|[]]. unfold w1. destruct k; simpl; lia. }
  assert (Hregs : registrations w1 = registrations w) by (unfold w1; now destruct k).
  destruct k; unfold andThen; fold w1.
  - destruct (emit_quiet connection "channel-open" (Some (ref_of DataChannel t)) w1 Hw1)
      as [Hw2 Hu2].
    { intros r Hin Ho. rewrite Hregs in Hin. apply (Hq r Hin Ho). }
    match goal with
    | |- context [emit connection ?ev ?a (emit _ _ _ w1)] =>
        destruct (emit_quiet connection ev a _ Hw2) as [Hw3 Hu3]
    end.
    { intros r Hin Ho. apply (Hq r); [|exact Ho].
      rewrite <- Hregs. eapply owned_registrations_kept; eauto. }
    split; [exact Hw3|].
    eapply unchanged_trans; [exact Hu1|]. eapply unchanged_trans; eauto.
  - destruct (emit_quiet connection "track-open" (Some (ref_of MediaTrack t)) w1 Hw1)
      as [Hw2 Hu2].
    { intros r Hin Ho. rewrite Hregs in Hin. apply (Hq r Hin Ho). }
    match goal with
    | |- context [emit connection ?ev ?a (emit _ _ _ w1)] =>
        destruct (emit_quiet connection ev a _ Hw2) as [Hw3 Hu3]
    end.
    { intros r Hin Ho. apply (Hq r); [|exact Ho].
      rewrite <- Hregs. eapply owned_registrations_kept; eauto. }
    split; [exact Hw3|].
    eapply unchanged_trans; [exact Hu1|]. eapply unchanged_trans; eauto.
Qed.

Lemma not_owned_when_quiet (e : Event) (w : World) (k : Continuation) :
  quiet own e w -> In k (suspended w) -> resumed_by e k = true ->
  owns_continuation own k = false.
Proof.
  intros [_ Hq] Hin Hr. destruct (owns_continuation own k) eqn:Ho; [|reflexivity].
  rewrite (Hq k Hin Ho) in Hr. discriminate.
Qed.

(** An event that reaches nothing owned leaves the owned part alone. *)
Lemma step_quiet (e : Event) (w : World) :
  good own w -> quiet own e w ->
  good own (step e w) /\ unchanged own w (step e w).
Proof.
  intros Hw Hq. destruct e; simpl.
  - apply opens_quiet; [exact Hw|]. intros r Hin Ho.
    destruct Hq as [Hq _]. specialize (Hq r Hin Ho). simpl in Hq.
    now apply orb_false_iff in Hq.
  - apply opens_quiet; [exact Hw|]. intros r Hin Ho.
    destruct Hq as [Hq _]. specialize (Hq r Hin Ho). simpl in Hq.
    now apply orb_false_iff in Hq.
  - destruct (is_flowing k i w); [|split; [exact Hw | apply unchanged_refl]].
    apply emit_quiet; [exact Hw|]. intros r Hin Ho. destruct Hq as [Hq _].
    exact (Hq r Hin Ho).
  - now apply Frame_resume.
  - apply emit_quiet; [exact Hw|]. intros r Hin Ho. destruct Hq as [Hq _].
    exact (Hq r Hin Ho).
  - apply take_quiet; [exact Hw | |].
    + intros k Hin Hs. apply (not_owned_when_quiet (timer_fires p) w k Hq Hin).
      destruct k; try discriminate. exact Hs.
    + intros k Hin Hs. apply Frame_resolve.
      assert (Ho := not_owned_when_quiet (timer_fires p) w k Hq Hin).
      destruct k; try discriminate. simpl in *. apply Nat.eqb_eq in Hs as <-. exact (Ho (Nat.eqb_refl _)).
  - apply take_quiet; [exact Hw | |].
    + intros k Hin Hs. apply (not_owned_when_quiet (close_returns p error) w k Hq Hin).
      destruct k; try discriminate. exact Hs.
    + intros k Hin Hs. apply Frame_settle_or_reject.
      assert (Ho := not_owned_when_quiet (close_returns p error) w k Hq Hin).
      destruct k; try discriminate. simpl in *. apply Nat.eqb_eq in Hs as <-. exact (Ho (Nat.eqb_refl _)).
  - apply take_quiet; [exact Hw | |].
    + intros k Hin Hs. apply (not_owned_when_quiet (write_returns q error) w k Hq Hin).
      destruct k; try discriminate. exact Hs.
    + intros k Hin Hs. apply Frame_settle_or_reject.
      assert (Ho := not_owned_when_quiet (write_returns q error) w k Hq Hin).
      destruct k; try discriminate. simpl in *. apply Nat.eqb_eq in Hs as <-. exact (Ho (Nat.eqb_refl _)).
  - apply take_quiet; [exact Hw | |].
    + intros k Hin Hs.
      apply (not_owned_when_quiet (localDescription_returns p result) w k Hq Hin).
      destruct k; try discriminate. exact Hs.
    + intros k Hin Hs.
      assert (Ho := not_owned_when_quiet (localDescription_returns p result) w k Hq Hin).
      destruct k; try discriminate. simpl in *. apply Nat.eqb_eq in Hs as <-.
      apply Frame_PeerProxyStep_handle_1. exact (Ho (Nat.eqb_refl _)).
  - apply take_quiet; [exact Hw | |].
    + intros k Hin Hs. apply (not_owned_when_quiet (answer_returns p) w k Hq Hin).
      destruct k as [| | | | x a q|]; try discriminate. exact Hs.
    + intros k Hin Hs.
      assert (Ho := not_owned_when_quiet (answer_returns p) w k Hq Hin).
      destruct k as [| | | | x a q|]; try discriminate. simpl in *.
      apply Frame_PeerProxyStep_handle_2.
      destruct a; try discriminate; apply Nat.eqb_eq in Hs as <-;
        exact (Ho (Nat.eqb_refl _)).
  - apply take_quiet; [exact Hw | |].
    + intros k Hin Hs.
      apply (not_owned_when_quiet (proxy_setup_returns p error) w k Hq Hin).
      destruct k; try discriminate. exact Hs.
    + intros k Hin Hs. apply Frame_DynamicProxyStep_handle_1.
      assert (Ho := not_owned_when_quiet (proxy_setup_returns p error) w k Hq Hin).
      destruct k; try discriminate. simpl in *. apply Nat.eqb_eq in Hs as <-. exact (Ho (Nat.eqb_refl _)).
  - now apply Frame_handle.
Qed.

Lemma idle_quiet (e : Event) (w : World) : idle own w -> quiet own e w.
Proof.
  intros [Hr Hk]. split.
  - intros r Hin Ho.
    assert (H : In r (v_registrations (view own w))) by (apply filter_In; now split).
    rewrite Hr in H. contradiction.
  - intros k Hin Ho.
    assert (H : In k (v_suspended (view own w))) by (apply filter_In; now split).
    rewrite Hk in H. contradiction.
Qed.

Lemma idle_unchanged (w w' : World) : unchanged own w w' -> idle own w -> idle own w'.
Proof. intros (Hv & _) [Hr Hk]. unfold idle. rewrite Hv. now split. Qed.

(** Once a step owns no listener and no continuation, nothing that
    happens later changes what it owns, its promises and the calls of its
    closures included. *)
Lemma run_idle (history : list Event) :
  forall w, good own w -> idle own w ->
    good own (run history w) /\ unchanged own w (run history w).
Proof.
  induction history as [|e h IH]; intros w Hw Hi.
  - split; [exact Hw | apply unchanged_refl].
  - unfold run. rewrite forEach_cons. fold (run h (step e w)).
    destruct (step_quiet e w Hw (idle_quiet e w Hi)) as [Hw1 Hu1].
    destruct (IH _ Hw1 (idle_unchanged _ _ Hu1 Hi)) as [Hw2 Hu2].
    split; [exact Hw2 | eapply unchanged_trans; eauto].
Qed.

Lemma pstate_view (p : nat) (w : World) :
  own p = true -> pstate p w = assoc p (v_settlements (view own w)).
Proof.
  intro Hp. unfold pstate. simpl.
  induction (settlements w) as [|[q s] l IH]; simpl; [reflexivity|].
  unfold owns_settlement at 1. simpl.
  destruct (Nat.eqb_spec q p) as [->|Hne].
  - rewrite Hp. simpl. now rewrite Nat.eqb_refl.
  - destruct (own q); simpl; [|exact IH].
    destruct (Nat.eqb_spec q p); [contradiction | exact IH].
Qed.

Lemma pstate_unchanged (p : nat) (w w' : World) :
  own p = true -> unchanged own w w' -> pstate p w' = pstate p w.
Proof. intros Hp (Hv & _). rewrite !pstate_view by exact Hp. now rewrite Hv. Qed.

End Ownership.

Lemma step_callback (e : Event) :
  is_callback e = true -> step e = take (resumed_by e) (resumption e).
Proof. destruct e; try discriminate; intros _; reflexivity. Qed.

Lemma ids_resolve (k : StreamKind) (q : nat) (w : World) : ids k (resolve q w) = ids k w.
Proof. unfold ids. destruct (tracked_resolve q w). destruct k; simpl; congruence. Qed.

Lemma ids_forEach {A : Type} (k : StreamKind) (l : list A) (f : A -> Stmt) :
  (forall x w, ids k (f x w) = ids k w) ->
  forall w, ids k (forEach l f w) = ids k w.
Proof.
  intros Hf w. apply (forEach_preserves (fun w' => ids k w' = ids k w)); [|reflexivity].
  intros x w' _ H. now rewrite Hf.
Qed.

(** No listener opens or drops a stream. *)
Lemma ids_body (k : StreamKind) (c : Closure) (arg : option StreamRef) (w : World) :
  ids k (body c arg w) = ids k w.
Proof.
  destruct c; simpl;
    repeat match goal with
           | |- context [if ?b then _ else _] => destruct b
           | |- context [match ?x with Some _ => _ | None => _ end] => destruct x
           end;
    unfold andThen, skip, forEach_of;
    rewrite ?ids_resolve; try reflexivity;
    try (rewrite ids_forEach; [reflexivity|]; intros x w';
         unfold pause; now rewrite (ids_update_stream _ k) by reflexivity).
  unfold pipe. now rewrite (ids_update_stream _ k) by reflexivity.
Qed.

Lemma ids_invoke (k : StreamKind) (arg : option StreamRef) (r : Registration) (w : World) :
  ids k (invoke arg r w) = ids k w.
Proof.
  unfold invoke, andThen, call, andThen. rewrite ids_body.
  destruct (is_once r); reflexivity.
Qed.

Section Invariants.

Variable own : nat -> bool.
Variable I : World -> Prop.
Hypothesis I_stable : Stable own I.
Hypothesis I_good : forall w, I w -> good own w.

Lemma Frame_keeps (f : Stmt) (w : World) : Frame own f -> I w -> I (f w).
Proof.
  intros Hf Hw. destruct (Hf w (I_good w Hw)) as [Hg Hu]. eapply I_stable; eauto.
Qed.

(** Listeners run one after the other: those not owned keep [I] anyway. *)
Lemma invoke_each (arg : option StreamRef) (l : list Registration) :
  (forall r w, In r l -> owns_registration own r = true -> I w -> I (invoke arg r w)) ->
  forall w, I w -> I (forEach l (invoke arg) w).
Proof.
  intro Hown. apply forEach_preserves. intros r w Hin Hw.
  destruct (owns_registration own r) eqn:Ho; [now apply Hown|].
  apply Frame_keeps; [now apply Frame_invoke | exact Hw].
Qed.

Lemma emit_each (t : Target) (ev : string) (arg : option StreamRef) (w : World) :
  (forall r w', In r (registrations w) -> listens t ev r = true ->
     owns_registration own r = true -> I w' -> I (invoke arg r w')) ->
  I w -> I (emit t ev arg w).
Proof.
  intros Hown Hw. unfold emit. apply invoke_each; [|exact Hw].
  intros r w' Hin Ho. apply filter_In in Hin as [Hin Hl]. now apply Hown.
Qed.

Lemma opens_each (k : StreamKind) (label : string) (local : bool) (w : World) :
  (forall ev arg r w0 w', In ev (open_events k local) -> I w0 -> In r (registrations w0) ->
     listens connection ev r = true -> owns_registration own r = true ->
     arg = Some {| ref_kind := k; ref_ident := next_id w; ref_label := label |} ->
     In (next_id w) (ids k w') ->
     I w' -> I (invoke arg r w')) ->
  I w -> I (opens k label local w) /\ In (next_id w) (ids k (opens k label local w)).
Proof.
  intros Hown Hw. unfold opens. simpl.
  set (t := {| stream := {| ident := next_id w; label := label; paused := false;
                            piped := false |}; isLocal := local |}).
  set (w1 := match k with
             | DataChannel => set_trackedChannels (fun l => l ++ [t]) (set_next_id S w)
             | MediaTrack => set_trackedMediaTracks (fun l => l ++ [t]) (set_next_id S w)
             end).
  assert (Hids : forall k', ids k' w1
                 = ids k' w ++ (if StreamKind_eqb k' k then [next_id w] else [])).
  { intro k'. unfold w1, ids. destruct k, k'; simpl;
      rewrite ?map_app, ?app_nil_r; reflexivity. }
  assert (Hnew : In (next_id w) (ids k w1)).
  { rewrite Hids. apply in_or_app. right. destruct k; simpl; now left. }
  assert (Happend : I w1).
  { assert (Hu1 : unchanged own w w1).
    { split; [|split].
      - unfold w1. now destruct k.
      - unfold w1. destruct k; simpl; lia.
      - intro k'. rewrite Hids. now apply incl_appl. }
    apply (I_stable w w1 Hw); [|exact Hu1].
    destruct (I_good w Hw) as (Hc & Hb & Hs). split; [|split].
    - apply closed_view. destruct Hu1 as [-> _]. now apply closed_view.
    - intros i Hi. specialize (Hb i Hi). unfold w1. destruct k; simpl; lia.
    - intros k' i Hin. rewrite Hids in Hin. apply in_app_or in Hin as [Hin|Hin].
      + specialize (Hs k' i Hin). unfold w1. destruct k; simpl; lia.
      + destruct (StreamKind_eqb k' k); [|contradiction].
        destruct Hin as [<-|[]]. unfold w1. destruct k; simpl; lia. }
  assert (Hemit : forall ev w0, In ev (open_events k local) ->
            I w0 /\ In (next_id w) (ids k w0) ->
            I (emit connection ev (Some (ref_of k t)) w0)
            /\ In (next_id w) (ids k (emit connection ev (Some (ref_of k t)) w0))).
  { intros ev w0 Hev Hw0. unfold emit.
    apply (forEach_preserves (fun w' => I w' /\ In (next_id w) (ids k w'))); [|exact Hw0].
    intros r w' Hin [Hw' Hn]. apply filter_In in Hin as [Hin Hl].
    destruct (owns_registration own r) eqn:Ho.
    - split; [exact (Hown ev (Some (ref_of k t)) r w0 w' Hev (proj1 Hw0) Hin Hl Ho eq_refl Hn Hw')|].
      rewrite ids_invoke. exact Hn.
    - destruct (Frame_invoke own (Some (ref_of k t)) r Ho w' (I_good w' Hw')) as [Hg Hu].
      split; [eapply I_stable; eauto|]. destruct Hu as (_ & _ & Hi). now apply (Hi k). }
  destruct k; unfold andThen; fold w1;
    (apply Hemit; [simpl; tauto|]; apply Hemit; [simpl; tauto|]; split; assumption).
Qed.

Lemma take_each (sel : Continuation -> bool) (f : Continuation -> Stmt) (w : World) :
  (forall w', I w' -> I (set_suspended (filter (fun c => negb (sel c))) w')) ->
  (forall k w', In k (suspended w) -> sel k = true -> I w' -> I (f k w')) ->
  I w -> I (take sel f w).
Proof.
  intros Hdrop Hf Hw. unfold take. apply forEach_preserves.
  - intros k w' Hin. apply filter_In in Hin as [Hin Hs]. now apply Hf.
  - now apply Hdrop.
Qed.

End Invariants.

(* ================================================================== *)
(** * Statements that only settle promises *)

Lemma Settling_skip : Settling skip.
Proof. intro w. now destruct w. Qed.

Lemma Settling_andThen (f g : Stmt) : Settling f -> Settling g -> Settling (f ;; g).
Proof.
  intros Hf Hg w. unfold andThen. etransitivity; [apply Hg|].
  generalize (settlements (g (f w))). intro l. now rewrite (Hf w).
Qed.

Lemma Settling_forEach {A : Type} (l : list A) (f : A -> Stmt) :
  (forall x, Settling (f x)) -> Settling (forEach l f).
Proof.
  intro Hf. induction l as [|x l IH]; intro w; [now destruct w|].
  rewrite forEach_cons. etransitivity; [apply IH|].
  generalize (settlements (forEach l f (f x w))). intro l'. now rewrite (Hf x w).
Qed.

Lemma Settling_settle (q : nat) (s : Settlement) : Settling (settle q s).
Proof. intro w. unfold settle. destruct (pstate q w); now destruct w. Qed.

Lemma Settling_all_done (c : PromiseAll) : Settling (all_done c).
Proof.
  intro w. unfold all_done. destruct (forallb _ _); [apply Settling_settle | now destruct w].
Qed.

Lemma Settling_resolve (q : nat) : Settling (resolve q).
Proof.
  intro w. unfold resolve. destruct (pstate q w); [now destruct w|].
  apply Settling_andThen; [apply Settling_settle|].
  apply Settling_forEach. intro. apply Settling_all_done.
Qed.

Lemma Settling_reject (q : nat) (e : Error) : Settling (reject q e).
Proof.
  intro w. unfold reject. destruct (pstate q w); [now destruct w|].
  apply Settling_andThen; [apply Settling_settle|].
  apply Settling_forEach. intro. apply Settling_settle.
Qed.

Lemma Settling_settle_or_reject (q : nat) (e : option Error) :
  Settling (settle_or_reject q e).
Proof. destruct e; [apply Settling_reject | apply Settling_resolve]. Qed.

Lemma reject_rejects (p : nat) (e : Error) (w : World) :
  pstate p w = None -> pstate p (reject p e w) = Some (Rejected e).
Proof.
  intro H. unfold reject. rewrite H. unfold andThen.
  apply Monotone_forEach; [intro; apply Monotone_settle|].
  rewrite pstate_settle, H, Nat.eqb_refl. reflexivity.
Qed.


(* ================================================================== *)
(** * Resuming what is not owned *)

Lemma Frame_resumption (own : nat -> bool) (e : Event) (k : Continuation) :
  resumed_by e k = true -> owns_continuation own k = false ->
  Frame own (resumption e k).
Proof.
  intros Hr Ho. destruct e; try discriminate; destruct k; try discriminate;
    simpl in *.
  - apply Nat.eqb_eq in Hr as <-. now apply Frame_resolve.
  - apply Nat.eqb_eq in Hr as <-. now apply Frame_settle_or_reject.
  - apply Nat.eqb_eq in Hr as <-. now apply Frame_settle_or_reject.
  - apply Nat.eqb_eq in Hr as <-. now apply Frame_PeerProxyStep_handle_1.
  - apply Frame_PeerProxyStep_handle_2.
    destruct answer0; try discriminate; now apply Nat.eqb_eq in Hr as <-.
  - apply Nat.eqb_eq in Hr as <-. now apply Frame_DynamicProxyStep_handle_1.
Qed.

Section Steps.

Variable own : nat -> bool.
Variable I : World -> Prop.
Hypothesis I_stable : Stable own I.
Hypothesis I_good : forall w, I w -> good own w.

(** To keep [I] along an event it is enough that the owned listeners the
    event reaches and the owned continuations it resumes keep it. *)
Lemma step_each (e : Event) (w : World) :
  (forall arg r w0 w', I w0 -> In r (registrations w0) -> fires e r = true ->
     owns_registration own r = true -> I w' -> I (invoke arg r w')) ->
  (forall k w', In k (suspended w) -> resumed_by e k = true ->
     owns_continuation own k = true -> I w' -> I (resumption e k w')) ->
  (forall w', I w' -> I (set_suspended (filter (fun c => negb (resumed_by e c))) w')) ->
  I w -> I (step e w).
Proof.
  intros Hreg Hcont Hdrop Hw.
  assert (Hcb : is_callback e = true -> I (step e w)).
  { intro Hc. rewrite (step_callback e Hc).
    apply (take_each I); [exact Hdrop | | exact Hw].
    intros k w' Hin Hs Hw'. destruct (owns_continuation own k) eqn:Ho.
    - now apply Hcont.
    - apply (Frame_keeps own I I_stable I_good); [now apply Frame_resumption | exact Hw']. }
  destruct e; try (apply Hcb; reflexivity); simpl.
  - apply (opens_each own I I_stable I_good); [|exact Hw].
    intros ev arg r w0 w' Hev Hw0 Hin Hl Ho _ _ Hw'.
    apply (Hreg arg r w0 w' Hw0 Hin); [|exact Ho | exact Hw'].
    simpl in *. destruct Hev as [<-|[<-|[]]]; rewrite Hl; auto using orb_true_r.
  - apply (opens_each own I I_stable I_good); [|exact Hw].
    intros ev arg r w0 w' Hev Hw0 Hin Hl Ho _ _ Hw'.
    apply (Hreg arg r w0 w' Hw0 Hin); [|exact Ho | exact Hw'].
    simpl in *. destruct Hev as [<-|[<-|[]]]; rewrite Hl; auto using orb_true_r.
  - destruct (is_flowing k i w); [|exact Hw].
    apply (emit_each own I I_stable I_good); [|exact Hw].
    intros r w' Hin Hl Ho Hw'. now apply (Hreg None r w w').
  - apply (Frame_keeps own I I_stable I_good); [apply Frame_resume | exact Hw].
  - apply (emit_each own I I_stable I_good); [|exact Hw].
    intros r w' Hin Hl Ho Hw'. now apply (Hreg None r w w').
  - apply (Frame_keeps own I I_stable I_good (fun w => snd (handle s w)));
      [apply Frame_handle | exact Hw].
Qed.

End Steps.

(* ================================================================== *)
(** * Echo and proxy steps *)

Lemma only_registration (p : nat) (r : Registration) :
  owns_registration (only p) r = true <-> owner (callback r) = p.
Proof. unfold owns_registration, only. rewrite Nat.eqb_eq. split; congruence. Qed.

Lemma only_continuation (p : nat) (k : Continuation) :
  owns_continuation (only p) k = true <-> awaiter k = p.
Proof. unfold owns_continuation, only. rewrite Nat.eqb_eq. split; congruence. Qed.

Lemma only_self (p : nat) : only p p = true.
Proof. apply Nat.eqb_refl. Qed.

Lemma owned_registration_in_view (own : nat -> bool) (w : World) (r : Registration) :
  In r (v_registrations (view own w)) <->
  In r (registrations w) /\ owns_registration own r = true.
Proof. simpl. apply filter_In. Qed.

Lemma owned_continuation_in_view (own : nat -> bool) (w : World) (k : Continuation) :
  In k (v_suspended (view own w)) <->
  In k (suspended w) /\ owns_continuation own k = true.
Proof. simpl. apply filter_In. Qed.

Lemma perpetual_shape_stable (p : nat) : Stable (only p) (perpetual_shape p).
Proof.
  intros w w' (_ & Hc & Hr & Hk) Hg (Hv & _). unfold perpetual_shape.
  rewrite Hv. auto.
Qed.


Lemma settling_stable (p : nat) : Stable (only p) (settling p).
Proof.
  intros w w' (Hs & Hk & Hp) Hg Hu. split; [eapply perpetual_shape_stable; eauto|].
  rewrite (pstate_unchanged (only p) p w w') by auto using only_self.
  destruct Hu as [-> _]. auto.
Qed.


Lemma negotiating_stable (p : nat) (k : Continuation) : Stable (only p) (negotiating p k).
Proof.
  intros w w' (_ & Hc & Hr & Hk & Hp) Hg Hu. unfold negotiating.
  rewrite (pstate_unchanged (only p) p w w') by auto using only_self.
  destruct Hu as [-> _]. auto.
Qed.

(** Building the shape of a world from that of the world before. *)
Lemma perpetual_shape_next (p : nat) (w w' : World) :
  perpetual_shape p w ->
  combinators w' = combinators w -> next_id w <= next_id w' ->
  (forall k, ids k w' = ids k w) ->
  (forall r, In r (registrations w') -> owner (callback r) = p ->
     In r (registrations w) \/ callback r = echoContent p
     \/ is_close_listener p r = true) ->
  (forall k, In k (suspended w') -> awaiter k = p ->
     In k (suspended w) \/ is_negotiation k = true) ->
  perpetual_shape p w'.
Proof.
  intros ((Hcl & Hb & Hi) & Hc & Hr & Hk) Ecomb Hn Eids Hregs Hsusp.
  split; [|split; [|split]].
  - split; [|split].
    + unfold closed. rewrite Ecomb. exact Hcl.
    + intros i Hi'. specialize (Hb i Hi'). lia.
    + intros k i Hin. rewrite Eids in Hin. specialize (Hi k i Hin). lia.
  - simpl in *. now rewrite Ecomb.
  - apply Forall_forall. intros r Hin.
    apply owned_registration_in_view in Hin as [Hin Ho].
    apply only_registration in Ho.
    destruct (Hregs r Hin Ho) as [Hold|Hnew]; [|exact Hnew].
    rewrite Forall_forall in Hr. apply Hr. apply owned_registration_in_view.
    split; [exact Hold | now apply only_registration].
  - apply Forall_forall. intros k Hin.
    apply owned_continuation_in_view in Hin as [Hin Ho].
    apply only_continuation in Ho.
    destruct (Hsusp k Hin Ho) as [Hold|Hnew]; [|exact Hnew].
    rewrite Forall_forall in Hk. apply Hk. apply owned_continuation_in_view.
    split; [exact Hold | now apply only_continuation].
Qed.

Lemma same_control_refl (w : World) : same_control w w.
Proof. repeat split. Qed.

Lemma same_control_trans (w1 w2 w3 : World) :
  same_control w1 w2 -> same_control w2 w3 -> same_control w1 w3.
Proof.
  intros (A1 & A2 & A3 & A4 & A5 & A6) (B1 & B2 & B3 & B4 & B5 & B6).
  unfold same_control. repeat split; try congruence.
Qed.

Lemma same_control_log (e : Effect) (w : World) : same_control w (log e w).
Proof. repeat split. Qed.

Lemma same_control_update_stream (k : StreamKind) (i : nat) (f : Stream -> Stream)
  (w : World) :
  (forall st, ident (f st) = ident st) -> same_control w (update_stream k i f w).
Proof.
  intro Hf. unfold same_control.
  repeat split; try (now destruct k). intro k'. now apply ids_update_stream.
Qed.

Lemma same_control_forEach {A : Type} (l : list A) (f : A -> Stmt) :
  (forall x w, same_control w (f x w)) -> forall w, same_control w (forEach l f w).
Proof.
  intros Hf w. apply (forEach_preserves (same_control w)); [|apply same_control_refl].
  intros x w' _ H. eapply same_control_trans; [exact H | apply Hf].
Qed.

(** Calling the echo listener only pipes a stream. *)
Lemma same_control_call_echo (p : nat) (arg : option StreamRef) (w : World) :
  same_control w (call (echoContent p) arg w).
Proof.
  unfold call, andThen. simpl. destruct arg as [s|]; [|apply same_control_log].
  eapply same_control_trans; [apply same_control_log|].
  now apply same_control_update_stream.
Qed.

Lemma same_control_forEach_of (name : string) (coll : World -> list StreamRef)
  (f : StreamRef -> Stmt) :
  (forall x w, same_control w (f x w)) -> forall w, same_control w (forEach_of name coll f w).
Proof.
  intros Hf w. unfold forEach_of.
  eapply same_control_trans; [apply same_control_log|]. now apply same_control_forEach.
Qed.

Lemma in_dropped (r x : Registration) (w : World) :
  In x (registrations (drop r w)) -> In x (registrations w).
Proof. simpl. intro H. now apply filter_In in H as [H _]. Qed.

(** What an owned listener of an echo or proxy step does when it runs:
    nothing is added to the listener tables, the suspended calls, the
    [Promise.all]s or the streams. *)
Lemma invoke_perpetual_fields (p : nat) (arg : option StreamRef) (r : Registration)
  (w : World) :
  callback r = echoContent p \/ callback r = closedResolve p ->
  let w' := invoke arg r w in
  next_id w' = next_id w /\ combinators w' = combinators w
  /\ suspended w' = suspended w
  /\ (forall k, ids k w' = ids k w)
  /\ (forall x, In x (registrations w') -> In x (registrations w))
  /\ (forall x, In x (registrations w) -> Registration_eqb x r = false ->
        In x (registrations w'))
  /\ (callback r = echoContent p -> settlements w' = settlements w).
Proof.
  intros Hc w'. unfold w', invoke, andThen.
  set (w0 := (if is_once r then drop r else skip) w).
  assert (H0 : next_id w0 = next_id w /\ combinators w0 = combinators w
               /\ suspended w0 = suspended w /\ settlements w0 = settlements w
               /\ (forall x, In x (registrations w0) -> In x (registrations w))
               /\ (forall x, In x (registrations w) -> Registration_eqb x r = false ->
                     In x (registrations w0))).
  { unfold w0. destruct (is_once r); simpl; repeat split; auto.
    - intros x Hx. now apply filter_In in Hx as [Hx _].
    - intros x Hx Hne. apply filter_In. split; [exact Hx | now rewrite Hne]. }
  destruct H0 as (N0 & C0 & S0 & T0 & R0 & R0').
  split; [|split; [|split; [|split; [|split; [|split]]]]].
  - destruct Hc as [-> | ->].
    + destruct (same_control_call_echo p arg w0) as (-> & _). exact N0.
    + unfold call, andThen. simpl. rewrite (Settling_resolve p). simpl. exact N0.
  - destruct Hc as [-> | ->].
    + destruct (same_control_call_echo p arg w0) as (_ & _ & -> & _). exact C0.
    + unfold call, andThen. simpl. rewrite (Settling_resolve p). simpl. exact C0.
  - destruct Hc as [-> | ->].
    + destruct (same_control_call_echo p arg w0) as (_ & _ & _ & _ & -> & _). exact S0.
    + unfold call, andThen. simpl. rewrite (Settling_resolve p). simpl. exact S0.
  - intro k. fold (invoke arg r w). apply ids_invoke.
  - intros x Hx. apply R0. destruct Hc as [Hc | Hc]; rewrite Hc in Hx.
    + destruct (same_control_call_echo p arg w0) as (_ & _ & _ & E & _).
      now rewrite E in Hx.
    + unfold call, andThen in Hx. simpl in Hx. rewrite (Settling_resolve p) in Hx.
      exact Hx.
  - intros x Hx Hne. specialize (R0' x Hx Hne). destruct Hc as [-> | ->].
    + destruct (same_control_call_echo p arg w0) as (_ & _ & _ & -> & _). exact R0'.
    + unfold call, andThen. simpl. rewrite (Settling_resolve p). exact R0'.
  - intros ->. destruct (same_control_call_echo p arg w0) as (_ & -> & _). exact T0.
Qed.

Lemma close_listener_callback (p : nat) (r : Registration) :
  is_close_listener p r = true -> callback r = closedResolve p.
Proof.
  unfold is_close_listener. intro H. apply andb_true_iff in H as [H _].
  now apply Closure_eqb_eq.
Qed.


Lemma shape_registered (p : nat) (w : World) (r : Registration) :
  perpetual_shape p w -> In r (registrations w) -> owns_registration (only p) r = true ->
  callback r = echoContent p \/ is_close_listener p r = true.
Proof.
  intros (_ & _ & Hr & _) Hin Ho. rewrite Forall_forall in Hr. apply Hr.
  apply owned_registration_in_view. now split.
Qed.


Lemma shape_invoke (p : nat) (arg : option StreamRef) (r : Registration) (w : World) :
  callback r = echoContent p \/ callback r = closedResolve p ->
  perpetual_shape p w -> perpetual_shape p (invoke arg r w).
Proof.
  intros Hc Hs.
  destruct (invoke_perpetual_fields p arg r w Hc) as (N & C & S & Ids & R & _).
  apply (perpetual_shape_next p w); auto.
  - lia.
  - intros k Hk _. left. now rewrite S in Hk.
Qed.

Lemma pstate_invoke_echo (p q : nat) (arg : option StreamRef) (r : Registration)
  (w : World) :
  callback r = echoContent p -> pstate q (invoke arg r w) = pstate q w.
Proof.
  intro Hc. unfold pstate.
  destruct (invoke_perpetual_fields p arg r w (or_introl Hc)) as (_ & _ & _ & _ & _ & _ & T).
  now rewrite (T Hc).
Qed.

Lemma pstate_invoke_close_listener (p : nat) (arg : option StreamRef) (r : Registration)
  (w : World) :
  callback r = closedResolve p ->
  pstate p w = None \/ pstate p w = Some Fulfilled ->
  pstate p (invoke arg r w) = Some Fulfilled.
Proof.
  intros Hc Hp. unfold invoke, andThen, call, andThen. rewrite Hc. simpl.
  apply resolve_fulfils. destruct (is_once r); exact Hp.
Qed.

Lemma shape_drop_continuations (p : nat) (sel : Continuation -> bool) (w : World) :
  perpetual_shape p w -> perpetual_shape p (set_suspended (filter sel) w).
Proof.
  intro Hs. apply (perpetual_shape_next p w); auto.
  intros k Hk _. left. simpl in Hk. now apply filter_In in Hk as [Hk _].
Qed.











Lemma filter_filter_comm {A : Type} (f g : A -> bool) (l : list A) :
  filter f (filter g l) = filter g (filter f l).
Proof.
  induction l as [|x l IH]; simpl; [reflexivity|].
  destruct (g x) eqn:Hg, (f x) eqn:Hf; simpl; rewrite ?Hg, ?Hf, IH; reflexivity.
Qed.

Lemma settling_good (p : nat) (w : World) : settling p w -> good (only p) w.
Proof. intros ((Hg & _) & _). exact Hg. Qed.

Lemma parked_good (p : nat) (w : World) : parked p w -> good (only p) w.
Proof. intros ((Hg & _) & _). exact Hg. Qed.

Lemma parked_settling (p : nat) (w : World) : parked p w -> settling p w.
Proof. intros (Hs & Hk & Hp & _). split; [exact Hs|]. split; [exact Hk | now left]. Qed.


Lemma v_suspended_same (own : nat -> bool) (w w' : World) :
  suspended w' = suspended w -> v_suspended (view own w') = v_suspended (view own w).
Proof. simpl. now intros ->. Qed.

Lemma settling_invoke (p : nat) (arg : option StreamRef) (r : Registration) (w : World) :
  callback r = echoContent p \/ is_close_listener p r = true ->
  settling p w -> settling p (invoke arg r w).
Proof.
  intros Hc (Hs & Hk & Hp).
  assert (Hc' : callback r = echoContent p \/ callback r = closedResolve p).
  { destruct Hc as [Hc|Hc]; [now left | right; now apply close_listener_callback]. }
  destruct (invoke_perpetual_fields p arg r w Hc') as (_ & _ & S & _).
  split; [now apply shape_invoke|]. split.
  - now rewrite (v_suspended_same _ _ _ S).
  - destruct Hc' as [Hecho|Hclose].
    + now rewrite (pstate_invoke_echo p p arg r w Hecho).
    + right. now apply pstate_invoke_close_listener.
Qed.

Lemma nothing_suspended (own : nat -> bool) (w : World) (k : Continuation) :
  v_suspended (view own w) = [] -> In k (suspended w) ->
  owns_continuation own k = true -> False.
Proof.
  intros Hv Hin Ho.
  assert (H : In k (v_suspended (view own w))) by (apply owned_continuation_in_view; now split).
  now rewrite Hv in H.
Qed.

Lemma v_suspended_dropped (own : nat -> bool) (sel : Continuation -> bool) (w : World) :
  v_suspended (view own w) = [] ->
  v_suspended (view own (set_suspended (filter sel) w)) = [].
Proof. simpl. intro H. now rewrite filter_filter_comm, H. Qed.

(** Once nothing of its [handle] is left to run, an echo or proxy step
    stays so, pending or complete, whatever happens. *)
Lemma settling_step (p : nat) (e : Event) (w : World) :
  settling p w -> settling p (step e w).
Proof.
  intro Hw.
  apply (step_each (only p) (settling p) (settling_stable p) (settling_good p));
    [| | |exact Hw].
  - intros arg r w0 w' (Hs0 & _) Hin Hf Ho Hw'.
    apply settling_invoke; [|exact Hw']. exact (shape_registered p w0 r Hs0 Hin Ho).
  - intros k w' Hin Hr Ho _. exfalso.
    destruct Hw as (_ & Hk & _). exact (nothing_suspended _ _ _ Hk Hin Ho).
  - intros w' (Hs' & Hk' & Hp'). split; [now apply shape_drop_continuations|].
    split; [now apply v_suspended_dropped | exact Hp'].
Qed.





(* ------------------------------------------------------------------ *)
(** ** Starting from a well-formed world *)

Lemma filter_none {A : Type} (f : A -> bool) (l : list A) :
  (forall x, In x l -> f x = false) -> filter f l = [].
Proof.
  induction l as [|x l IH]; intro H; simpl; [reflexivity|].
  rewrite (H x (or_introl eq_refl)). apply IH. intros y Hy. apply H. now right.
Qed.

Lemma not_owned_below (own : nat -> bool) (n i : nat) :
  (forall j, own j = true -> n <= j) -> Nat.ltb i n = true -> own i = false.
Proof.
  intros Hown Hlt. apply Nat.ltb_lt in Hlt. destruct (own i) eqn:E; [|reflexivity].
  specialize (Hown i E). lia.
Qed.

(** In a well-formed world nothing belongs to promises that do not exist
    yet. *)
Lemma wf_fresh (own : nat -> bool) (w : World) :
  wf w = true -> (forall i, own i = true -> next_id w <= i) ->
  v_settlements (view own w) = [] /\ v_combinators (view own w) = []
  /\ v_registrations (view own w) = [] /\ v_suspended (view own w) = []
  /\ closed own w /\ ids_bounded w.
Proof.
  unfold wf. intros H Hown.
  apply andb_true_iff in H as [H _]. apply andb_true_iff in H as [H _].
  apply andb_true_iff in H as [H Htr]. apply andb_true_iff in H as [H Hch].
  apply andb_true_iff in H as [H Hk]. apply andb_true_iff in H as [H Hr].
  apply andb_true_iff in H as [Hs Hcb].
  rewrite forallb_forall in Htr, Hch, Hk, Hr, Hs, Hcb.
  assert (Hc : v_combinators (view own w) = []).
  { apply filter_none. intros c Hc. unfold owns_combinator.
    specialize (Hcb c Hc). apply andb_true_iff in Hcb as [Ht He].
    rewrite (not_owned_below own _ _ Hown Ht). simpl.
    apply existsb_none. apply Forall_forall. intros q Hq.
    rewrite forallb_forall in He. exact (not_owned_below own _ _ Hown (He q Hq)). }
  split; [|split; [|split; [|split; [|split]]]].
  - apply filter_none. intros x Hx. exact (not_owned_below own _ _ Hown (Hs x Hx)).
  - exact Hc.
  - apply filter_none. intros x Hx. exact (not_owned_below own _ _ Hown (Hr x Hx)).
  - apply filter_none. intros x Hx. exact (not_owned_below own _ _ Hown (Hk x Hx)).
  - apply closed_view. rewrite Hc. intros c [].
  - intros k i Hi. unfold ids in Hi. apply in_map_iff in Hi as (t & <- & Ht).
    apply Nat.ltb_lt. destruct k; simpl in Ht; auto.
Qed.

(** The world right after a [handle] that owns [own]: what it added to
    the world before is all it owns. *)
Lemma fresh_start (own : nat -> bool) (w w1 : World)
  (regs : list Registration) (conts : list Continuation) :
  wf w = true ->
  (forall i, own i = true -> next_id w <= i /\ i < next_id w1) ->
  settlements w1 = settlements w -> combinators w1 = combinators w ->
  registrations w1 = registrations w ++ regs ->
  suspended w1 = suspended w ++ conts ->
  (forall k, ids k w1 = ids k w) ->
  next_id w <= next_id w1 ->
  good own w1
  /\ v_settlements (view own w1) = []
  /\ v_combinators (view own w1) = []
  /\ v_registrations (view own w1) = filter (owns_registration own) regs
  /\ v_suspended (view own w1) = filter (owns_continuation own) conts.
Proof.
  intros Hwf Hown Es Ec Er Ek Ei Hn.
  destruct (wf_fresh own w Hwf (fun i Hi => proj1 (Hown i Hi)))
    as (Vs & Vc & Vr & Vk & Hcl & Hib).
  split; [split; [|split]|].
  - unfold closed. rewrite Ec. exact Hcl.
  - intros i Hi. apply Hown, Hi.
  - intros k i Hi. rewrite Ei in Hi. specialize (Hib k i Hi). lia.
  - simpl in *. rewrite Es, Ec, Er, Ek, !filter_app, Vs, Vc, Vr, Vk.
    repeat split.
Qed.

Lemma only_bounds (p lo hi : nat) :
  lo <= p -> p < hi -> forall i, only p i = true -> lo <= i /\ i < hi.
Proof. intros Hlo Hhi i Hi. apply Nat.eqb_eq in Hi. subst. now split. Qed.

Lemma fresh_pending (own : nat -> bool) (p : nat) (w : World) :
  own p = true -> v_settlements (view own w) = [] -> pstate p w = None.
Proof. intros Hp Hv. rewrite (pstate_view own p w Hp), Hv. reflexivity. Qed.

(** An echo step is parked on the close of the connection as soon as
    [handle] returns. *)
Lemma EchoStep_parked (w : World) :
  wf w = true ->
  fst (EchoStep_handle w) = next_id w /\ parked (next_id w) (snd (EchoStep_handle w)).
Proof.
  intro Hwf. split; [reflexivity|].
  set (p := next_id w).
  set (wc := (on connection "channel-open" (echoContent p) ;;
              on connection "track-open" (echoContent p)) (set_next_id S w)).
  set (wd := forEach_of "channels" channels
               (fun stream => call (echoContent p) (Some stream)) wc).
  set (we := forEach_of "mediaTracks" mediaTracks
               (fun stream => call (echoContent p) (Some stream)) wd).
  assert (E1 : snd (EchoStep_handle w)
               = on connection "connection-closed" (closedResolve p) we) by reflexivity.
  assert (Hcd : same_control wc wd).
  { apply same_control_forEach_of. intros x w'. apply same_control_call_echo. }
  assert (Hde : same_control wd we).
  { apply same_control_forEach_of. intros x w'. apply same_control_call_echo. }
  destruct (same_control_trans _ _ _ Hcd Hde) as (EN & ES & EC & ER & EK & Ids).
  rewrite E1.
  set (w1 := on connection "connection-closed" (closedResolve p) we).
  destruct (fresh_start (only p) w w1
              [ {| reg_id := S p; target := connection; event := "channel-open";
                   callback := echoContent p; is_once := false |};
                {| reg_id := S (S p); target := connection; event := "track-open";
                   callback := echoContent p; is_once := false |};
                {| reg_id := S (S (S p)); target := connection;
                   event := "connection-closed"; callback := closedResolve p;
                   is_once := false |} ] [] Hwf)
    as (Hg & Vs & Vc & Vr & Vk).
  - apply only_bounds; [lia|]. unfold w1. simpl. rewrite EN. simpl. lia.
  - unfold w1. simpl. rewrite ES. reflexivity.
  - unfold w1. simpl. rewrite EC. reflexivity.
  - unfold w1. simpl. rewrite ER, EN. simpl. rewrite <- !app_assoc. reflexivity.
  - unfold w1. simpl. rewrite EK. simpl. now rewrite app_nil_r.
  - intro k. transitivity (ids k we); [reflexivity|]. now rewrite (Ids k).
  - unfold w1. simpl. rewrite EN. simpl. lia.
  - change (owns_registration (only p))
      with (fun r => Nat.eqb p (owner (callback r))) in Vr.
    cbn [filter owner callback] in Vr. rewrite Nat.eqb_refl in Vr.
    split; [|split; [|split]].
    + split; [exact Hg|]. split; [exact Vc|]. rewrite Vr, Vk. split.
      * constructor; [now left|]. constructor; [now left|].
        constructor; [|constructor]. right. unfold is_close_listener. simpl.
        now rewrite Nat.eqb_refl.
      * constructor.
    + exact Vk.
    + apply (fresh_pending (only p)); [apply only_self | exact Vs].
    + apply existsb_exists. eexists. split.
      * unfold w1. simpl. apply in_or_app. right. left. reflexivity.
      * unfold is_close_listener. simpl. now rewrite Nat.eqb_refl.
Qed.


(** A peer-proxy step is waiting for the local description of its new
    external connection when [handle] returns. *)
Lemma PeerProxyStep_negotiating
  (getAnswer : RTCSessionDescriptionInit -> Eventually RTCSessionDescriptionInit)
  (l : list nat) (w : World) :
  wf w = true ->
  fst (fst (PeerProxyStep_handle getAnswer l w)) = l ++ [next_id w]
  /\ snd (fst (PeerProxyStep_handle getAnswer l w)) = S (next_id w)
  /\ is_open (next_id w) (snd (PeerProxyStep_handle getAnswer l w)) = true
  /\ negotiating (S (next_id w))
       (after_getLocalDescription getAnswer (next_id w) (S (next_id w)))
       (snd (PeerProxyStep_handle getAnswer l w)).
Proof.
  intro Hwf. unfold PeerProxyStep_handle, new_RTCConnection, new_Promise. simpl.
  split; [reflexivity|]. split; [reflexivity|]. split.
  - unfold is_open. simpl. rewrite existsb_app. simpl. rewrite Nat.eqb_refl.
    simpl. apply orb_true_r.
  - match goal with
    | |- negotiating ?p ?k ?w1 =>
        destruct (fresh_start (only p) w w1 [] [k] Hwf) as (Hg & Vs & Vc & Vr & Vk)
    end; try reflexivity.
    + apply only_bounds; simpl; lia.
    + simpl. now rewrite app_nil_r.
    + simpl. lia.
    + change (owns_continuation (only (S (next_id w))))
        with (fun k => Nat.eqb (S (next_id w)) (awaiter k)) in Vk.
      cbn [filter awaiter] in Vk. rewrite Nat.eqb_refl in Vk.
      split; [exact Hg|]. split; [exact Vc|]. split; [exact Vr|]. split; [exact Vk|].
      apply (fresh_pending (only (S (next_id w)))); [apply only_self | exact Vs].
Qed.

(** A dynamic-proxy step is waiting for the connection to set up its
    proxying when [handle] returns. *)
Lemma DynamicProxyStep_negotiating (l : list nat) (w : World) :
  wf w = true ->
  fst (fst (DynamicProxyStep_handle l w)) = l
  /\ snd (fst (DynamicProxyStep_handle l w)) = next_id w
  /\ negotiating (next_id w) (after_proxyTrafficToExternalConnection (next_id w))
       (snd (DynamicProxyStep_handle l w)).
Proof.
  intro Hwf. unfold DynamicProxyStep_handle, new_Promise. simpl.
  split; [reflexivity|]. split; [reflexivity|].
  match goal with
  | |- negotiating ?p ?k ?w1 =>
      destruct (fresh_start (only p) w w1 [] [k] Hwf) as (Hg & Vs & Vc & Vr & Vk)
  end; try reflexivity.
  - apply only_bounds; simpl; lia.
  - simpl. now rewrite app_nil_r.
  - simpl. lia.
  - change (owns_continuation (only (next_id w)))
      with (fun k => Nat.eqb (next_id w) (awaiter k)) in Vk.
    cbn [filter awaiter] in Vk. rewrite Nat.eqb_refl in Vk.
    split; [exact Hg|]. split; [exact Vc|]. split; [exact Vr|]. split; [exact Vk|].
    apply (fresh_pending (only (next_id w))); [apply only_self | exact Vs].
Qed.

(* ------------------------------------------------------------------ *)
(** ** The negotiation of a proxy step *)

Lemma resumed_concerns (e : Event) (k : Continuation) :
  resumed_by e k = true -> concerns (awaiter k) e = true.
Proof.
  destruct e, k; simpl; try discriminate; try (rewrite Nat.eqb_sym; tauto).
  destruct answer0; try discriminate; rewrite Nat.eqb_sym; tauto.
Qed.

Lemma concerns_same (p q : nat) (e : Event) :
  concerns p e = true -> concerns q e = true -> p = q.
Proof.
  destruct e; simpl; try discriminate; intros H1 H2;
    apply Nat.eqb_eq in H1, H2; congruence.
Qed.

Lemma resumed_is_callback (e : Event) (k : Continuation) :
  resumed_by e k = true -> is_callback e = true.
Proof. destruct e; simpl; try reflexivity; destruct k; discriminate. Qed.

Lemma good_next (own : nat -> bool) (w w' : World) :
  good own w -> combinators w' = combinators w -> next_id w <= next_id w' ->
  (forall k, ids k w' = ids k w) -> good own w'.
Proof.
  intros (Hc & Hb & Hi) Ec Hn Ei. split; [|split].
  - unfold closed. now rewrite Ec.
  - intros i Ho. specialize (Hb i Ho). lia.
  - intros k i Hin. rewrite Ei in Hin. specialize (Hi k i Hin). lia.
Qed.

(** Events that are not the awaited callback leave the negotiation where
    it is. *)
Lemma negotiating_step (p : nat) (k : Continuation) (e : Event) (w : World) :
  negotiating p k w -> resumed_by e k = false -> negotiating p k (step e w).
Proof.
  intros Hw Hr. assert (Hn := Hw). destruct Hn as (Hg & Vc & Vr & Vk & Hp).
  destruct (step_quiet (only p) e w Hg) as [Hg' Hu].
  - split.
    + intros r Hin Ho. exfalso.
      assert (H : In r (v_registrations (view (only p) w)))
        by (apply owned_registration_in_view; now split).
      now rewrite Vr in H.
    + intros k' Hin Ho.
      assert (H : In k' (v_suspended (view (only p) w)))
        by (apply owned_continuation_in_view; now split).
      rewrite Vk in H. destruct H as [<-|[]]. exact Hr.
  - exact (negotiating_stable p k w _ Hw Hg' Hu).
Qed.

Lemma negotiating_run (p : nat) (k : Continuation) (history : list Event) :
  awaiter k = p ->
  forallb (fun e => negb (concerns p e)) history = true ->
  forall w, negotiating p k w -> negotiating p k (run history w).
Proof.
  intro Ha. induction history as [|e h IH]; intros Hh w Hw; [exact Hw|].
  simpl in Hh. apply andb_true_iff in Hh as [He Hh].
  unfold run. rewrite forEach_cons. apply IH; [exact Hh|].
  apply negotiating_step; [exact Hw|].
  destruct (resumed_by e k) eqn:Hr; [|reflexivity].
  apply resumed_concerns in Hr. rewrite Ha in Hr. rewrite Hr in He. discriminate.
Qed.

Lemma filter_filter_implies {A : Type} (f g : A -> bool) (l : list A) :
  (forall x, f x = true -> g x = true) -> filter f (filter g l) = filter f l.
Proof.
  intro H. induction l as [|x l IH]; simpl; [reflexivity|].
  destruct (g x) eqn:Hg; simpl; [now rewrite IH|].
  destruct (f x) eqn:Hf; [|exact IH]. rewrite (H x Hf) in Hg. discriminate.
Qed.

(** The awaited callback resumes the one suspended [handle]. *)
Lemma negotiating_resumed (p : nat) (k : Continuation) (e : Event) (w : World) :
  awaiter k = p -> negotiating p k w -> resumed_by e k = true ->
  let w0 := set_suspended (filter (fun c => negb (resumed_by e c))) w in
  step e w = resumption e k w0
  /\ good (only p) w0
  /\ v_combinators (view (only p) w0) = []
  /\ v_registrations (view (only p) w0) = []
  /\ v_suspended (view (only p) w0) = []
  /\ pstate p w0 = None.
Proof.
  intros Ha (Hg & Vc & Vr & Vk & Hp) Hr w0.
  assert (Hsel : filter (resumed_by e) (suspended w) = [k]).
  { rewrite <- (filter_filter_implies (resumed_by e) (owns_continuation (only p))).
    - change (filter (owns_continuation (only p)) (suspended w))
        with (v_suspended (view (only p) w)).
      rewrite Vk. simpl. now rewrite Hr.
    - intros k' Hk'. apply only_continuation.
      apply resumed_concerns in Hk', Hr. rewrite Ha in Hr.
      exact (concerns_same _ _ _ Hk' Hr). }
  split; [|split; [|split; [|split; [|split]]]].
  - rewrite (step_callback e (resumed_is_callback e k Hr)). unfold take.
    rewrite Hsel. reflexivity.
  - apply (good_next (only p) w); auto.
  - exact Vc.
  - exact Vr.
  - unfold w0. simpl. rewrite filter_filter_comm.
    change (filter (owns_continuation (only p)) (suspended w))
      with (v_suspended (view (only p) w)).
    rewrite Vk. simpl. now rewrite Hr.
  - exact Hp.
Qed.

(** The local description is there: the answer is requested. *)
Lemma negotiation_offer (p externalConn : nat)
  (getAnswer : RTCSessionDescriptionInit -> Eventually RTCSessionDescriptionInit)
  (offer : RTCSessionDescriptionInit) (w : World) :
  negotiating p (after_getLocalDescription getAnswer externalConn p) w ->
  negotiating p (after_getAnswer externalConn (getAnswer offer) p)
    (step (localDescription_returns p (inl offer)) w).
Proof.
  intro Hw.
  destruct (negotiating_resumed p (after_getLocalDescription getAnswer externalConn p)
              (localDescription_returns p (inl offer)) w eq_refl Hw)
    as (E & Hg & Vc & Vr & Vk & Hp); [simpl; apply Nat.eqb_refl|].
  rewrite E. simpl.
  set (w0 := set_suspended _ w) in *.
  split; [apply (good_next (only p) w0); auto|]. split; [exact Vc|]. split; [exact Vr|].
  split; [|exact Hp].
  simpl in *. rewrite filter_app, Vk. simpl.
  unfold owns_continuation, only. simpl. now rewrite Nat.eqb_refl.
Qed.

Lemma parked_after_subscribing (p : nat) (w0 w1 : World) :
  good (only p) w0 ->
  v_combinators (view (only p) w0) = [] ->
  v_registrations (view (only p) w0) = [] ->
  v_suspended (view (only p) w0) = [] ->
  pstate p w0 = None ->
  same_control w0 w1 ->
  parked p (on connection "connection-closed" (closedResolve p) w1).
Proof.
  intros Hg Vc Vr Vk Hp (EN & ES & EC & ER & EK & Ids).
  set (w2 := on connection "connection-closed" (closedResolve p) w1).
  assert (Hg2 : good (only p) w2).
  { apply (good_next (only p) w0);
      [ exact Hg | unfold w2; simpl; exact EC | unfold w2; simpl; lia
      | intro k; transitivity (ids k w1); [reflexivity | apply Ids] ]. }
  split; [|split; [|split]].
  - split; [exact Hg2|]. split; [|split].
    + unfold w2. simpl in *. now rewrite EC.
    + unfold w2. simpl in *. rewrite filter_app, ER, Vr. simpl.
      unfold owns_registration, only. simpl. rewrite Nat.eqb_refl.
      constructor; [|constructor]. right. unfold is_close_listener. simpl.
      now rewrite Nat.eqb_refl.
    + unfold w2. simpl in *. rewrite EK, Vk. constructor.
  - unfold w2. simpl in *. now rewrite EK.
  - unfold w2, pstate in *. simpl. now rewrite ES.
  - apply existsb_exists. eexists. split.
    + unfold w2. simpl. apply in_or_app. right. left. reflexivity.
    + unfold is_close_listener. simpl. now rewrite Nat.eqb_refl.
Qed.

(** The answer is there: it is applied, traffic is proxied, and the step
    parks on the close of the connection. *)
Lemma negotiation_answer (p externalConn : nat) (a : RTCSessionDescriptionInit) (w : World) :
  negotiating p (after_getAnswer externalConn (resolves a) p) w ->
  parked p (step (answer_returns p) w).
Proof.
  intro Hw.
  destruct (negotiating_resumed p (after_getAnswer externalConn (resolves a) p)
              (answer_returns p) w eq_refl Hw)
    as (E & Hg & Vc & Vr & Vk & Hp); [simpl; apply Nat.eqb_refl|].
  rewrite E. simpl. unfold andThen.
  eapply parked_after_subscribing; eauto. repeat split.
Qed.

(** The answer source fails: so does [handle], with the same error. *)
Lemma negotiation_rejected (p externalConn : nat) (e : Error) (w : World) :
  negotiating p (after_getAnswer externalConn (rejects e) p) w ->
  pstate p (step (answer_returns p) w) = Some (Rejected e).
Proof.
  intro Hw.
  destruct (negotiating_resumed p (after_getAnswer externalConn (rejects e) p)
              (answer_returns p) w eq_refl Hw)
    as (E & Hg & Vc & Vr & Vk & Hp); [simpl; apply Nat.eqb_refl|].
  rewrite E. simpl. now apply reject_rejects.
Qed.




(* ================================================================== *)
(** * A peer-proxy step whose answer source fails *)

Lemma is_open_close (i d : nat) (w : World) :
  is_open i (close d w) = is_open i w && negb (Nat.eqb i d).
Proof.
  unfold is_open, close, update_conn. simpl.
  induction (externalConns w) as [|c l IH]; simpl; [reflexivity|].
  rewrite IH.
  destruct (Nat.eqb_spec (conn_id c) d) as [Hd|Hd]; simpl;
    destruct (Nat.eqb_spec (conn_id c) i) as [Hi|Hi]; simpl;
    destruct (Nat.eqb_spec i d) as [Hid|Hid]; simpl;
    try congruence;
    destruct (conn_open c); destruct (existsb _ l); reflexivity.
Qed.

(** [dispose] closes every connection of the array, in any world. *)
Lemma dispose_closes (l : list nat) (i : nat) :
  forall w, In i l \/ is_open i w = false -> is_open i (forEach l close w) = false.
Proof.
  induction l as [|d l IH]; intros w H.
  - destruct H as [[]|H]. exact H.
  - rewrite forEach_cons. apply IH. rewrite is_open_close.
    destruct H as [[->|H]|H].
    + right. rewrite Nat.eqb_refl. apply andb_false_r.
    + now left.
    + right. now rewrite H.
Qed.

(** C7. A peer-proxy step is started in a well-formed world; its answer
    source fails with [e] on the offer of the external connection.  The
    external connection was created and recorded in
    [externalConnections] before anything was awaited; once the local
    description and then the failure have come in (with anything else
    happening in between), the promise of [handle] is rejected with [e];
    and [dispose], run on the step in any later world, leaves none of its
    external connections open. *)
Theorem peer_proxy_failure_is_disposable :
  forall (getAnswer : RTCSessionDescriptionInit -> Eventually RTCSessionDescriptionInit)
         (l : list nat) (w : World) (offer : RTCSessionDescriptionInit) (e : Error)
         (h1 h2 : list Event),
    wf w = true ->
    getAnswer offer = rejects e ->
    undisturbed (S (next_id w)) h1 = true ->
    undisturbed (S (next_id w)) h2 = true ->
    let l' := fst (fst (PeerProxyStep_handle getAnswer l w)) in
    let p := snd (fst (PeerProxyStep_handle getAnswer l w)) in
    let w1 := snd (PeerProxyStep_handle getAnswer l w) in
    let externalConn := next_id w in
    let w2 := run (h1 ++ localDescription_returns p (inl offer) :: h2 ++ [answer_returns p])
                w1 in
    is_open externalConn w1 = true
    /\ l' = l ++ [externalConn]
    /\ pstate p w2 = Some (Rejected e)
    /\ (forall w', Forall (fun c => is_open c (dispose (PeerProxyStep getAnswer l') w') = false)
                     l').
Proof.
  intros getAnswer l w offer e h1 h2 Hwf Ha H1 H2 l' p w1 externalConn w2.
  destruct (PeerProxyStep_negotiating getAnswer l w Hwf) as (El & Ep & Hopen & H).
  split; [exact Hopen|]. split; [exact El|]. split.
  - unfold w2. change p with (S (next_id w)). fold w1 in H.
    rewrite run_app. unfold run at 1. rewrite forEach_cons.
    fold (run (h2 ++ [answer_returns (S (next_id w))])).
    rewrite run_app. unfold run at 1. rewrite forEach_cons, forEach_nil.
    apply (negotiation_rejected (S (next_id w)) (next_id w) e).
    apply negotiating_run; [reflexivity | exact H2|].
    rewrite <- Ha. apply negotiation_offer.
    apply negotiating_run; [reflexivity | exact H1 | exact H].
  - intro w''. apply Forall_forall. intros c Hc. simpl.
    apply dispose_closes. now left.
Qed.

Lemma peer_proxy_failure_is_disposable_witness :
  let w1 := snd (PeerProxyStep_handle (fun _ => rejects "no answer") [] new_world) in
  pstate 1 (run ([channel_opens "chat" false]
                 ++ localDescription_returns 1 (inl {| sd_type := "offer"; sdp := "v=0" |})
                 :: [] ++ [answer_returns 1]) w1)
  = Some (Rejected "no answer")
  /\ is_open 0 w1 = true
  /\ is_open 0 (dispose (PeerProxyStep (fun _ => rejects "no answer") [0]) w1) = false.
Proof.
  assert (H := peer_proxy_failure_is_disposable (fun _ => rejects "no answer") [] new_world
            {| sd_type := "offer"; sdp := "v=0" |} "no answer"
            [channel_opens "chat" false] [] eq_refl eq_refl eq_refl eq_refl).
  simpl in H. destruct H as (Ho & _ & Hp & Hd).
  split; [exact Hp|]. split; [exact Ho|].
  specialize (Hd (snd (PeerProxyStep_handle (fun _ => rejects "no answer") [] new_world))).
  now inversion Hd.
Defined.

(* ================================================================== *)
(** * Waiting for the first message or the first media data *)

Lemma filter_singleton_split {A : Type} (f : A -> bool) (l : list A) (r : A) :
  filter f l = [r] ->
  exists l1 l2, l = l1 ++ r :: l2
    /\ (forall x, In x l1 -> f x = false) /\ (forall x, In x l2 -> f x = false).
Proof.
  induction l as [|x l IH]; simpl; intro H; [discriminate|].
  destruct (f x) eqn:Hx.
  - injection H as -> Hl. exists [], l. split; [reflexivity|]. split; [intros y []|].
    intros y Hy. destruct (f y) eqn:Hfy; [|reflexivity].
    assert (Hin : In y (filter f l)) by (apply filter_In; now split).
    now rewrite Hl in Hin.
  - destruct (IH H) as (l1 & l2 & -> & H1 & H2). exists (x :: l1), l2.
    split; [reflexivity|]. split; [|exact H2].
    intros y [<-|Hy]; [exact Hx | now apply H1].
Qed.

Lemma filter_negb_all {A : Type} (f : A -> bool) (l : list A) :
  existsb f l = false -> filter (fun x => negb (f x)) l = l.
Proof.
  induction l as [|x l IH]; simpl; intro H; [reflexivity|].
  apply orb_false_iff in H as [Hx Hl]. rewrite Hx. simpl. now rewrite IH.
Qed.

Lemma existsb_filter_nil {A : Type} (f : A -> bool) (l : list A) :
  filter f l = [] -> existsb f l = false.
Proof.
  induction l as [|x l IH]; simpl; intro H; [reflexivity|].
  destruct (f x); [discriminate|]. now apply IH.
Qed.

(** With at most one entry to remove, removing the last is removing
    all. *)
Lemma remove_last_at_most_one {A : Type} (f : A -> bool) (l : list A) :
  List.length (filter f l) <= 1 -> remove_last f l = filter (fun x => negb (f x)) l.
Proof.
  induction l as [|x l IH]; simpl; intro H; [reflexivity|].
  destruct (f x) eqn:Hx; simpl in *.
  - assert (Hl : filter f l = []) by (destruct (filter f l); [reflexivity | simpl in H; lia]).
    rewrite (existsb_filter_nil f l Hl). symmetry. apply filter_negb_all.
    now apply existsb_filter_nil.
  - rewrite IH by exact H. destruct (existsb f l) eqn:E; [reflexivity|].
    now rewrite filter_negb_all.
Qed.

Lemma pruned_refl (w : World) : pruned w w.
Proof.
  repeat split. exists (fun _ => true).
  induction (registrations w) as [|x l IH]; simpl; [reflexivity | now rewrite <- IH].
Qed.

Lemma filter_filter_and {A : Type} (f g : A -> bool) (l : list A) :
  filter f (filter g l) = filter (fun x => g x && f x) l.
Proof.
  induction l as [|x l IH]; simpl; [reflexivity|].
  destruct (g x); simpl; [destruct (f x); now rewrite IH | exact IH].
Qed.

Lemma pruned_trans (w1 w2 w3 : World) : pruned w1 w2 -> pruned w2 w3 -> pruned w1 w3.
Proof.
  intros (A1 & A2 & A3 & A4 & A5 & (g1 & A6) & A7) (B1 & B2 & B3 & B4 & B5 & (g2 & B6) & B7).
  split; [congruence|]. split; [congruence|]. split; [congruence|].
  split; [congruence|]. split; [intro k; now rewrite B5|]. split.
  - exists (fun x => g1 x && g2 x). now rewrite B6, A6, filter_filter_and.
  - intro own. now rewrite B7.
Qed.

Lemma pruned_forEach {A : Type} (P : World -> Prop) (l : list A) (f : A -> Stmt) :
  (forall x w, In x l -> P w -> pruned w (f x w) /\ P (f x w)) ->
  forall w, P w -> pruned w (forEach l f w) /\ P (forEach l f w).
Proof.
  induction l as [|x l IH]; intros Hf w Hw.
  - split; [apply pruned_refl | exact Hw].
  - rewrite forEach_cons.
    destruct (Hf x w (or_introl eq_refl) Hw) as [H1 HP].
    destruct (IH (fun y w' Hy => Hf y w' (or_intror Hy)) _ HP) as [H2 HP'].
    split; [eapply pruned_trans; eauto | exact HP'].
Qed.

Lemma pruned_in (w w' : World) (r : Registration) :
  pruned w w' -> In r (registrations w') -> In r (registrations w).
Proof.
  intros (_ & _ & _ & _ & _ & (g & E) & _) H. rewrite E in H.
  now apply filter_In in H as [H _].
Qed.

Lemma length_filter_filter {A : Type} (f g : A -> bool) (l : list A) :
  List.length (filter f (filter g l)) <= List.length (filter f l).
Proof.
  induction l as [|x l IH]; simpl; [lia|].
  destruct (g x); simpl; destruct (f x); simpl; lia.
Qed.

Lemma pruned_registered_once (p : nat) (w w' : World) :
  pruned w w' -> registered_once p w -> registered_once p w'.
Proof.
  intros (_ & _ & _ & _ & _ & (g & E) & _) H t ev c Hc. rewrite E.
  eapply Nat.le_trans; [apply length_filter_filter | now apply H].
Qed.

Lemma pruned_log (e : Effect) (w : World) :
  match e with Called _ _ => False | _ => True end -> pruned w (log e w).
Proof.
  intro He. destruct (pruned_refl w) as (A1 & A2 & A3 & A4 & A5 & A6 & A7).
  repeat split; auto. intro own. simpl. rewrite filter_app. simpl.
  destruct e; try contradiction; simpl; apply app_nil_r.
Qed.

Lemma pruned_drop (r : Registration) (w : World) : pruned w (drop r w).
Proof.
  repeat split. eexists. reflexivity.
Qed.

Lemma pruned_update_stream (k : StreamKind) (i : nat) (f : Stream -> Stream) (w : World) :
  (forall st, ident (f st) = ident st) -> pruned w (update_stream k i f w).
Proof.
  intro Hf. destruct (pruned_refl w) as (_ & _ & _ & _ & _ & (g & E) & _).
  split; [now destruct k|]. split; [now destruct k|]. split; [now destruct k|].
  split; [now destruct k|]. split; [intro k'; now apply ids_update_stream|].
  split; [exists g; now destruct k | intro own; now destruct k].
Qed.

(** Removing a listener that is registered at most once. *)
Lemma pruned_removeListener (t : Target) (ev : string) (c : Closure) (w : World) :
  List.length (filter (registered_as t ev c) (registrations w)) <= 1 ->
  pruned w (removeListener t ev c w)
  /\ forall r, In r (registrations (removeListener t ev c w)) ->
               registered_as t ev c r = false.
Proof.
  intro H. unfold removeListener, andThen.
  assert (E : registrations (log (Unsubscribed t ev c)
                (set_registrations (remove_last (registered_as t ev c)) w))
              = filter (fun x => negb (registered_as t ev c x)) (registrations w)).
  { simpl. now apply remove_last_at_most_one. }
  split.
  - repeat split.
    + eexists. exact E.
    + intro own. simpl. rewrite filter_app. simpl. apply app_nil_r.
  - intros r Hr.
    change (In r (registrations (log (Unsubscribed t ev c)
                (set_registrations (remove_last (registered_as t ev c)) w)))) in Hr.
    rewrite E in Hr. apply filter_In in Hr as [_ Hr]. now apply negb_true_iff in Hr.
Qed.

Lemma registered_as_owner (t : Target) (ev : string) (c : Closure) (r : Registration) :
  registered_as t ev c r = true -> callback r = c.
Proof.
  unfold registered_as. intro H. apply andb_true_iff in H as [_ H].
  now apply Closure_eqb_eq.
Qed.

Lemma registered_once_view (p : nat) (w : World) :
  registered_once p w <->
  (forall t ev c, owner c = p ->
     List.length (filter (registered_as t ev c) (v_registrations (view (only p) w))) <= 1).
Proof.
  assert (E : forall t ev c, owner c = p ->
            filter (registered_as t ev c) (v_registrations (view (only p) w))
            = filter (registered_as t ev c) (registrations w)).
  { intros t ev c Hc. simpl. apply filter_filter_implies. intros r Hr.
    apply only_registration. now rewrite (registered_as_owner _ _ _ _ Hr). }
  split; intros H t ev c Hc; [rewrite E by exact Hc | rewrite <- E by exact Hc]; now apply H.
Qed.

Section Emit.

Variable own : nat -> bool.
Variables J K : World -> Prop.
Hypothesis J_stable : Stable own J.
Hypothesis K_stable : Stable own K.
Hypothesis J_good : forall w, J w -> good own w.
Hypothesis K_good : forall w, K w -> good own w.

(** An emit that reaches exactly one owned listener. *)
Lemma invoke_single (arg : option StreamRef) (l : list Registration) (r : Registration) :
  filter (owns_registration own) l = [r] ->
  (forall w, J w -> K (invoke arg r w)) ->
  forall w, J w -> K (forEach l (invoke arg) w).
Proof.
  intros Hl Hr w Hw.
  destruct (filter_singleton_split _ _ _ Hl) as (l1 & l2 & -> & H1 & H2).
  rewrite forEach_app, forEach_cons.
  apply (Frame_keeps own K K_stable K_good).
  - apply Frame_forEach_in. intros x Hx. apply Frame_invoke. now apply H2.
  - apply Hr. apply (Frame_keeps own J J_stable J_good); [|exact Hw].
    apply Frame_forEach_in. intros x Hx. apply Frame_invoke. now apply H1.
Qed.

(** An emit that reaches at most one owned listener: either none, and
    [J] is kept, or one, and it leads from [J] to [K]. *)
Lemma emit_at_most_one (t : Target) (ev : string) (arg : option StreamRef) (w : World) :
  List.length (filter (listens t ev) (v_registrations (view own w))) <= 1 ->
  (forall r w', In r (registrations w) -> listens t ev r = true ->
     owns_registration own r = true -> J w' -> K (invoke arg r w')) ->
  J w -> J (emit t ev arg w) \/ K (emit t ev arg w).
Proof.
  intros Hlen Hr Hw. unfold emit.
  assert (E : filter (owns_registration own) (filter (listens t ev) (registrations w))
              = filter (listens t ev) (v_registrations (view own w))).
  { simpl. apply filter_filter_comm. }
  destruct (filter (listens t ev) (v_registrations (view own w))) as [|r [|r' rest]] eqn:Ev.
  - left. apply (Frame_keeps own J J_stable J_good); [|exact Hw].
    apply Frame_forEach_in. intros x Hx. apply Frame_invoke.
    destruct (owns_registration own x) eqn:Ho; [|reflexivity].
    assert (Hin : In x (filter (owns_registration own)
                          (filter (listens t ev) (registrations w))))
      by (apply filter_In; now split).
    now rewrite E in Hin.
  - right. apply (invoke_single arg _ r E); [|exact Hw].
    assert (Hin : In r (filter (owns_registration own)
                          (filter (listens t ev) (registrations w))))
      by (rewrite E; now left).
    apply filter_In in Hin as [Hin Ho]. apply filter_In in Hin as [Hin Hls].
    intros w' Hw'. now apply Hr.
  - simpl in Hlen. lia.
Qed.

End Emit.

(** What opening a stream does, step by step. *)
Lemma opens_unfold (own : nat -> bool) (k : StreamKind) (label : string) (local : bool)
  (w : World) :
  good own w ->
  exists w1,
    opens k label local w
    = emit connection (nth 1 (open_events k local) "")
        (Some {| ref_kind := k; ref_ident := next_id w; ref_label := label |})
        (emit connection (open_event k)
           (Some {| ref_kind := k; ref_ident := next_id w; ref_label := label |}) w1)
    /\ good own w1 /\ unchanged own w w1
    /\ registrations w1 = registrations w
    /\ ids k w1 = ids k w ++ [next_id w].
Proof.
  intro Hw. unfold opens. simpl.
  set (t := {| stream := {| ident := next_id w; label := label; paused := false;
                            piped := false |}; isLocal := local |}).
  exists (match k with
          | DataChannel => set_trackedChannels (fun l => l ++ [t]) (set_next_id S w)
          | MediaTrack => set_trackedMediaTracks (fun l => l ++ [t]) (set_next_id S w)
          end).
  set (w1 := match k with
             | DataChannel => set_trackedChannels (fun l => l ++ [t]) (set_next_id S w)
             | MediaTrack => set_trackedMediaTracks (fun l => l ++ [t]) (set_next_id S w)
             end).
  assert (Hids : forall k', ids k' w1
                 = ids k' w ++ (if StreamKind_eqb k' k then [next_id w] else [])).
  { intro k'. unfold w1, ids. destruct k, k'; simpl;
      rewrite ?map_app, ?app_nil_r; reflexivity. }
  assert (Hu1 : unchanged own w w1).
  { split; [|split].
    - unfold w1. now destruct k.
    - unfold w1. destruct k; simpl; lia.
    - intro k'. rewrite Hids. now apply incl_appl. }
  split; [now destruct k|]. split; [|split; [exact Hu1|split]].
  - destruct Hw as (Hc & Hb & Hs). split; [|split].
    + apply closed_view. destruct Hu1 as [-> _]. now apply closed_view.
    + intros i Hi. specialize (Hb i Hi). unfold w1. destruct k; simpl; lia.
    + intros k' i Hin. rewrite Hids in Hin. apply in_app_or in Hin as [Hin|Hin].
      * specialize (Hs k' i Hin). unfold w1. destruct k; simpl; lia.
      * destruct (StreamKind_eqb k' k); [|contradiction].
        destruct Hin as [<-|[]]. unfold w1. destruct k; simpl; lia.
  - unfold w1. now destruct k.
  - rewrite Hids. now destruct k.
Qed.

Lemma Target_eqb_refl (t : Target) : Target_eqb t t = true.
Proof. destruct t as [|k i]; simpl; [reflexivity|]. rewrite Nat.eqb_refl. now destruct k. Qed.

Lemma Target_eqb_eq (a b : Target) : Target_eqb a b = true -> a = b.
Proof.
  destruct a as [|k i], b as [|k' i']; simpl; try discriminate; try reflexivity.
  intro H. apply andb_true_iff in H as [Hk Hi]. apply Nat.eqb_eq in Hi.
  destruct k, k'; try discriminate; now subst.
Qed.

Lemma listens_iff (t : Target) (ev : string) (r : Registration) :
  listens t ev r = true <-> target r = t /\ event r = ev.
Proof.
  unfold listens. rewrite andb_true_iff, String.eqb_eq. split.
  - intros [Ht He]. split; [now apply Target_eqb_eq | exact He].
  - intros [<- <-]. split; [apply Target_eqb_refl | reflexivity].
Qed.

Lemma registered_as_iff (t : Target) (ev : string) (c : Closure) (r : Registration) :
  registered_as t ev c r = true <-> target r = t /\ event r = ev /\ callback r = c.
Proof.
  unfold registered_as. rewrite andb_true_iff, listens_iff, Closure_eqb_eq. tauto.
Qed.

Lemma tracked_stream (k : StreamKind) (i : nat) (w : World) :
  In i (ids k w) -> exists s, In s (streams_of k w) /\ emitter s = on_stream k i.
Proof.
  unfold ids, streams_of. intro H. apply in_map_iff in H as (t & <- & Ht).
  exists (ref_of k t). split; [now apply in_map | reflexivity].
Qed.

Lemma streams_of_kind (k : StreamKind) (w : World) (s : StreamRef) :
  In s (streams_of k w) -> ref_kind s = k /\ In (ref_ident s) (ids k w).
Proof.
  unfold streams_of, ids. intro H. apply in_map_iff in H as (t & <- & Ht).
  split; [reflexivity|]. simpl. apply in_map_iff. now exists t.
Qed.

Section Watch.

Variables (p : nat) (k : StreamKind) (L D : Closure) (name : string).
Variable F : option StreamRef -> bool.
Hypothesis L_owner : owner L = p.
Hypothesis D_owner : owner D = p.
Hypothesis L_not_D : L <> D.
Hypothesis body_L : forall arg,
  body L arg = match arg with
               | Some s => if F arg then once (emitter s) "data" D else skip
               | None => skip
               end.
Hypothesis body_D : forall arg,
  body D arg = (removeListener connection (open_event k) L ;;
                forEach_of name (streams_of k) (fun s =>
                  removeListener (emitter s) "data" D ;; pause s) ;;
                resolve p).

Lemma watching_stable (n : nat) : Stable (only p) (watching p k L D n).
Proof.
  intros w w' (Hg & Vc & Vk & Hp & Hs & Ho & Hn) Hg' Hu.
  assert (Hv := proj1 Hu). unfold watching. rewrite Hv.
  rewrite (pstate_unchanged (only p) p w w') by auto using only_self.
  split; [exact Hg'|]. split; [exact Vc|]. split; [exact Vk|]. split; [exact Hp|].
  split; [|split; [exact Ho | exact Hn]].
  eapply Forall_impl; [|exact Hs]. intros r [H|(Hc & He & i & Ht & Hi)]; [now left|].
  right. split; [exact Hc|]. split; [exact He|]. exists i. split; [exact Ht|].
  destruct Hu as (_ & _ & Hincl). now apply (Hincl k).
Qed.

Lemma fired_stable (n : nat) : Stable (only p) (fired p D n).
Proof.
  intros w w' (Hg & Vc & Hi & Hp & Hn) Hg' Hu.
  assert (Hv := proj1 Hu). unfold fired, idle. rewrite Hv.
  rewrite (pstate_unchanged (only p) p w w') by auto using only_self.
  split; [exact Hg'|]. split; [exact Vc|]. split; [exact Hi|]. split; [exact Hp | exact Hn].
Qed.

Lemma watching_good (n : nat) (w : World) : watching p k L D n w -> good (only p) w.
Proof. now intros (Hg & _). Qed.

Lemma fired_good (n : nat) (w : World) : fired p D n w -> good (only p) w.
Proof. now intros (Hg & _). Qed.

(** After it has fired, nothing that happens changes what the step
    owns. *)
Lemma fired_step (n : nat) (e : Event) (w : World) :
  fired p D n w -> fired p D n (step e w).
Proof.
  intro Hw. assert (H := Hw). destruct H as (Hg & _ & Hi & _).
  destruct (step_quiet (only p) e w Hg (idle_quiet (only p) e w Hi)) as [Hg' Hu].
  exact (fired_stable n w _ Hw Hg' Hu).
Qed.

Lemma watching_registered_once (n : nat) (w : World) :
  watching p k L D n w -> registered_once p w.
Proof. intros (_ & _ & _ & _ & _ & Ho & _). now apply registered_once_view. Qed.

Lemma watching_shape (n : nat) (w : World) (r : Registration) :
  watching p k L D n w -> In r (registrations w) -> owner (callback r) = p ->
  watch_shape k L D w r.
Proof.
  intros (_ & _ & _ & _ & Hs & _) Hin Ho. rewrite Forall_forall in Hs. apply Hs.
  apply owned_registration_in_view. split; [exact Hin | now apply only_registration].
Qed.

Lemma Forall_filter {A : Type} (P : A -> Prop) (g : A -> bool) (l : list A) :
  Forall P l -> Forall P (filter g l).
Proof.
  intro H. apply Forall_forall. intros x Hx. apply filter_In in Hx as [Hx _].
  rewrite Forall_forall in H. now apply H.
Qed.

(** Removing listeners keeps the step waiting. *)
Lemma watching_pruned (n : nat) (w w' : World) :
  pruned w w' -> watching p k L D n w -> watching p k L D n w'.
Proof.
  intros Hpr (Hg & Vc & Vk & Hp & Hs & Ho & Hn).
  assert (Hpr' := Hpr).
  destruct Hpr' as (EN & ES & EC & EK & Ids & (g & ER) & Ecalls).
  assert (Hv : v_registrations (view (only p) w')
               = filter g (v_registrations (view (only p) w))).
  { simpl. rewrite ER. apply filter_filter_comm. }
  split; [apply (good_next (only p) w); auto; lia|].
  split; [simpl in *; now rewrite EC|]. split; [simpl in *; now rewrite EK|].
  split; [unfold pstate in *; now rewrite ES|]. split; [|split].
  - rewrite Hv. apply Forall_filter. eapply Forall_impl; [|exact Hs].
    intros r [H|(Hc & He & i & Ht & Hi)]; [now left|].
    right. split; [exact Hc|]. split; [exact He|]. exists i. split; [exact Ht|].
    now rewrite Ids.
  - apply registered_once_view. eapply pruned_registered_once; [exact Hpr|].
    now apply registered_once_view.
  - now rewrite Ecalls.
Qed.

(** The data listener is taken off every stream of the list. *)
Lemma unsubscribe_loop (l : list StreamRef) :
  forall w1, registered_once p w1 ->
    let w2 := forEach l (fun s => removeListener (emitter s) "data" D ;; pause s) w1 in
    pruned w1 w2
    /\ forall s r, In s l -> In r (registrations w2) ->
         registered_as (emitter s) "data" D r = false.
Proof.
  induction l as [|s l IH]; intros w1 Ho; cbv zeta.
  - split; [apply pruned_refl | intros s r []].
  - rewrite forEach_cons. unfold andThen at 2.
    destruct (pruned_removeListener (emitter s) "data" D w1 (Ho _ _ _ D_owner)) as [P1 A1].
    assert (P2 : pruned w1 (pause s (removeListener (emitter s) "data" D w1))).
    { eapply pruned_trans; [exact P1|]. now apply pruned_update_stream. }
    destruct (IH _ (pruned_registered_once p _ _ P2 Ho)) as [P3 A3].
    split; [eapply pruned_trans; eauto|].
    intros s' r [<-|Hs'] Hr; [|now apply (A3 s' r)].
    apply A1. apply (pruned_in _ _ r P3) in Hr.
    unfold pause in Hr. destruct (ref_kind s); exact Hr.
Qed.

(** The data listener runs: the step removes all its listeners and
    completes. *)
Lemma data_listener_fires (n : nat) (arg : option StreamRef) (r : Registration)
  (w : World) :
  callback r = D -> watching p k L D n w -> fired p D n (invoke arg r w).
Proof.
  intros Hc Hw. assert (Hwatch := Hw).
  destruct Hw as (Hg & Vc & Vk & Hp & Hs & Ho & Hn).
  unfold invoke, andThen, call, andThen. rewrite Hc, body_D. unfold andThen, forEach_of.
  set (wa := (if is_once r then drop r else skip) w).
  assert (Pa : pruned w wa).
  { unfold wa. destruct (is_once r); [apply pruned_drop | apply pruned_refl]. }
  set (wb := log (Called D arg) wa).
  assert (Oa : registered_once p wb).
  { apply (pruned_registered_once p w wa Pa). now apply registered_once_view. }
  destruct (pruned_removeListener connection (open_event k) L wb (Oa _ _ _ L_owner))
    as [Pc Ac].
  set (wc := removeListener connection (open_event k) L wb) in *.
  assert (Pc' : pruned wb (log (Examined name) wc)).
  { eapply pruned_trans; [exact Pc|]. now apply pruned_log. }
  destruct (unsubscribe_loop (streams_of k wc) (log (Examined name) wc)
              (pruned_registered_once p _ _ Pc' Oa)) as [Pd Ad].
  set (wd := forEach (streams_of k wc)
               (fun s => removeListener (emitter s) "data" D ;; pause s)
               (log (Examined name) wc)) in *.
  assert (Pbd : pruned wb wd) by (eapply pruned_trans; eauto).
  destruct Pa as (AN & AS & AC & AK & AI & _ & Acalls).
  assert (Hpd := Pbd). destruct Hpd as (BN & BS & BC & BK & BI & _ & Bcalls).
  change (fired p D n (resolve p wd)).
  rewrite (Settling_resolve p wd).
  assert (Hnone : forall x, In x (registrations wd) -> owns_registration (only p) x = false).
  { intros x Hx. destruct (owns_registration (only p) x) eqn:Hown; [|reflexivity].
    exfalso. apply only_registration in Hown.
    assert (Hxc : In x (registrations wc)).
    { apply (pruned_in (log (Examined name) wc) wd x Pd Hx). }
    assert (Hxw : In x (registrations w)).
    { apply (pruned_in wb wd x Pbd) in Hx.
      change (In x (registrations wa)) in Hx. unfold wa in Hx.
      destruct (is_once r); [now apply in_dropped in Hx | exact Hx]. }
    destruct (watching_shape n w x Hwatch Hxw Hown)
      as [(Hcb & Ht & He)|(Hcb & He & i & Ht & Hi)].
    - assert (E : registered_as connection (open_event k) L x = true)
        by (apply registered_as_iff; auto).
      rewrite (Ac x Hxc) in E. discriminate.
    - assert (Hi' : In i (ids k wc)).
      { destruct Pc as (_ & _ & _ & _ & Ci & _). rewrite Ci.
        change (ids k wb) with (ids k wa). now rewrite AI. }
      destruct (tracked_stream k i wc Hi') as (s & Hs' & Es).
      assert (E : registered_as (emitter s) "data" D x = true)
        by (apply registered_as_iff; rewrite Es; auto).
      rewrite (Ad s x Hs' Hx) in E. discriminate. }
  split; [|split; [|split; [|split]]].
  - apply (good_next (only p) w);
      [ exact Hg
      | change (combinators wd = combinators w); rewrite BC;
        change (combinators wb) with (combinators wa); exact AC
      | change (next_id w <= next_id wd); rewrite BN;
        change (next_id wb) with (next_id wa); lia
      | intro k'; change (ids k' wd = ids k' w); rewrite BI;
        change (ids k' wb) with (ids k' wa); apply AI ].
  - change (filter (owns_combinator (only p)) (combinators wd) = []).
    rewrite BC. change (combinators wb) with (combinators wa). rewrite AC. exact Vc.
  - split.
    + change (filter (owns_registration (only p)) (registrations wd) = []).
      now apply filter_none.
    + change (filter (owns_continuation (only p)) (suspended wd) = []).
      rewrite BK. change (suspended wb) with (suspended wa). rewrite AK. exact Vk.
  - rewrite <- (Settling_resolve p wd). apply resolve_fulfils. left.
    unfold pstate in *. rewrite BS. change (settlements wb) with (settlements wa).
    now rewrite AS.
  - change (v_calls (view (only p) (set_settlements
              (fun _ => settlements (resolve p wd)) wd)))
      with (v_calls (view (only p) wd)).
    rewrite Bcalls. simpl. rewrite filter_app. simpl.
    unfold only at 2. rewrite D_owner, Nat.eqb_refl.
    change (filter (owns_call (only p)) (trace wa)) with (v_calls (view (only p) wa)).
    rewrite Acalls, filter_app, length_app, Hn. simpl.
    rewrite Closure_eqb_refl. simpl. lia.
Qed.

Lemma calls_after_log (e : Effect) (w : World) :
  is_call_of D e = false ->
  List.length (filter (is_call_of D) (v_calls (view (only p) (log e w))))
  = List.length (filter (is_call_of D) (v_calls (view (only p) w))).
Proof.
  intro He. simpl. rewrite filter_app, filter_app, length_app. simpl.
  destruct (owns_call (only p) e); simpl; [rewrite He|]; simpl; lia.
Qed.

Lemma L_is_not_D : Closure_eqb L D = false.
Proof.
  destruct (Closure_eqb L D) eqn:E; [|reflexivity].
  apply Closure_eqb_eq in E. contradiction.
Qed.

(** The listener for new streams is called on a stream the step does not
    watch yet. *)
Lemma open_listener_call (n : nat) (s : StreamRef) (w : World) :
  ref_kind s = k -> In (ref_ident s) (ids k w) -> unwatched p k (ref_ident s) w ->
  watching p k L D n w ->
  watching p k L D n (call L (Some s) w)
  /\ (forall j, j <> ref_ident s -> unwatched p k j w ->
        unwatched p k j (call L (Some s) w))
  /\ (forall k', ids k' (call L (Some s) w) = ids k' w).
Proof.
  intros Hk Hi Hu Hw. unfold call, andThen. rewrite body_L.
  set (wl := log (Called L (Some s)) w).
  assert (Hwl : watching p k L D n wl).
  { destruct Hw as (Hg & Vc & Vk & Hp & Hs & Ho & Hn).
    split; [apply (good_next (only p) w); auto|].
    split; [exact Vc|]. split; [exact Vk|]. split; [exact Hp|].
    split; [exact Hs|]. split; [exact Ho|].
    unfold wl. rewrite calls_after_log; [exact Hn | simpl; apply L_is_not_D]. }
  destruct (F (Some s)).
  - set (rD := {| reg_id := next_id wl; target := emitter s; event := "data";
                  callback := D; is_once := true |}).
    assert (Eregs : registrations (once (emitter s) "data" D wl) = registrations w ++ [rD])
      by reflexivity.
    assert (Ev : v_registrations (view (only p) (once (emitter s) "data" D wl))
                 = v_registrations (view (only p) w) ++ [rD]).
    { simpl. rewrite filter_app. simpl. unfold owns_registration at 2. simpl.
      unfold only. now rewrite D_owner, Nat.eqb_refl. }
    assert (Et : emitter s = on_stream k (ref_ident s)) by (unfold emitter; now rewrite Hk).
    split; [|split].
    + destruct Hwl as (Hg & Vc & Vk & Hp & Hs & Ho & Hn).
      split; [apply (good_next (only p) wl); auto; simpl; lia|].
      split; [exact Vc|]. split; [exact Vk|]. split; [exact Hp|].
      split; [|split].
      * rewrite Ev. apply Forall_app. split; [exact Hs|].
        constructor; [|constructor]. right. split; [reflexivity|]. split; [reflexivity|].
        exists (ref_ident s). split; [exact Et | exact Hi].
      * intros t ev c Hc. rewrite Ev, filter_app, length_app.
        specialize (Ho t ev c Hc).
        change (v_registrations (view (only p) wl))
          with (v_registrations (view (only p) w)) in Ho.
        cbn [filter].
        destruct (registered_as t ev c rD) eqn:Hr; cbn [List.length]; [|lia].
        apply registered_as_iff in Hr as (Ht & _ & _). simpl in Ht.
        assert (Hnil : filter (registered_as t ev c) (v_registrations (view (only p) w)) = []).
        { apply filter_none. intros x Hx.
          destruct (registered_as t ev c x) eqn:Hxr; [|reflexivity]. exfalso.
          apply owned_registration_in_view in Hx as [Hx Hxo].
          apply only_registration in Hxo.
          apply registered_as_iff in Hxr as (Hxt & _ & _).
          apply (Hu x Hx Hxo). congruence. }
        rewrite Hnil. simpl. lia.
      * change (v_calls (view (only p) (once (emitter s) "data" D wl)))
          with (v_calls (view (only p) (log (Subscribed (emitter s) "data" D true) wl))).
        rewrite calls_after_log; [exact Hn | reflexivity].
    + intros j Hj Huj r Hr Ho. rewrite Eregs in Hr.
      apply in_app_or in Hr as [Hr|[<-|[]]]; [now apply Huj|].
      simpl. rewrite Et. intro E. injection E as E. congruence.
    + intro k'. reflexivity.
  - split; [exact Hwl|]. split; [|intro k'; reflexivity].
    intros j Hj Huj r Hr Ho. now apply Huj.
Qed.

Lemma unwatched_pruned (i : nat) (w w' : World) :
  pruned w w' -> unwatched p k i w -> unwatched p k i w'.
Proof. intros Hp Hu r Hr Ho. apply Hu; [|exact Ho]. eapply pruned_in; eauto. Qed.

(** The same, for the registered listener. *)
Lemma open_listener_invoke (n : nat) (s : StreamRef) (r : Registration) (w : World) :
  callback r = L ->
  ref_kind s = k -> In (ref_ident s) (ids k w) -> unwatched p k (ref_ident s) w ->
  watching p k L D n w ->
  watching p k L D n (invoke (Some s) r w).
Proof.
  intros Hc Hk Hi Hu Hw. unfold invoke, andThen. rewrite Hc.
  set (wa := (if is_once r then drop r else skip) w).
  assert (Pa : pruned w wa).
  { unfold wa. destruct (is_once r); [apply pruned_drop | apply pruned_refl]. }
  apply open_listener_call; auto.
  - destruct Pa as (_ & _ & _ & _ & Ia & _). now rewrite Ia.
  - now apply (unwatched_pruned _ w).
  - now apply (watching_pruned n w).
Qed.

Lemma owned_listens_open (n : nat) (w : World) (ev : string) :
  watching p k L D n w ->
  forall r, In r (v_registrations (view (only p) w)) ->
    listens connection ev r = registered_as connection ev L r.
Proof.
  intros Hw r Hr. apply owned_registration_in_view in Hr as [Hin Ho].
  apply only_registration in Ho.
  unfold registered_as.
  destruct (watching_shape n w r Hw Hin Ho) as [(Hc & _)|(_ & _ & i & Ht & _)].
  - rewrite Hc, Closure_eqb_refl. now rewrite andb_true_r.
  - unfold listens. rewrite Ht. reflexivity.
Qed.

Lemma owned_listens_data (n : nat) (w : World) (k' : StreamKind) (i : nat) :
  watching p k L D n w ->
  forall r, In r (v_registrations (view (only p) w)) ->
    listens (on_stream k' i) "data" r = registered_as (on_stream k' i) "data" D r.
Proof.
  intros Hw r Hr. apply owned_registration_in_view in Hr as [Hin Ho].
  apply only_registration in Ho.
  unfold registered_as.
  destruct (watching_shape n w r Hw Hin Ho) as [(_ & Ht & _)|(Hc & _)].
  - unfold listens. rewrite Ht. reflexivity.
  - rewrite Hc, Closure_eqb_refl. now rewrite andb_true_r.
Qed.

Lemma filter_ext_in' {A : Type} (f g : A -> bool) (l : list A) :
  (forall x, In x l -> f x = g x) -> filter f l = filter g l.
Proof.
  induction l as [|x l IH]; intro H; simpl; [reflexivity|].
  rewrite (H x (or_introl eq_refl)), IH; [reflexivity|].
  intros y Hy. apply H. now right.
Qed.

(** Data arrives on a stream: the step fires if it has its listener
    there, and goes on waiting if not. *)
Lemma watching_data (n : nat) (k' : StreamKind) (i : nat) (w : World) :
  watching p k L D n w ->
  watching p k L D n (step (data_arrives k' i) w)
  \/ fired p D n (step (data_arrives k' i) w).
Proof.
  intro Hw. simpl. destruct (is_flowing k' i w); [|now left].
  apply (emit_at_most_one (only p) (watching p k L D n) (fired p D n)
           (watching_stable n) (fired_stable n) (watching_good n) (fired_good n));
    [| |exact Hw].
  - rewrite (filter_ext_in' _ _ _ (owned_listens_data n w k' i Hw)).
    destruct Hw as (_ & _ & _ & _ & _ & Ho & _). now apply Ho.
  - intros r w' Hin Hl Ho Hw'. apply data_listener_fires; [|exact Hw'].
    apply only_registration in Ho.
    destruct (watching_shape n w r Hw Hin Ho) as [(_ & Ht & _)|(Hc & _)]; [|exact Hc].
    apply listens_iff in Hl as [Hl _]. congruence.
Qed.

(** Events about other streams, other steps and the connection leave the
    step waiting. *)
Lemma watching_quiet (n : nat) (e : Event) (w : World) :
  kind_of_event e <> Some k ->
  watching p k L D n w -> watching p k L D n (step e w).
Proof.
  intros He Hw. assert (H := Hw). destruct H as (Hg & _ & Vk & _).
  destruct (step_quiet (only p) e w Hg) as [Hg' Hu].
  - split.
    + intros r Hin Ho. apply only_registration in Ho.
      destruct (watching_shape n w r Hw Hin Ho)
        as [(_ & Ht & Hev)|(_ & Hev & i & Ht & _)];
        destruct e as [lab loc|loc|k' i'|k' i'| | | | | | | |st];
        simpl in *; try reflexivity; unfold listens; rewrite Ht, Hev;
        try reflexivity.
      * destruct k; [now elim He|]. destruct loc; reflexivity.
      * destruct k; [|now elim He]. destruct loc; reflexivity.
      * destruct k; reflexivity.
      * destruct k, k'; simpl; try reflexivity; now elim He.
    + intros k' Hin Ho. exfalso. exact (nothing_suspended _ _ _ Vk Hin Ho).
  - exact (watching_stable n w _ Hw Hg' Hu).
Qed.

(** A stream of the watched kind opens: the step starts watching it (if
    the label matches) and goes on waiting. *)
Lemma watching_opens (n : nat) (label : string) (local : bool) (w : World) :
  watching p k L D n w -> watching p k L D n (opens k label local w).
Proof.
  intro Hw. assert (Hg := watching_good n w Hw).
  destruct (opens_unfold (only p) k label local w Hg) as (w1 & E & Hg1 & Hu1 & Er1 & Ei1).
  rewrite E. clear E.
  assert (Hw1 : watching p k L D n w1) by exact (watching_stable n w w1 Hw Hg1 Hu1).
  set (s := {| ref_kind := k; ref_ident := next_id w; ref_label := label |}).
  set (J := fun w' => watching p k L D n w' /\ unwatched p k (next_id w) w'
                      /\ In (next_id w) (ids k w')).
  assert (J_stable : Stable (only p) J).
  { intros wx wy (Hx & Hux & Hix) Hgy Huy. split; [|split].
    - exact (watching_stable n wx wy Hx Hgy Huy).
    - intros r Hr Ho. apply Hux; [|exact Ho].
      eapply owned_registrations_kept; eauto. now apply only_registration.
    - destruct Huy as (_ & _ & Hincl). now apply (Hincl k). }
  assert (HJ1 : J w1).
  { split; [exact Hw1|]. split.
    - intros r Hr Ho Ht. rewrite Er1 in Hr.
      destruct (watching_shape n w r Hw Hr Ho) as [(_ & Ht' & _)|(_ & _ & i & Ht' & Hi)].
      + congruence.
      + rewrite Ht' in Ht. injection Ht as ->.
        destruct Hg as (_ & _ & Hb). specialize (Hb k _ Hi). lia.
    - rewrite Ei1. apply in_or_app. right. now left. }
  assert (Hw2 : watching p k L D n (emit connection (open_event k) (Some s) w1)).
  { destruct (emit_at_most_one (only p) J (watching p k L D n) J_stable
                (watching_stable n) (fun w' H => watching_good n w' (proj1 H))
                (watching_good n) connection (open_event k) (Some s) w1) as [H|H];
      [| |exact HJ1|exact (proj1 H)|exact H].
    - rewrite (filter_ext_in' _ _ _ (owned_listens_open n w1 (open_event k) Hw1)).
      destruct Hw1 as (_ & _ & _ & _ & _ & Ho & _). now apply Ho.
    - intros r w' Hin Hl Ho (Hw' & Hu' & Hi'). apply only_registration in Ho.
      apply open_listener_invoke; auto.
      destruct (watching_shape n w1 r Hw1 Hin Ho) as [(Hc & _)|(_ & _ & i & Ht & _)];
        [exact Hc|].
      apply listens_iff in Hl as [Hl _]. congruence. }
  set (w2 := emit connection (open_event k) (Some s) w1) in *.
  destruct (emit_quiet (only p) connection (nth 1 (open_events k local) "") (Some s) w2
              (watching_good n w2 Hw2)) as [Hg3 Hu3].
  - intros r Hin Ho. apply only_registration in Ho.
    destruct (watching_shape n w2 r Hw2 Hin Ho) as [(_ & Ht & Hev)|(_ & Hev & i & Ht & _)];
      unfold listens; rewrite Ht, Hev; [|reflexivity].
    destruct k, local; reflexivity.
  - exact (watching_stable n w2 _ Hw2 Hg3 Hu3).
Qed.

Lemma StreamKind_cases (k' : StreamKind) : k' = DataChannel \/ k' = MediaTrack.
Proof. destruct k'; auto. Qed.

(** Whatever happens, a waiting step goes on waiting or fires. *)
Lemma watching_step (n : nat) (e : Event) (w : World) :
  watching p k L D n w ->
  watching p k L D n (step e w) \/ fired p D n (step e w).
Proof.
  intro Hw.
  assert (Hq : kind_of_event e <> Some k -> watching p k L D n (step e w))
    by (intro H; now apply watching_quiet).
  destruct e; try (left; apply Hq; discriminate).
  - left. destruct (StreamKind_cases k) as [Hk|Hk].
    + simpl. rewrite <- Hk. now apply watching_opens.
    + apply Hq. rewrite Hk. discriminate.
  - left. destruct (StreamKind_cases k) as [Hk|Hk].
    + apply Hq. rewrite Hk. discriminate.
    + simpl. rewrite <- Hk. now apply watching_opens.
  - now apply watching_data.
Qed.

Lemma watch_run (n : nat) (history : list Event) :
  forall w, watching p k L D n w \/ fired p D n w ->
    watching p k L D n (run history w) \/ fired p D n (run history w).
Proof.
  induction history as [|e h IH]; intros w Hw; [exact Hw|].
  unfold run. rewrite forEach_cons. apply IH.
  destruct Hw as [Hw|Hw]; [now apply watching_step | right; now apply fired_step].
Qed.

Lemma fired_run (n : nat) (history : list Event) (w : World) :
  fired p D n w -> fired p D n (run history w) /\ unchanged (only p) w (run history w).
Proof.
  intro Hw. assert (H := Hw). destruct H as (Hg & _ & Hi & _).
  destruct (run_idle (only p) history w Hg Hi) as [Hg' Hu].
  split; [exact (fired_stable n w _ Hw Hg' Hu) | exact Hu].
Qed.

(** The listener for new streams is called on the streams that are
    already there. *)
Lemma listen_loop (n : nat) (l : list StreamRef) :
  NoDup (map ref_ident l) ->
  forall w,
    (forall s, In s l -> ref_kind s = k /\ In (ref_ident s) (ids k w)
                         /\ unwatched p k (ref_ident s) w) ->
    watching p k L D n w ->
    watching p k L D n (forEach l (fun s => call L (Some s)) w).
Proof.
  induction l as [|s l IH]; intros Hnd w Hl Hw; [exact Hw|].
  rewrite forEach_cons. simpl in Hnd. apply NoDup_cons_iff in Hnd as [Hnotin Hnd'].
  destruct (Hl s (or_introl eq_refl)) as (Hk & Hi & Hu).
  destruct (open_listener_call n s w Hk Hi Hu Hw) as (Hw' & Hu' & Hi').
  apply IH; [exact Hnd' | | exact Hw'].
  intros s' Hs'. destruct (Hl s' (or_intror Hs')) as (Hk' & Hi'' & Hu'').
  split; [exact Hk'|]. split; [now rewrite Hi'|].
  apply Hu'; [|exact Hu'']. intro E. apply Hnotin. rewrite <- E. now apply in_map.
Qed.

Lemma distinct_NoDup (l : list nat) : distinct l = true -> NoDup l.
Proof.
  induction l as [|x l IH]; simpl; intro H; [constructor|].
  apply andb_true_iff in H as [Hx Hl]. constructor; [|now apply IH].
  intro Hin. apply negb_true_iff in Hx.
  assert (E : existsb (Nat.eqb x) l = true)
    by (apply existsb_exists; exists x; split; [exact Hin | apply Nat.eqb_refl]).
  rewrite E in Hx. discriminate.
Qed.

Lemma wf_distinct (w : World) (k' : StreamKind) : wf w = true -> NoDup (ids k' w).
Proof.
  unfold wf. intro H. apply andb_true_iff in H as [H Ht].
  apply andb_true_iff in H as [_ Hc].
  destruct k'; now apply distinct_NoDup.
Qed.

(** Where a waiting step stands when [handle] returns. *)
Lemma watch_start (w0 : World) :
  wf w0 = true -> p = next_id w0 ->
  watching p k L D (List.length (filter (is_call_of D) (v_calls (view (only p) w0))))
    ((on connection (open_event k) L ;;
      forEach_of name (streams_of k) (fun s => call L (Some s))) (set_next_id S w0)).
Proof.
  intros Hwf Hp0. unfold andThen, forEach_of.
  set (wa := on connection (open_event k) L (set_next_id S w0)).
  set (rL := {| reg_id := S (next_id w0); target := connection; event := open_event k;
                callback := L; is_once := false |}).
  destruct (fresh_start (only p) w0 wa [rL] [] Hwf) as (Hg & Vs & Vc & Vr & Vk);
    try reflexivity.
  { apply only_bounds; [lia|]. unfold wa. simpl. lia. }
  { simpl. now rewrite app_nil_r. }
  { unfold wa. simpl. lia. }
  assert (Vr' : v_registrations (view (only p) wa) = [rL]).
  { rewrite Vr. simpl. unfold owns_registration, only. simpl.
    now rewrite L_owner, Nat.eqb_refl. }
  assert (Hwa : watching p k L D
                  (List.length (filter (is_call_of D) (v_calls (view (only p) w0)))) wa).
  { split; [exact Hg|]. split; [exact Vc|]. split; [exact Vk|].
    split; [apply (fresh_pending (only p)); [apply only_self | exact Vs]|].
    split; [|split].
    - rewrite Vr'. constructor; [|constructor]. left. repeat split.
    - intros t ev c Hc. rewrite Vr'. simpl. destruct (registered_as t ev c rL); simpl; lia.
    - unfold wa. change (on connection (open_event k) L (set_next_id S w0))
        with (log (Subscribed connection (open_event k) L false)
                (set_registrations (fun l => l ++ [rL]) (set_next_id S (set_next_id S w0)))).
      rewrite calls_after_log; reflexivity. }
  assert (Hua : forall i, unwatched p k i wa).
  { intros i r Hr Ho.
    assert (Hin : In r (v_registrations (view (only p) wa)))
      by (apply owned_registration_in_view; split; [exact Hr | now apply only_registration]).
    rewrite Vr' in Hin. destruct Hin as [<-|[]]. discriminate. }
  assert (Hpb : pruned wa (log (Examined name) wa)) by now apply pruned_log.
  apply listen_loop.
  - unfold streams_of. rewrite map_map. simpl.
    change (NoDup (ids k wa)). change (ids k wa) with (ids k w0). now apply wf_distinct.
  - intros s Hs. destruct (streams_of_kind k wa s Hs) as [Hk Hi].
    split; [exact Hk|]. split; [exact Hi|].
    apply (unwatched_pruned _ wa); [exact Hpb | apply Hua].
  - now apply (watching_pruned _ wa).
Qed.

Lemma calls_of_view (w : World) :
  calls_of D w = List.length (filter (is_call_of D) (v_calls (view (only p) w))).
Proof.
  unfold calls_of. simpl. rewrite filter_filter_implies; [reflexivity|].
  intros e He. destruct e; try discriminate. simpl in *.
  apply Closure_eqb_eq in He. subst c. unfold only. now rewrite D_owner, Nat.eqb_refl.
Qed.

(** Once the step has completed, none of its listeners is registered,
    none is called any more, and the data listener has run once. *)
Lemma watch_completed (n : nat) (w1 : World) (h1 h2 : list Event) :
  watching p k L D n w1 ->
  pstate p (run h1 w1) = Some Fulfilled ->
  filter (owns_registration (only p)) (registrations (run h1 w1)) = []
  /\ filter (owns_registration (only p)) (registrations (run (h1 ++ h2) w1)) = []
  /\ filter (owns_call (only p)) (trace (run (h1 ++ h2) w1))
     = filter (owns_call (only p)) (trace (run h1 w1))
  /\ calls_of D (run (h1 ++ h2) w1) = S n.
Proof.
  intros Hw Hp.
  destruct (watch_run n h1 w1 (or_introl Hw)) as [(_ & _ & _ & Hp' & _)|Hf];
    [rewrite Hp in Hp'; discriminate|].
  rewrite run_app. destruct (fired_run n h2 _ Hf) as [Hf2 Hu].
  split; [exact (proj1 (proj1 (proj2 (proj2 Hf))))|].
  split; [exact (proj1 (proj1 (proj2 (proj2 Hf2))))|].
  split.
  - destruct Hu as (Hv & _).
    change (v_calls (view (only p) (run h2 (run h1 w1))) = v_calls (view (only p) (run h1 w1))).
    now rewrite Hv.
  - rewrite calls_of_view. exact (proj2 (proj2 (proj2 (proj2 Hf2)))).
Qed.

End Watch.

(* ================================================================== *)
(** * Waiting for a message or for media fires once *)

Lemma WaitForMessageStep_watching (channelLabel : option string) (w : World) :
  wf w = true ->
  watching (next_id w) DataChannel
    (listenForMessage channelLabel (next_id w)) (messageReceived channelLabel (next_id w))
    (calls_of (messageReceived channelLabel (next_id w)) w)
    (snd (WaitForMessageStep_handle channelLabel w)).
Proof.
  intro Hwf.
  rewrite (calls_of_view (next_id w) (messageReceived channelLabel (next_id w)) eq_refl).
  apply (watch_start (next_id w) DataChannel
           (listenForMessage channelLabel (next_id w))
           (messageReceived channelLabel (next_id w))
           "channels" (matchesChannel channelLabel));
    try reflexivity; try discriminate; exact Hwf.
Qed.

Lemma WaitForMediaStep_watching (w : World) :
  wf w = true ->
  watching (next_id w) MediaTrack (listenForData (next_id w)) (mediaReceived (next_id w))
    (calls_of (mediaReceived (next_id w)) w)
    (snd (WaitForMediaStep_handle w)).
Proof.
  intro Hwf.
  rewrite (calls_of_view (next_id w) (mediaReceived (next_id w)) eq_refl).
  apply (watch_start (next_id w) MediaTrack
           (listenForData (next_id w)) (mediaReceived (next_id w))
           "mediaTracks" (fun _ => true));
    try reflexivity; try discriminate; exact Hwf.
Qed.

(** C5. A wait-for-message or wait-for-media step is started in a
    well-formed world; [p] is the promise of its [handle].  Once [p] is
    fulfilled:
    - no listener of the step is registered any more, neither on the
      connection (['channel-open'] / ['track-open']) nor for ['data'] on
      any channel or track, and none is registered later;
    - whatever happens afterwards (more data, new streams, other steps),
      no listener of the step is called again;
    - the data listener has run exactly once. *)
Theorem data_waits_fire_once :
  forall (s : HandlerStep) (w : World),
    wf w = true ->
    is_data_wait s = true ->
    let p := snd (fst (handle s w)) in
    let w1 := snd (handle s w) in
    forall h1 h2,
      pstate p (run h1 w1) = Some Fulfilled ->
      filter (owns_registration (only p)) (registrations (run h1 w1)) = []
      /\ filter (owns_registration (only p)) (registrations (run (h1 ++ h2) w1)) = []
      /\ filter (owns_call (only p)) (trace (run (h1 ++ h2) w1))
         = filter (owns_call (only p)) (trace (run h1 w1))
      /\ calls_of (data_listener s p) (run (h1 ++ h2) w1)
         = S (calls_of (data_listener s p) w).
Proof.
  intros s w Hwf Hs. destruct s; try discriminate Hs; simpl; intros h1 h2 Hp.
  - exact (watch_completed (next_id w) DataChannel
             (listenForMessage channelLabel (next_id w))
             (messageReceived channelLabel (next_id w))
             "channels" (matchesChannel channelLabel)
             eq_refl eq_refl ltac:(discriminate) (fun _ => eq_refl) (fun _ => eq_refl)
             _ _ h1 h2 (WaitForMessageStep_watching channelLabel w Hwf) Hp).
  - exact (watch_completed (next_id w) MediaTrack
             (listenForData (next_id w)) (mediaReceived (next_id w))
             "mediaTracks" (fun _ => true)
             eq_refl eq_refl ltac:(discriminate) (fun _ => eq_refl) (fun _ => eq_refl)
             _ _ h1 h2 (WaitForMediaStep_watching w Hwf) Hp).
Qed.

Lemma data_waits_fire_once_witness :
  pstate 3 (run [data_arrives DataChannel 0]
              (snd (handle (WaitForMessageStep (Some "chat")) two_channels_one_track)))
  = Some Fulfilled
  /\ filter (owns_registration (only 3))
       (registrations
          (run ([data_arrives DataChannel 0]
                ++ [stream_resumes DataChannel 0; data_arrives DataChannel 0;
                    channel_opens "chat" false])
             (snd (handle (WaitForMessageStep (Some "chat")) two_channels_one_track))))
     = []
  /\ calls_of (messageReceived (Some "chat") 3)
       (run ([data_arrives DataChannel 0]
             ++ [stream_resumes DataChannel 0; data_arrives DataChannel 0;
                 channel_opens "chat" false])
          (snd (handle (WaitForMessageStep (Some "chat")) two_channels_one_track)))
     = 1.
Proof.
  assert (Hp : pstate 3 (run [data_arrives DataChannel 0]
                 (snd (handle (WaitForMessageStep (Some "chat")) two_channels_one_track)))
               = Some Fulfilled) by reflexivity.
  destruct (data_waits_fire_once (WaitForMessageStep (Some "chat")) two_channels_one_track
              eq_refl eq_refl [data_arrives DataChannel 0]
              [stream_resumes DataChannel 0; data_arrives DataChannel 0;
               channel_opens "chat" false] Hp)
    as (_ & H2 & _ & H4).
  split; [exact Hp|]. split; [exact H2 | exact H4].
Defined.

(* ================================================================== *)
(** * Sending a message *)

Lemma between_in (lo hi i : nat) : lo <= i -> i < hi -> between lo hi i = true.
Proof.
  intros H1 H2. unfold between. apply andb_true_iff. split;
    [now apply Nat.leb_le | now apply Nat.ltb_lt].
Qed.

Lemma consistent_ext (P : nat) (qs : list nat) (st st' : nat -> option Settlement) :
  (forall x, x = P \/ In x qs -> st x = st' x) ->
  consistent P qs st -> consistent P qs st'.
Proof.
  intros E (A & B & C). split; [|split].
  - rewrite <- (E P (or_introl eq_refl)), A.
    split; intros H q Hq;
      [rewrite <- (E q (or_intror Hq)) | rewrite (E q (or_intror Hq))]; auto.
  - intros e He. rewrite <- (E P (or_introl eq_refl)) in He.
    destruct (B e He) as (q & Hq & Hs). exists q. split; [exact Hq|].
    now rewrite <- (E q (or_intror Hq)).
  - intros q e Hq Hs. rewrite <- (E q (or_intror Hq)) in Hs.
    destruct (C q e Hq Hs) as (e' & He'). exists e'.
    now rewrite <- (E P (or_introl eq_refl)).
Qed.

(** An element fulfils, and [Promise.all] looks at its elements. *)
Lemma consistent_fulfil (P : nat) (qs : list nat) (st st1 st' : nat -> option Settlement)
  (q0 : nat) :
  consistent P qs st -> In q0 qs -> st q0 = None ->
  (forall x, In x qs ->
     st1 x = match st x with
             | Some s => Some s
             | None => if Nat.eqb q0 x then Some Fulfilled else None
             end) ->
  st1 P = st P ->
  (forall x, In x qs -> st' x = st1 x) ->
  st' P = (if forallb (fun x => is_fulfilled (st1 x)) qs
           then match st1 P with Some y => Some y | None => Some Fulfilled end
           else st1 P) ->
  consistent P qs st'.
Proof.
  intros (A & B & C) Hq Hst H1 H1P H' H'P.
  assert (Hrej : forall x e, In x qs ->
            (st1 x = Some (Rejected e) <-> st x = Some (Rejected e))).
  { intros x e Hx. rewrite (H1 x Hx). destruct (st x) as [s|] eqn:Ex; [tauto|].
    destruct (Nat.eqb q0 x); split; discriminate. }
  assert (HnotF : st P <> Some Fulfilled).
  { intro HF. rewrite (proj1 A HF q0 Hq) in Hst. discriminate. }
  rewrite H1P in H'P.
  destruct (forallb (fun x => is_fulfilled (st1 x)) qs) eqn:Hb.
  - assert (Hall : forall x, In x qs -> is_fulfilled (st1 x) = true)
      by (apply forallb_forall; exact Hb).
    assert (HP : st' P = Some Fulfilled).
    { rewrite H'P. destruct (st P) as [[|e]|] eqn:EP; [now elim HnotF| |reflexivity].
      exfalso. destruct (B e eq_refl) as (x & Hx & Hs). apply Hrej in Hs; [|exact Hx].
      specialize (Hall x Hx). rewrite Hs in Hall. discriminate. }
    split; [|split].
    + split; [|intros _; exact HP]. intros _ x Hx. rewrite (H' x Hx).
      specialize (Hall x Hx). destruct (st1 x) as [[|]|]; try discriminate; reflexivity.
    + intros e He. rewrite HP in He. discriminate.
    + intros x e Hx Hs. rewrite (H' x Hx) in Hs. specialize (Hall x Hx).
      rewrite Hs in Hall. discriminate.
  - split; [|split].
    + split.
      * intro HF. rewrite H'P in HF. now elim HnotF.
      * intro Hall. exfalso.
        assert (Hb' : forallb (fun x => is_fulfilled (st1 x)) qs = true).
        { apply forallb_forall. intros x Hx. now rewrite <- (H' x Hx), (Hall x Hx). }
        congruence.
    + intros e He. rewrite H'P in He. destruct (B e He) as (x & Hx & Hs).
      exists x. split; [exact Hx|]. rewrite (H' x Hx). now apply Hrej.
    + intros x e Hx Hs. rewrite (H' x Hx) in Hs. apply Hrej in Hs; [|exact Hx].
      destruct (C x e Hx Hs) as (e' & He'). exists e'. now rewrite H'P.
Qed.

(** An element rejects, and [Promise.all] with it. *)
Lemma consistent_reject (P : nat) (qs : list nat) (st st' : nat -> option Settlement)
  (q0 : nat) (e : Error) :
  consistent P qs st -> In q0 qs -> st q0 = None ->
  (forall x, In x qs ->
     st' x = match st x with
             | Some s => Some s
             | None => if Nat.eqb q0 x then Some (Rejected e) else None
             end) ->
  st' P = match st P with Some y => Some y | None => Some (Rejected e) end ->
  consistent P qs st'.
Proof.
  intros (A & B & C) Hq Hst H' H'P.
  assert (Hq' : st' q0 = Some (Rejected e))
    by (rewrite (H' q0 Hq), Hst, Nat.eqb_refl; reflexivity).
  assert (HnotF : st P <> Some Fulfilled).
  { intro HF. rewrite (proj1 A HF q0 Hq) in Hst. discriminate. }
  assert (Hmono : forall x s, In x qs -> st x = Some s -> st' x = Some s).
  { intros x s Hx Hs. now rewrite (H' x Hx), Hs. }
  split; [|split].
  - split.
    + intro HF. rewrite H'P in HF. destruct (st P) as [[|]|] eqn:EP; try discriminate.
      now elim HnotF.
    + intro Hall. rewrite (Hall q0 Hq) in Hq'. discriminate.
  - intros e' He'. rewrite H'P in He'. destruct (st P) as [s|] eqn:EP.
    + injection He' as ->. destruct (B e' eq_refl) as (x & Hx & Hs).
      exists x. split; [exact Hx | now apply Hmono].
    + injection He' as <-. exists q0. now split.
  - intros x e' Hx Hs. rewrite H'P. destruct (st P) as [[|e'']|] eqn:EP.
    + now elim HnotF.
    + now exists e''.
    + now exists e.
Qed.

Lemma settle_or_reject_settled (q : nat) (error : option Error) (w : World) :
  pstate q w <> None -> settle_or_reject q error w = w.
Proof.
  intro H. destruct error; simpl; unfold reject, resolve;
    destruct (pstate q w); congruence.
Qed.

(** Only the first callback of a write settles its promise. *)
Lemma forEach_settle_once {A : Type} (l : list A) (q : nat) (error : option Error)
  (w : World) :
  l <> [] -> pstate q w = None ->
  forEach l (fun _ => settle_or_reject q error) w = settle_or_reject q error w.
Proof.
  destruct l as [|x l]; [congruence|]. intros _ Hp. rewrite forEach_cons.
  assert (Hs : pstate q (settle_or_reject q error w) <> None).
  { destruct error; simpl; [rewrite reject_rejects | rewrite resolve_fulfils]; auto;
      discriminate. }
  revert Hs. generalize (settle_or_reject q error w). intros w' Hs.
  induction l as [|y l IH]; [reflexivity|].
  rewrite forEach_cons, settle_or_reject_settled; auto.
Qed.

Section Send.

Variables (lo P : nat) (qs : list nat).

Lemma sending_good (w : World) : sending lo P qs w -> good (between lo (S P)) w.
Proof. intros (H & _). exact H. Qed.

Lemma sending_owns (w : World) (x : nat) :
  sending lo P qs w -> x = P \/ In x qs -> between lo (S P) x = true.
Proof.
  intros (_ & Hb & Hlo & _) [->|Hx]; apply between_in; try lia;
    destruct (Hb x Hx); lia.
Qed.

Lemma sending_stable : Stable (between lo (S P)) (sending lo P qs).
Proof.
  intros w w' Hw Hg Hu. assert (Hown := sending_owns w).
  assert (Hp : forall x, x = P \/ In x qs -> pstate x w = pstate x w').
  { intros x Hx. symmetry. apply (pstate_unchanged (between lo (S P))); auto. }
  destruct Hw as (_ & Hb & Hlo & Vc & Vr & Hk & Hcons).
  assert (Hv : view (between lo (S P)) w' = view (between lo (S P)) w) by exact (proj1 Hu).
  split; [exact Hg|]. split; [exact Hb|]. split; [exact Hlo|].
  rewrite Hv. split; [exact Vc|]. split; [exact Vr|]. split.
  - intro k. rewrite Hk.
    split; intros (q & E & Hq & Hs); exists q; (split; [exact E|]; split; [exact Hq|]);
      [rewrite <- Hp | rewrite Hp]; auto.
  - apply (consistent_ext P qs (fun x => pstate x w)); auto.
Qed.

(** The elements of the step's [Promise.all] are watched by it alone. *)
Lemma watchers (q : nat) (w : World) :
  sending lo P qs w -> In q qs ->
  filter (watches q) (combinators w) = [{| all_target := P; all_elements := qs |}].
Proof.
  intros Hw Hq. assert (Ho := sending_owns w q Hw (or_intror Hq)).
  destruct Hw as (_ & _ & _ & Vc & _).
  rewrite <- (filter_filter_implies (watches q) (owns_combinator (between lo (S P)))).
  - change (filter (owns_combinator (between lo (S P))) (combinators w))
      with (v_combinators (view (between lo (S P)) w)).
    rewrite Vc. simpl. unfold watches. simpl.
    assert (E : existsb (Nat.eqb q) qs = true)
      by (apply existsb_exists; exists q; split; [exact Hq | apply Nat.eqb_refl]).
    now rewrite E.
  - intros c Hc. unfold watches in Hc. apply existsb_exists in Hc as (x & Hx & E).
    apply Nat.eqb_eq in E. subst x. unfold owns_combinator. apply orb_true_iff. right.
    apply existsb_exists. exists q. now split.
Qed.

(** The callback of a pending write comes back. *)
Lemma sending_ack (q0 : nat) (error : option Error) (w : World) :
  sending lo P qs w -> In q0 qs -> pstate q0 w = None ->
  sending lo P qs (step (write_returns q0 error) w)
  /\ forall x, In x qs ->
       pstate x (step (write_returns q0 error) w)
       = match pstate x w with
         | Some s => Some s
         | None => if Nat.eqb q0 x then settled_by (Some error) else None
         end.
Proof.
  intros Hw Hq Hp.
  assert (Hown := sending_owns w). specialize (fun x => Hown x Hw).
  assert (Hwatch := watchers q0 w Hw Hq).
  destruct Hw as (Hg & Hb & Hlo & Vc & Vr & Hk & Hcons).
  rewrite (step_callback (write_returns q0 error) eq_refl). unfold take.
  set (e := write_returns q0 error).
  set (w0 := set_suspended (filter (fun c => negb (resumed_by e c))) w).
  assert (Hin : In (written q0) (suspended w)).
  { apply (owned_continuation_in_view (between lo (S P))). apply Hk. now exists q0. }
  assert (Hne : filter (resumed_by e) (suspended w) <> []).
  { intro E.
    assert (H : In (written q0) (filter (resumed_by e) (suspended w)))
      by (apply filter_In; split; [exact Hin | apply Nat.eqb_refl]).
    rewrite E in H. destruct H. }
  change (forEach (filter (resumed_by e) (suspended w)) (resumption e) w0)
    with (forEach (filter (resumed_by e) (suspended w))
            (fun _ => settle_or_reject q0 error) w0).
  rewrite (forEach_settle_once _ q0 error w0 Hne Hp).
  assert (Ef := Settling_settle_or_reject q0 error w0).
  assert (HqP : forall x, In x qs -> Nat.eqb P x = false).
  { intros x Hx. apply Nat.eqb_neq. destruct (Hb x Hx). lia. }
  assert (Hst : (forall x, In x qs ->
                   pstate x (settle_or_reject q0 error w0)
                   = match pstate x w with
                     | Some s => Some s
                     | None => if Nat.eqb q0 x then settled_by (Some error) else None
                     end)
                /\ consistent P qs (fun x => pstate x (settle_or_reject q0 error w0))).
  { destruct error as [err|]; simpl.
    - unfold reject. change (pstate q0 w0) with (pstate q0 w). rewrite Hp.
      change (combinators w0) with (combinators w). rewrite Hwatch.
      unfold andThen. rewrite forEach_cons, forEach_nil. cbn [all_target].
      assert (Hx : forall x, In x qs ->
                pstate x (settle P (Rejected err) (settle q0 (Rejected err) w0))
                = match pstate x w with
                  | Some s => Some s
                  | None => if Nat.eqb q0 x then Some (Rejected err) else None
                  end).
      { intros x Hx. rewrite !pstate_settle. change (pstate x w0) with (pstate x w).
        destruct (pstate x w); [reflexivity|].
        destruct (Nat.eqb q0 x); [reflexivity|]. now rewrite (HqP x Hx). }
      split; [exact Hx|].
      apply (consistent_reject P qs (fun x => pstate x w) _ q0 err Hcons Hq Hp Hx).
      rewrite !pstate_settle. change (pstate P w0) with (pstate P w).
      destruct (pstate P w); [reflexivity|].
      rewrite Nat.eqb_sym, (HqP q0 Hq), Nat.eqb_refl. reflexivity.
    - unfold resolve. change (pstate q0 w0) with (pstate q0 w). rewrite Hp.
      change (combinators w0) with (combinators w). rewrite Hwatch.
      unfold andThen. rewrite forEach_cons, forEach_nil.
      set (wq := settle q0 Fulfilled w0).
      assert (H1 : forall x, In x qs ->
                pstate x wq
                = match pstate x w with
                  | Some s => Some s
                  | None => if Nat.eqb q0 x then Some Fulfilled else None
                  end).
      { intros x Hx. unfold wq. now rewrite pstate_settle. }
      assert (H1P : pstate P wq = pstate P w).
      { unfold wq. rewrite pstate_settle. change (pstate P w0) with (pstate P w).
        destruct (pstate P w); [reflexivity|].
        now rewrite Nat.eqb_sym, (HqP q0 Hq). }
      assert (H' : forall x, In x qs ->
                pstate x (all_done {| all_target := P; all_elements := qs |} wq)
                = pstate x wq).
      { intros x Hx. unfold all_done. cbn [all_target all_elements].
        destruct (forallb _ qs); [|reflexivity].
        rewrite pstate_settle. destruct (pstate x wq); [reflexivity|].
        now rewrite (HqP x Hx). }
      split.
      + intros x Hx. now rewrite (H' x Hx), (H1 x Hx).
      + apply (consistent_fulfil P qs (fun x => pstate x w) (fun x => pstate x wq) _ q0
                 Hcons Hq Hp H1 H1P H').
        unfold all_done. cbn [all_target all_elements].
        destruct (forallb _ qs); [|reflexivity].
        rewrite pstate_settle, Nat.eqb_refl. reflexivity. }
  destruct Hst as [Hx Hcons'].
  split; [|exact Hx].
  set (w' := settle_or_reject q0 error w0) in *.
  assert (En : next_id w' = next_id w) by (rewrite Ef; reflexivity).
  assert (Ec : combinators w' = combinators w) by (rewrite Ef; reflexivity).
  assert (Er : registrations w' = registrations w) by (rewrite Ef; reflexivity).
  assert (Ek : suspended w' = filter (fun c => negb (resumed_by e c)) (suspended w))
    by (rewrite Ef; reflexivity).
  assert (Ei : forall k, ids k w' = ids k w)
    by (intro k; rewrite Ef; destruct k; reflexivity).
  split; [|split; [exact Hb|split; [exact Hlo|]]].
  - destruct Hg as (Hcl & Hbd & Hib). split; [|split].
    + unfold closed. rewrite Ec. exact Hcl.
    + unfold bounded. rewrite En. exact Hbd.
    + unfold ids_bounded. intros k i. rewrite Ei, En. apply Hib.
  - split; [|split; [|split]].
    + simpl. rewrite Ec. exact Vc.
    + simpl. rewrite Er. exact Vr.
    + intro k. simpl. rewrite Ek, filter_filter_comm.
      rewrite filter_In.
      change (filter (owns_continuation (between lo (S P))) (suspended w))
        with (v_suspended (view (between lo (S P)) w)).
      rewrite Hk. split.
      * intros ((q & -> & Hqq & Hs) & Hn). exists q. split; [reflexivity|].
        split; [exact Hqq|]. rewrite (Hx q Hqq), Hs.
        simpl in Hn. apply negb_true_iff in Hn. rewrite Nat.eqb_sym in Hn. now rewrite Hn.
      * intros (q & -> & Hqq & Hs). rewrite (Hx q Hqq) in Hs.
        destruct (pstate q w) eqn:Es; [discriminate|].
        destruct (Nat.eqb q0 q) eqn:E0; [destruct error; discriminate|].
        split; [now exists q|]. simpl. rewrite Nat.eqb_sym, E0. reflexivity.
    + exact Hcons'.
Qed.

(** Whatever happens, only the callbacks of the pending writes change
    how the step stands. *)
Lemma sending_step (e : Event) (w : World) :
  sending lo P qs w ->
  sending lo P qs (step e w)
  /\ forall x, In x qs ->
       pstate x (step e w)
       = match pstate x w with
         | Some s => Some s
         | None => settled_by (acknowledged x [e])
         end.
Proof.
  intro Hw.
  destruct (existsb (fun k => owns_continuation (between lo (S P)) k && resumed_by e k)
              (suspended w)) eqn:Hx.
  - apply existsb_exists in Hx as (k & Hin & Hk). apply andb_true_iff in Hk as [Ho Hr].
    assert (Hv : In k (v_suspended (view (between lo (S P)) w)))
      by (apply owned_continuation_in_view; now split).
    assert (H := Hw). destruct H as (_ & _ & _ & _ & _ & Hk & _).
    apply Hk in Hv as (q0 & -> & Hq & Hp).
    destruct e; try discriminate Hr. simpl in Hr. apply Nat.eqb_eq in Hr. subst q.
    destruct (sending_ack q0 error w Hw Hq Hp) as [Hs Hst].
    split; [exact Hs|]. intros x Hxq. rewrite (Hst x Hxq). simpl.
    destruct (Nat.eqb q0 x); reflexivity.
  - assert (Hnone : forall k, In k (suspended w) ->
              owns_continuation (between lo (S P)) k = true -> resumed_by e k = false).
    { intros k Hin Ho. destruct (resumed_by e k) eqn:Hr; [|reflexivity].
      assert (E : existsb (fun k => owns_continuation (between lo (S P)) k && resumed_by e k)
                    (suspended w) = true)
        by (apply existsb_exists; exists k; split; [exact Hin | now rewrite Ho, Hr]).
      congruence. }
    assert (H := Hw). destruct H as (Hg & _ & _ & _ & Vr & Hk & _).
    destruct (step_quiet (between lo (S P)) e w Hg) as [Hg' Hu].
    { split; [|exact Hnone]. intros r Hin Ho. exfalso.
      assert (H : In r (v_registrations (view (between lo (S P)) w)))
        by (apply owned_registration_in_view; now split).
      now rewrite Vr in H. }
    split; [exact (sending_stable w _ Hw Hg' Hu)|].
    intros x Hxq.
    rewrite (pstate_unchanged (between lo (S P)) x w _
               (sending_owns w x Hw (or_intror Hxq)) Hu).
    destruct (pstate x w) eqn:Hp; [reflexivity|].
    destruct e; try reflexivity. simpl.
    destruct (Nat.eqb_spec q x) as [->|Hne]; [|reflexivity]. exfalso.
    assert (Hv : In (written x) (v_suspended (view (between lo (S P)) w)))
      by (apply Hk; now exists x).
    apply owned_continuation_in_view in Hv as [Hin Ho].
    specialize (Hnone _ Hin Ho). simpl in Hnone. now rewrite Nat.eqb_refl in Hnone.
Qed.

Lemma acknowledged_cons (x : nat) (e : Event) (history : list Event) :
  acknowledged x (e :: history)
  = match acknowledged x [e] with
    | Some a => Some a
    | None => acknowledged x history
    end.
Proof. destruct e; try reflexivity. simpl. destruct (Nat.eqb q x); reflexivity. Qed.

(** The promise of a write is settled by the first callback of the write. *)
Lemma sending_run (history : list Event) :
  forall w, sending lo P qs w ->
    sending lo P qs (run history w)
    /\ forall x, In x qs ->
         pstate x (run history w)
         = match pstate x w with
           | Some s => Some s
           | None => settled_by (acknowledged x history)
           end.
Proof.
  induction history as [|e h IH]; intros w Hw.
  - split; [exact Hw|]. intros x _. simpl. now destruct (pstate x w).
  - unfold run. rewrite forEach_cons. fold (run h (step e w)).
    destruct (sending_step e w Hw) as [Hs Hst].
    destruct (IH _ Hs) as [Hr Hrt]. split; [exact Hr|].
    intros x Hx. rewrite (Hrt x Hx), (Hst x Hx), (acknowledged_cons x e h).
    destruct (pstate x w); [reflexivity|].
    destruct (acknowledged x [e]) as [[err|]|]; reflexivity.
Qed.

End Send.

(** One promise for each write, made one after the other; every write is
    issued as its promise is made. *)
Lemma new_Promises_write (message : Payload) (l : list StreamRef) :
  forall w,
    fst (new_Promises l (fun channel q => write channel message q) w)
    = seq (next_id w) (List.length l)
    /\ next_id (snd (new_Promises l (fun channel q => write channel message q) w))
       = next_id w + List.length l
    /\ settlements (snd (new_Promises l (fun channel q => write channel message q) w))
       = settlements w
    /\ combinators (snd (new_Promises l (fun channel q => write channel message q) w))
       = combinators w
    /\ registrations (snd (new_Promises l (fun channel q => write channel message q) w))
       = registrations w
    /\ suspended (snd (new_Promises l (fun channel q => write channel message q) w))
       = suspended w ++ map written (seq (next_id w) (List.length l))
    /\ (forall k, ids k (snd (new_Promises l (fun channel q => write channel message q) w))
                  = ids k w)
    /\ trace (snd (new_Promises l (fun channel q => write channel message q) w))
       = trace w ++ map (fun channel => Wrote (ref_ident channel) message) l.
Proof.
  induction l as [|ch l IH]; intro w.
  - simpl. rewrite Nat.add_0_r, !app_nil_r. repeat split.
  - cbn [new_Promises]. unfold new_Promise, fresh.
    set (w1 := write ch message (next_id w) (set_next_id S w)).
    destruct (IH w1) as (A & B & C & D & E & F & G & H).
    destruct (new_Promises l (fun channel q => write channel message q) w1) as [qs w2].
    cbn [fst snd] in *. cbn [List.length seq map].
    split; [now rewrite A|]. split; [rewrite B; simpl; lia|].
    split; [exact C|]. split; [exact D|]. split; [exact E|].
    split; [rewrite F; simpl; now rewrite <- app_assoc|].
    split; [intro k; rewrite G; now destruct k|].
    rewrite H. simpl. now rewrite <- app_assoc.
Qed.

Lemma first_rejection_pending (l : list nat) (w : World) :
  (forall q, In q l -> pstate q w = None) -> first_rejection l w = None.
Proof.
  induction l as [|q l IH]; intro H; simpl; [reflexivity|].
  rewrite (H q (or_introl eq_refl)). apply IH. intros x Hx. apply H. now right.
Qed.

(** Where a send step stands when [handle] returns. *)
Lemma SendStep_sending (channelLabel : option string) (message : Payload) (w : World) :
  wf w = true ->
  forall matching,
    matching = filter (fun channel => matchesChannel channelLabel (Some channel)) (channels w) ->
    fst (SendStep_handle channelLabel message w) = next_id w + List.length matching
    /\ sending (next_id w) (next_id w + List.length matching)
         (seq (next_id w) (List.length matching))
         (snd (SendStep_handle channelLabel message w))
    /\ (forall q, In q (seq (next_id w) (List.length matching)) ->
          pstate q (snd (SendStep_handle channelLabel message w)) = None)
    /\ effects_since w (snd (SendStep_handle channelLabel message w))
       = Examined "channels" :: map (fun channel => Wrote (ref_ident channel) message) matching.
Proof.
  intros Hwf matching Em. unfold SendStep_handle.
  change (channels (log (Examined "channels") w)) with (channels w). rewrite <- Em.
  set (w1 := log (Examined "channels") w).
  destruct (new_Promises_write message matching w1) as (A & B & C & D & E & F & G & H).
  destruct (new_Promises matching (fun channel q => write channel message q) w1)
    as [elements w2].
  cbn [fst snd] in A, B, C, D, E, F, G, H.
  change (next_id w1) with (next_id w) in *. change (settlements w1) with (settlements w) in *.
  change (combinators w1) with (combinators w) in *.
  change (registrations w1) with (registrations w) in *.
  change (suspended w1) with (suspended w) in *.
  change (trace w1) with (trace w ++ [Examined "channels"]) in *.
  set (lo := next_id w) in *. set (N := List.length matching) in *.
  set (own := between lo (S (lo + N))).
  assert (Hlo : forall i, own i = true -> lo <= i).
  { intros i Hi. apply andb_true_iff in Hi as [Hi _]. now apply Nat.leb_le in Hi. }
  destruct (wf_fresh own w Hwf Hlo) as (Vs & Vc & Vr & Vk & Hcl & Hib).
  assert (Hq : forall q, In q elements -> lo <= q /\ q < lo + N).
  { intros q Hin. rewrite A in Hin. apply in_seq in Hin. lia. }
  assert (Hoq : forall q, In q elements -> own q = true).
  { intros q Hin. destruct (Hq q Hin). apply between_in; lia. }
  assert (HoP : own (lo + N) = true) by (apply between_in; lia).
  unfold Promise_all, fresh. rewrite B.
  set (c := {| all_target := lo + N; all_elements := elements |}).
  set (w3 := set_combinators (fun l => l ++ [c]) (set_next_id S w2)).
  assert (Hp3 : forall x, own x = true -> pstate x w3 = None).
  { intros x Hx. unfold pstate. change (settlements w3) with (settlements w2). rewrite C.
    now apply (fresh_pending own). }
  rewrite (first_rejection_pending elements w3) by (intros q Hin; apply Hp3; auto).
  assert (Ef := Settling_all_done c w3).
  set (w4 := all_done c w3) in *.
  assert (En : next_id w4 = S (lo + N)) by (rewrite Ef; simpl; now rewrite B).
  assert (Ec : combinators w4 = combinators w ++ [c]) by (rewrite Ef; simpl; now rewrite D).
  assert (Er : registrations w4 = registrations w) by (rewrite Ef; simpl; now rewrite E).
  assert (Ek : suspended w4 = suspended w ++ map written elements)
    by (rewrite Ef; simpl; now rewrite F, A).
  assert (Ei : forall k, ids k w4 = ids k w)
    by (intro k; rewrite Ef; transitivity (ids k w2);
        [destruct k; reflexivity | rewrite G; destruct k; reflexivity]).
  assert (Et : trace w4 = trace w2) by (rewrite Ef; reflexivity).
  assert (Hx : forall q, In q elements -> pstate q w4 = None).
  { intros q Hin. unfold w4, all_done. destruct (forallb _ _); [|now apply Hp3, Hoq].
    rewrite pstate_settle, (Hp3 q (Hoq q Hin)). change (all_target c) with (lo + N).
    destruct (Nat.eqb_spec (lo + N) q) as [Heq|]; [|reflexivity].
    destruct (Hq q Hin). lia. }
  cbn [fst snd]. rewrite <- A. split; [reflexivity|]. split; [|split; [exact Hx|]].
  - split; [|split; [exact Hq|split; [lia|]]].
    + split; [|split].
      * intros c' Hin Ho. rewrite Ec in Hin. apply in_app_or in Hin as [Hin|[<-|[]]].
        -- exfalso. assert (Hv : In c' (v_combinators (view own w)))
             by (apply filter_In; now split).
           now rewrite Vc in Hv.
        -- split; [exact HoP | exact Hoq].
      * intros i Hi. rewrite En. apply andb_true_iff in Hi as [_ Hi].
        now apply Nat.ltb_lt in Hi.
      * intros k i Hi. rewrite Ei in Hi. rewrite En. specialize (Hib k i Hi).
        fold lo in Hib. lia.
    + simpl. rewrite Ec, Er, Ek, !filter_app.
      fold own.
      change (filter (owns_combinator own) (combinators w))
        with (v_combinators (view own w)).
      change (filter (owns_registration own) (registrations w))
        with (v_registrations (view own w)).
      change (filter (owns_continuation own) (suspended w))
        with (v_suspended (view own w)).
      rewrite Vc, Vr, Vk. cbn [app filter].
      assert (Hc : owns_combinator own c = true)
        by (unfold owns_combinator; change (all_target c) with (lo + N); now rewrite HoP).
      rewrite Hc. split; [reflexivity|]. split; [reflexivity|]. split.
      * intro k. rewrite filter_In, in_map_iff. split.
        -- intros ((q & <- & Hin) & _). exists q. auto.
        -- intros (q & -> & Hin & _). split; [now exists q|]. now apply Hoq.
      * unfold w4, all_done. change (all_target c) with (lo + N).
        change (all_elements c) with elements.
        destruct elements as [|q0 rest].
        -- cbn [forallb].
           assert (HP : pstate (lo + N) (settle (lo + N) Fulfilled w3) = Some Fulfilled)
             by (rewrite pstate_settle, (Hp3 _ HoP), Nat.eqb_refl; reflexivity).
           split; [|split].
           ++ split; [intros _ q []| intros _; exact HP].
           ++ intros e He. rewrite HP in He. discriminate.
           ++ intros q e [].
        -- cbn [forallb]. rewrite (Hp3 q0 (Hoq q0 (or_introl eq_refl))). cbn [is_fulfilled andb].
           split; [|split].
           ++ rewrite (Hp3 _ HoP). split; [discriminate|].
              intro Hall. rewrite <- (Hall q0 (or_introl eq_refl)). symmetry.
              apply Hp3, Hoq. now left.
           ++ intros e He. rewrite (Hp3 _ HoP) in He. discriminate.
           ++ intros q e Hin He. rewrite (Hp3 q (Hoq q Hin)) in He. discriminate.
  - unfold effects_since. rewrite Et, H, <- app_assoc, skipn_app, skipn_all, Nat.sub_diag.
    reflexivity.
Qed.

Lemma settled_by_fulfilled (a : option (option Error)) :
  settled_by a = Some Fulfilled <-> a = Some None.
Proof. destruct a as [[e|]|]; simpl; split; intro H; congruence. Qed.

Lemma settled_by_rejected (a : option (option Error)) (e : Error) :
  settled_by a = Some (Rejected e) <-> a = Some (Some e).
Proof. destruct a as [[e'|]|]; simpl; split; intro H; congruence. Qed.

(** C3. A send step is started in a well-formed world; [matching] are
    the channels of the connection that match its label filter, [P] is the
    promise of its [handle].
    - [handle] itself issues one write of the message to each matching
      channel, in order, and no other write, before any of them is
      acknowledged; the callback of each is awaited.
    - If no channel matches, [P] is fulfilled when [handle] returns.
    - Whatever happens afterwards, [P] is fulfilled exactly when every
      write has been acknowledged without an error; and [P] is rejected
      exactly when some write has been acknowledged with an error, however
      many of the other writes are still pending; the error [P] is
      rejected with is the error of one of the writes. *)
Theorem send_step_writes_and_awaits :
  forall (channelLabel : option string) (message : Payload) (w : World),
    wf w = true ->
    let matching :=
      filter (fun channel => matchesChannel channelLabel (Some channel)) (channels w) in
    let qs := seq (next_id w) (List.length matching) in
    let P := snd (fst (handle (SendStep channelLabel message) w)) in
    let w1 := snd (handle (SendStep channelLabel message) w) in
    effects_since w w1
    = Examined "channels" :: map (fun channel => Wrote (ref_ident channel) message) matching
    /\ (forall q, In q qs -> In (written q) (suspended w1))
    /\ (matching = [] -> pstate P w1 = Some Fulfilled)
    /\ (forall history,
          (pstate P (run history w1) = Some Fulfilled <->
           forall q, In q qs -> acknowledged q history = Some None)
          /\ ((exists e, pstate P (run history w1) = Some (Rejected e)) <->
              exists q e, In q qs /\ acknowledged q history = Some (Some e))
          /\ (forall e, pstate P (run history w1) = Some (Rejected e) ->
                exists q, In q qs /\ acknowledged q history = Some (Some e))).
Proof.
  intros channelLabel message w Hwf matching qs P w1.
  destruct (SendStep_sending channelLabel message w Hwf matching eq_refl)
    as (EP & Hs & Hpend & Heff).
  assert (E1 : P = fst (SendStep_handle channelLabel message w))
    by (unfold P, handle; now destruct (SendStep_handle channelLabel message w)).
  assert (E2 : w1 = snd (SendStep_handle channelLabel message w))
    by (unfold w1, handle; now destruct (SendStep_handle channelLabel message w)).
  rewrite <- E2 in Hs, Hpend, Heff. rewrite <- E1 in EP. rewrite <- EP in Hs.
  fold qs in Hs, Hpend.
  assert (Hall : forall history,
            (pstate P (run history w1) = Some Fulfilled <->
             forall q, In q qs -> acknowledged q history = Some None)
            /\ ((exists e, pstate P (run history w1) = Some (Rejected e)) <->
                exists q e, In q qs /\ acknowledged q history = Some (Some e))
            /\ (forall e, pstate P (run history w1) = Some (Rejected e) ->
                  exists q, In q qs /\ acknowledged q history = Some (Some e))).
  { intro history.
    destruct (sending_run (next_id w) P qs history w1 Hs) as [Hr Hst].
    assert (Hq : forall q, In q qs ->
              pstate q (run history w1) = settled_by (acknowledged q history)).
    { intros q Hin. now rewrite (Hst q Hin), (Hpend q Hin). }
    destruct Hr as (_ & _ & _ & _ & _ & _ & A & B & C). cbv beta in A, B, C.
    split; [|split].
    - rewrite A. split; intros H q Hin; specialize (H q Hin).
      + rewrite (Hq q Hin) in H. now apply settled_by_fulfilled.
      + rewrite (Hq q Hin). now apply settled_by_fulfilled.
    - split.
      + intros (e & He). destruct (B e He) as (q & Hin & Hr). exists q, e.
        split; [exact Hin|]. rewrite (Hq q Hin) in Hr. now apply settled_by_rejected.
      + intros (q & e & Hin & Ha). apply (C q e Hin). rewrite (Hq q Hin).
        now apply settled_by_rejected.
    - intros e He. destruct (B e He) as (q & Hin & Hr). exists q.
      split; [exact Hin|]. rewrite (Hq q Hin) in Hr. now apply settled_by_rejected. }
  split; [exact Heff|]. split; [|split; [|exact Hall]].
  - intros q Hin. destruct Hs as (_ & _ & _ & _ & _ & Hk & _).
    apply (owned_continuation_in_view (between (next_id w) (S P))). apply Hk.
    exists q. auto.
  - intro Em. apply (proj1 (Hall [])). intros q Hin. unfold qs in Hin.
    rewrite Em in Hin. destruct Hin.
Qed.

Lemma send_step_writes_and_awaits_witness :
  effects_since two_channels_one_track
    (snd (handle (SendStep None (text "Goodbye")) two_channels_one_track))
  = [Examined "channels"; Wrote 0 (text "Goodbye"); Wrote 1 (text "Goodbye")]
  /\ pstate 5 (run [write_returns 4 None; channel_opens "late" false; write_returns 3 None]
                 (snd (handle (SendStep None (text "Goodbye")) two_channels_one_track)))
     = Some Fulfilled
  /\ exists e, pstate 5 (run [write_returns 4 (Some "closed")]
                 (snd (handle (SendStep None (text "Goodbye")) two_channels_one_track)))
               = Some (Rejected e).
Proof.
  destruct (send_step_writes_and_awaits None (text "Goodbye") two_channels_one_track eq_refl)
    as (H1 & _ & _ & H4).
  split; [exact H1|]. split.
  - apply (proj1 (H4 _)). intros q [<-|[<-|[]]]; reflexivity.
  - apply (proj1 (proj2 (H4 _))). exists 4, "closed". split; [right; now left | reflexivity].
Defined.

(* ================================================================== *)
(** * Steps that await one call: wait-for-duration, close-connection *)

Lemma first_split {A : Type} (f : A -> bool) (l : list A) :
  existsb f l = true ->
  exists l1 x l2, l = l1 ++ x :: l2 /\ existsb f l1 = false /\ f x = true.
Proof.
  induction l as [|x l IH]; simpl; intro H; [discriminate|].
  destruct (f x) eqn:Hx.
  - exists [], x, l. now repeat split.
  - destruct (IH H) as (l1 & y & l2 & -> & H1 & Hy).
    exists (x :: l1), y, l2. simpl. rewrite Hx. now repeat split.
Qed.

Lemma run_cons (e : Event) (history : list Event) (w : World) :
  run (e :: history) w = run history (step e w).
Proof. apply forEach_cons. Qed.

(** Until its callback comes, a suspended [handle] stays where it is. *)
Lemma negotiating_until (p : nat) (k : Continuation) (history : list Event) :
  existsb (fun e => resumed_by e k) history = false ->
  forall w, negotiating p k w -> negotiating p k (run history w).
Proof.
  induction history as [|e h IH]; intros Hh w Hw; [exact Hw|].
  simpl in Hh. apply orb_false_iff in Hh as [He Hh].
  unfold run. rewrite forEach_cons. apply IH; [exact Hh|].
  now apply negotiating_step.
Qed.

(** A [handle] that has rejected with nothing left to run and no listener
    stays rejected, and never gets a listener. *)
Lemma rejected_for_good (p : nat) (e : Error) (w0 : World) (history : list Event) :
  good (only p) w0 ->
  v_registrations (view (only p) w0) = [] ->
  v_suspended (view (only p) w0) = [] ->
  pstate p w0 = None ->
  pstate p (run history (reject p e w0)) = Some (Rejected e)
  /\ v_registrations (view (only p) (run history (reject p e w0))) = []
  /\ v_suspended (view (only p) (run history (reject p e w0))) = [].
Proof.
  intros Hg Vr Vk Hp.
  assert (Ef := Settling_reject p e w0).
  set (wr := reject p e w0) in *.
  assert (Hgr : good (only p) wr).
  { apply (good_next (only p) w0); [exact Hg | | |]; rewrite Ef; reflexivity. }
  assert (Hi : idle (only p) wr).
  { split; simpl; rewrite Ef; [exact Vr | exact Vk]. }
  destruct (run_idle (only p) history wr Hgr Hi) as [_ (Hv & _)].
  split; [apply Monotone_run; now apply reject_rejects|].
  rewrite Hv. exact Hi.
Qed.

(** X1. A wait-for-duration step started in a well-formed world sets one
    timer, with its duration.  The promise of [handle] is fulfilled once
    that timer has fired, and is pending in every history in which it has
    not: no other event completes the step, and nothing rejects it. *)
Theorem wait_for_duration_completes_on_its_timer :
  forall (durationMs : nat) (w : World),
    wf w = true ->
    let p := fst (WaitForDurationStep_handle durationMs w) in
    let w1 := snd (WaitForDurationStep_handle durationMs w) in
    v_suspended (view (only p) w1) = [timer durationMs p]
    /\ (forall history, In (timer_fires p) history ->
          pstate p (run history w1) = Some Fulfilled)
    /\ (forall history, ~ In (timer_fires p) history ->
          pstate p (run history w1) = None).
Proof.
  intros durationMs w Hwf. unfold WaitForDurationStep_handle, new_Promise. simpl.
  set (p := next_id w). set (k := timer durationMs p).
  set (w1 := suspend k (set_next_id S w)).
  assert (Hn : negotiating p k w1).
  { destruct (fresh_start (only p) w w1 [] [k] Hwf) as (Hg & Vs & Vc & Vr & Vk);
      try reflexivity.
    - apply only_bounds; unfold p; simpl; lia.
    - simpl. now rewrite app_nil_r.
    - simpl. lia.
    - split; [exact Hg|]. split; [exact Vc|]. split; [exact Vr|]. split.
      + rewrite Vk. simpl. unfold owns_continuation, only. simpl.
        now rewrite Nat.eqb_refl.
      + apply (fresh_pending (only p)); [apply only_self | exact Vs]. }
  assert (Hres : forall e, resumed_by e k = true <-> e = timer_fires p).
  { intro e. split.
    - destruct e; simpl; try discriminate. intro H. apply Nat.eqb_eq in H. now subst.
    - intros ->. simpl. apply Nat.eqb_refl. }
  split; [exact (proj1 (proj2 (proj2 (proj2 Hn))))|]. split.
  - intros history Hin.
    assert (Hex : existsb (fun e => resumed_by e k) history = true).
    { apply existsb_exists. exists (timer_fires p). split; [exact Hin | now apply Hres]. }
    destruct (first_split _ _ Hex) as (h1 & e & h2 & -> & H1 & He).
    rewrite run_app. unfold run at 1. rewrite forEach_cons. fold (run h2).
    apply Monotone_run.
    destruct (negotiating_resumed p k e (run h1 w1) eq_refl
                (negotiating_until p k h1 H1 w1 Hn) He) as (E & _ & _ & _ & _ & Hp).
    rewrite E. apply Hres in He. subst e. simpl. apply resolve_fulfils. now left.
  - intros history Hnot.
    assert (Hex : existsb (fun e => resumed_by e k) history = false).
    { destruct (existsb _ history) eqn:Hex; [|reflexivity]. exfalso. apply Hnot.
      apply existsb_exists in Hex as (e & Hin & He). apply Hres in He. now subst. }
    exact (proj2 (proj2 (proj2 (proj2 (negotiating_until p k history Hex w1 Hn))))).
Qed.

Lemma wait_for_duration_completes_on_its_timer_witness :
  pstate 3 (run [channel_opens "late" false; timer_fires 3; connection_closes]
              (snd (WaitForDurationStep_handle 500 two_channels_one_track)))
  = Some Fulfilled
  /\ pstate 3 (run [channel_opens "late" false; connection_closes; timer_fires 2]
                 (snd (WaitForDurationStep_handle 500 two_channels_one_track)))
     = None.
Proof.
  destruct (wait_for_duration_completes_on_its_timer 500 two_channels_one_track eq_refl)
    as (_ & H1 & H2).
  split.
  - apply H1. right. now left.
  - apply H2. intros [H|[H|[H|[]]]]; discriminate.
Defined.

Lemma closed_with_cons (p : nat) (e : Event) (history : list Event) :
  resumed_by e (closing p) = false ->
  closed_with p (e :: history) = closed_with p history.
Proof.
  destruct e; try reflexivity. simpl. intro H. rewrite Nat.eqb_sym. now rewrite H.
Qed.

Lemma closing_run (p : nat) (history : list Event) :
  forall w, negotiating p (closing p) w ->
    pstate p (run history w) = settled_by (closed_with p history).
Proof.
  induction history as [|e h IH]; intros w Hw.
  - exact (proj2 (proj2 (proj2 (proj2 Hw)))).
  - unfold run. rewrite forEach_cons. fold (run h).
    destruct (resumed_by e (closing p)) eqn:He.
    + destruct (negotiating_resumed p (closing p) e w eq_refl Hw He)
        as (E & _ & _ & _ & _ & Hp).
      rewrite E. destruct e; try discriminate He. simpl in He.
      apply Nat.eqb_eq in He. subst p0. simpl. rewrite Nat.eqb_refl.
      destruct error as [err|]; simpl; apply Monotone_run.
      * now apply reject_rejects.
      * apply resolve_fulfils. now left.
    + rewrite (closed_with_cons p e h He). apply IH. now apply negotiating_step.
Qed.

(** X2. A close-connection step started in a well-formed world awaits the
    one call of [connection.close()]: whatever else happens, its promise is
    pending until that call comes back, then fulfilled if it came back
    without an error and rejected with the error if it came back with
    one; later callbacks change nothing. *)
Theorem close_step_settles_as_close_does :
  forall (w : World),
    wf w = true ->
    let p := fst (CloseStep_handle w) in
    let w1 := snd (CloseStep_handle w) in
    v_suspended (view (only p) w1) = [closing p]
    /\ forall history,
         pstate p (run history w1) = settled_by (closed_with p history).
Proof.
  intros w Hwf. unfold CloseStep_handle, new_Promise. simpl.
  set (p := next_id w). set (w1 := suspend (closing p) (set_next_id S w)).
  assert (Hn : negotiating p (closing p) w1).
  { destruct (fresh_start (only p) w w1 [] [closing p] Hwf) as (Hg & Vs & Vc & Vr & Vk);
      try reflexivity.
    - apply only_bounds; unfold p; simpl; lia.
    - simpl. now rewrite app_nil_r.
    - simpl. lia.
    - split; [exact Hg|]. split; [exact Vc|]. split; [exact Vr|]. split.
      + rewrite Vk. simpl. unfold owns_continuation, only. simpl.
        now rewrite Nat.eqb_refl.
      + apply (fresh_pending (only p)); [apply only_self | exact Vs]. }
  split; [exact (proj1 (proj2 (proj2 (proj2 Hn))))|].
  intro history. now apply closing_run.
Qed.

Lemma close_step_settles_as_close_does_witness :
  pstate 3 (run [connection_closes; close_returns 3 (Some "busy"); close_returns 3 None]
              (snd (CloseStep_handle two_channels_one_track)))
  = Some (Rejected "busy").
Proof.
  destruct (close_step_settles_as_close_does two_channels_one_track eq_refl) as [_ H].
  exact (H [connection_closes; close_returns 3 (Some "busy"); close_returns 3 None]).
Defined.

(* ================================================================== *)
(** * A dynamic-proxy step whose proxying cannot be set up *)

(** X3. A dynamic-proxy step is started in a well-formed world, and
    [connection.proxyTrafficToExternalConnection()] fails with [e].  The
    promise of [handle] is rejected with [e]; the step has subscribed to
    nothing, so that it stays rejected whatever happens later, the close of
    the connection included. *)
Theorem dynamic_proxy_fails_with_its_setup :
  forall (l : list nat) (w : World) (e : Error) (h1 h2 : list Event),
    wf w = true ->
    undisturbed (next_id w) h1 = true ->
    let p := snd (fst (DynamicProxyStep_handle l w)) in
    let w1 := snd (DynamicProxyStep_handle l w) in
    let w2 := run (h1 ++ proxy_setup_returns p (Some e) :: h2) w1 in
    pstate p w2 = Some (Rejected e)
    /\ v_registrations (view (only p) w2) = []
    /\ v_suspended (view (only p) w2) = [].
Proof.
  intros l w e h1 h2 Hwf Hh1.
  destruct (DynamicProxyStep_negotiating l w Hwf) as (_ & Ep & Hn).
  cbv zeta. rewrite Ep. set (p := next_id w) in *.
  set (w1 := snd (DynamicProxyStep_handle l w)) in *.
  set (k := after_proxyTrafficToExternalConnection p) in *.
  assert (Hb := negotiating_run p k h1 eq_refl Hh1 w1 Hn).
  destruct (negotiating_resumed p k (proxy_setup_returns p (Some e)) (run h1 w1) eq_refl Hb)
    as (E & Hg & _ & Vr & Vk & Hp); [simpl; apply Nat.eqb_refl|].
  rewrite run_app, run_cons, E. set (w0 := set_suspended _ (run h1 w1)) in *.
  change (resumption (proxy_setup_returns p (Some e)) k w0) with (reject p e w0).
  now apply rejected_for_good.
Qed.

Lemma dynamic_proxy_fails_with_its_setup_witness :
  pstate 3 (run ([channel_opens "late" false]
                 ++ proxy_setup_returns 3 (Some "no peer") :: [connection_closes])
              (snd (DynamicProxyStep_handle [] two_channels_one_track)))
  = Some (Rejected "no peer").
Proof.
  exact (proj1 (dynamic_proxy_fails_with_its_setup [] two_channels_one_track "no peer"
                  [channel_opens "late" false] [connection_closes] eq_refl eq_refl)).
Defined.

(* ================================================================== *)
(** * Waiting for a remote channel or track to open *)

Section Await.

Variables (p : nat) (k : StreamKind) (c : Closure) (once_ : bool) (M : string -> bool).

Hypothesis c_owner : owner c = p.

Hypothesis body_c : forall s,
  body c (Some s)
  = if M (ref_label s)
    then ((if once_ then skip else removeListener connection (remote_open_event k) c) ;;
          resolve p)
    else skip.

Hypothesis once_always : once_ = true -> forall l, M l = true.

Lemma awaiting_stable : Stable (only p) (awaiting p k c once_).
Proof.
  intros w w' (_ & Vc & Vk & Hp & Hr) Hg Hu. assert (Hv := proj1 Hu).
  unfold awaiting. rewrite Hv, (pstate_unchanged (only p) p w w' (only_self p) Hu).
  now split.
Qed.

Lemma completed_stable : Stable (only p) (completed p).
Proof.
  intros w w' (_ & Vc & Hi & Hp) Hg Hu. assert (Hv := proj1 Hu).
  unfold completed, idle. rewrite Hv, (pstate_unchanged (only p) p w w' (only_self p) Hu).
  now split.
Qed.

Lemma awaiting_good (w : World) : awaiting p k c once_ w -> good (only p) w.
Proof. intros (H & _). exact H. Qed.

Lemma completed_good (w : World) : completed p w -> good (only p) w.
Proof. intros (H & _). exact H. Qed.

(** A step that has completed stays as it is. *)
Lemma completed_run (history : list Event) (w : World) :
  completed p w -> completed p (run history w).
Proof.
  intro Hw. assert (H := Hw). destruct H as (Hg & _ & Hi & _).
  destruct (run_idle (only p) history w Hg Hi) as [Hg' Hu].
  exact (completed_stable w _ Hw Hg' Hu).
Qed.

(** The listener runs on a stream: the step completes, its listener
    removed, if the stream is one it waits for, and goes on waiting if
    not. *)
Lemma awaiting_invoke (s : StreamRef) (r : Registration) (w : World) :
  awaiting p k c once_ w -> In r (registrations w) ->
  owns_registration (only p) r = true ->
  (if M (ref_label s) then completed p else awaiting p k c once_) (invoke (Some s) r w).
Proof.
  intros (Hg & Vc & Vk & Hp & r0 & Vr & Ht & He & Hc & Ho) Hin Hown.
  assert (Er : r = r0).
  { assert (H : In r (v_registrations (view (only p) w)))
      by (apply owned_registration_in_view; now split).
    rewrite Vr in H. destruct H as [H|[]]. now symmetry. }
  subst r0.
  unfold invoke, andThen, call, andThen. rewrite Hc, Ho, body_c.
  destruct (M (ref_label s)) eqn:HM.
  - unfold andThen.
    set (wc := (if once_ then skip else removeListener connection (remote_open_event k) c)
                 (log (Called c (Some s)) ((if once_ then drop r else skip) w))).
    assert (Ef := Settling_resolve p wc).
    assert (Fn : next_id wc = next_id w) by (unfold wc; destruct once_; reflexivity).
    assert (Fs : settlements wc = settlements w) by (unfold wc; destruct once_; reflexivity).
    assert (Fc : combinators wc = combinators w) by (unfold wc; destruct once_; reflexivity).
    assert (Fk : suspended wc = suspended w) by (unfold wc; destruct once_; reflexivity).
    assert (Fi : forall k', ids k' wc = ids k' w)
      by (intro k'; unfold wc; destruct once_; reflexivity).
    assert (Fr : filter (owns_registration (only p)) (registrations wc) = []).
    { unfold wc. destruct once_; simpl.
      - rewrite filter_filter_comm.
        change (filter (owns_registration (only p)) (registrations w))
          with (v_registrations (view (only p) w)).
        rewrite Vr. simpl. now rewrite Registration_eqb_refl.
      - assert (El : filter (registered_as connection (remote_open_event k) c)
                       (registrations w)
                     = filter (registered_as connection (remote_open_event k) c)
                         (v_registrations (view (only p) w))).
        { simpl. symmetry. apply filter_filter_implies. intros x Hx.
          apply only_registration. rewrite (registered_as_owner _ _ _ _ Hx). exact c_owner. }
        change (fun r1 : Registration =>
                  listens connection (remote_open_event k) r1 && Closure_eqb (callback r1) c)
          with (registered_as connection (remote_open_event k) c).
        change (skip w) with w.
        rewrite remove_last_at_most_one by (rewrite El, Vr; simpl;
          destruct (registered_as _ _ _ r); simpl; lia).
        rewrite filter_filter_comm.
        change (filter (owns_registration (only p)) (registrations w))
          with (v_registrations (view (only p) w)).
        rewrite Vr. simpl.
        assert (Hreg : registered_as connection (remote_open_event k) c r = true)
          by (apply registered_as_iff; auto).
        now rewrite Hreg. }
    split; [|split; [|split]].
    + apply (good_next (only p) w); [exact Hg | | |]; rewrite Ef; simpl; auto. lia.
    + simpl. rewrite Ef. simpl. rewrite Fc. exact Vc.
    + split; simpl; rewrite Ef; simpl; [exact Fr | rewrite Fk; exact Vk].
    + apply resolve_fulfils. left. unfold pstate. rewrite Fs. exact Hp.
  - destruct once_ eqn:Eo; [rewrite (once_always eq_refl) in HM; discriminate|].
    unfold skip. split; [|split; [|split; [|split]]].
    + apply (good_next (only p) w); auto.
    + exact Vc.
    + exact Vk.
    + exact Hp.
    + exists r. auto.
Qed.

Lemma remote_is_not_open_event :
  String.eqb (remote_open_event k) (open_event k) = false.
Proof. destruct (StreamKind_cases k) as [Hk|Hk]; rewrite Hk; reflexivity. Qed.

Lemma remote_open_event_nth : nth 1 (open_events k false) "" = remote_open_event k.
Proof. destruct (StreamKind_cases k) as [Hk|Hk]; rewrite Hk; reflexivity. Qed.

(** Events that do not reach the listener leave the step waiting. *)
Lemma awaiting_quiet (e : Event) (w : World) :
  (forall r, target r = connection -> event r = remote_open_event k -> fires e r = false) ->
  awaiting p k c once_ w -> awaiting p k c once_ (step e w).
Proof.
  intros Hf Hw. assert (H := Hw). destruct H as (Hg & _ & Vk & _ & r0 & Vr & Ht & He & _).
  destruct (step_quiet (only p) e w Hg) as [Hg' Hu].
  - split.
    + intros r Hin Ho.
      assert (H : In r (v_registrations (view (only p) w)))
        by (apply owned_registration_in_view; now split).
      rewrite Vr in H. destruct H as [<-|[]]. now apply Hf.
    + intros k' Hin Ho. exfalso. exact (nothing_suspended _ _ _ Vk Hin Ho).
  - exact (awaiting_stable w _ Hw Hg' Hu).
Qed.

(** A remote stream of the awaited kind opens. *)
Lemma awaiting_opens (label : string) (w : World) :
  awaiting p k c once_ w ->
  (if M label then completed p else awaiting p k c once_) (opens k label false w).
Proof.
  intro Hw. assert (Hg := awaiting_good w Hw).
  destruct (opens_unfold (only p) k label false w Hg) as (w1 & E & Hg1 & Hu1 & _ & _).
  rewrite E, remote_open_event_nth. clear E.
  assert (Hw1 := awaiting_stable w w1 Hw Hg1 Hu1).
  set (s := {| ref_kind := k; ref_ident := next_id w; ref_label := label |}).
  destruct (emit_quiet (only p) connection (open_event k) (Some s) w1 Hg1) as [Hg2 Hu2].
  { intros r Hin Ho. destruct Hw1 as (_ & _ & _ & _ & r0 & Vr & Ht & He & _).
    assert (H : In r (v_registrations (view (only p) w1)))
      by (apply owned_registration_in_view; now split).
    rewrite Vr in H. destruct H as [<-|[]]. unfold listens. rewrite He.
    rewrite remote_is_not_open_event. apply andb_false_r. }
  assert (Hw2 := awaiting_stable w1 _ Hw1 Hg2 Hu2).
  set (w2 := emit connection (open_event k) (Some s) w1) in *.
  destruct Hw2 as (_ & Vc & Vk & Hp & r & Vr & Ht & He & Hc & Ho).
  assert (Hw2 : awaiting p k c once_ w2).
  { split; [exact Hg2|]. split; [exact Vc|]. split; [exact Vk|]. split; [exact Hp|].
    now exists r. }
  assert (Hin : In r (registrations w2) /\ owns_registration (only p) r = true).
  { apply owned_registration_in_view. rewrite Vr. now left. }
  set (J := fun w' => awaiting p k c once_ w' /\ In r (registrations w')).
  set (K := if M label then completed p else awaiting p k c once_).
  assert (J_stable : Stable (only p) J).
  { intros wx wy [Hx Hi] Hgy Huy. split; [exact (awaiting_stable wx wy Hx Hgy Huy)|].
    assert (H : In r (v_registrations (view (only p) wx)))
      by (apply owned_registration_in_view; split; [exact Hi | exact (proj2 Hin)]).
    rewrite <- (proj1 Huy) in H. now apply owned_registration_in_view in H as [H _]. }
  assert (K_stable : Stable (only p) K).
  { unfold K. destruct (M label); [exact completed_stable | exact awaiting_stable]. }
  assert (K_good : forall w', K w' -> good (only p) w').
  { unfold K. destruct (M label); [exact completed_good | exact awaiting_good]. }
  unfold emit.
  apply (invoke_single (only p) J K J_stable K_stable (fun w' H => awaiting_good w' (proj1 H))
           K_good (Some s) _ r).
  - rewrite filter_filter_comm.
    change (filter (owns_registration (only p)) (registrations w2))
      with (v_registrations (view (only p) w2)).
    rewrite Vr. simpl.
    assert (Hl : listens connection (remote_open_event k) r = true)
      by (apply listens_iff; now split).
    now rewrite Hl.
  - intros w' [Hw' Hi']. unfold K. change label with (ref_label s).
    apply awaiting_invoke; [exact Hw' | exact Hi' | exact (proj2 Hin)].
  - split; [exact Hw2 | exact (proj1 Hin)].
Qed.

(** Whatever happens, the step completes exactly when a remote stream it
    waits for opens. *)
Lemma awaiting_step (e : Event) (w : World) :
  awaiting p k c once_ w ->
  (if opens_remote k M e then completed p else awaiting p k c once_) (step e w).
Proof.
  intro Hw.
  assert (Hother : forall ev, String.eqb (remote_open_event k) ev = false ->
            forall r, target r = connection -> event r = remote_open_event k ->
                      listens connection ev r = false).
  { intros ev Hev r Ht He. unfold listens. rewrite He, Hev. apply andb_false_r. }
  assert (Hstream : forall k' i ev r, target r = connection ->
            listens (on_stream k' i) ev r = false).
  { intros k' i ev r Ht. unfold listens. now rewrite Ht. }
  destruct e as [label local|local|k' i|k' i| | | | | | | |st];
    try (apply awaiting_quiet; [|exact Hw]; intros r Ht He; simpl; auto;
         apply Hother; destruct (StreamKind_cases k) as [Hk|Hk]; rewrite Hk; reflexivity).
  - destruct (StreamKind_cases k) as [Hk|Hk]; destruct local.
    + replace (opens_remote k M (channel_opens label true)) with false
        by (rewrite Hk; reflexivity).
      apply awaiting_quiet; [|exact Hw]. intros r Ht He. simpl.
      rewrite !Hother; auto; rewrite Hk; reflexivity.
    + replace (opens_remote k M (channel_opens label false)) with (M label)
        by (rewrite Hk; reflexivity).
      change (step (channel_opens label false) w) with (opens DataChannel label false w).
      rewrite <- Hk. now apply awaiting_opens.
    + replace (opens_remote k M (channel_opens label true)) with false
        by (rewrite Hk; reflexivity).
      apply awaiting_quiet; [|exact Hw]. intros r Ht He. simpl.
      rewrite !Hother; auto; rewrite Hk; reflexivity.
    + replace (opens_remote k M (channel_opens label false)) with false
        by (rewrite Hk; reflexivity).
      apply awaiting_quiet; [|exact Hw]. intros r Ht He. simpl.
      rewrite !Hother; auto; rewrite Hk; reflexivity.
  - destruct (StreamKind_cases k) as [Hk|Hk]; destruct local.
    + replace (opens_remote k M (track_opens true)) with false
        by (rewrite Hk; reflexivity).
      apply awaiting_quiet; [|exact Hw]. intros r Ht He. simpl.
      rewrite !Hother; auto; rewrite Hk; reflexivity.
    + replace (opens_remote k M (track_opens false)) with false
        by (rewrite Hk; reflexivity).
      apply awaiting_quiet; [|exact Hw]. intros r Ht He. simpl.
      rewrite !Hother; auto; rewrite Hk; reflexivity.
    + replace (opens_remote k M (track_opens true)) with false
        by (rewrite Hk; reflexivity).
      apply awaiting_quiet; [|exact Hw]. intros r Ht He. simpl.
      rewrite !Hother; auto; rewrite Hk; reflexivity.
    + replace (opens_remote k M (track_opens false)) with (M "")
        by (rewrite Hk; reflexivity).
      change (step (track_opens false) w) with (opens MediaTrack "" false w).
      rewrite <- Hk. now apply awaiting_opens.
  - replace (opens_remote k M connection_closes) with false
      by (destruct (StreamKind_cases k) as [Hk|Hk]; rewrite Hk; reflexivity).
    apply awaiting_quiet; [|exact Hw]. intros r Ht He. simpl.
    apply Hother; auto. destruct (StreamKind_cases k) as [Hk|Hk]; rewrite Hk; reflexivity.
Qed.

Lemma awaiting_run (history : list Event) :
  forall w, awaiting p k c once_ w ->
    (if existsb (opens_remote k M) history then completed p else awaiting p k c once_)
      (run history w).
Proof.
  induction history as [|e h IH]; intros w Hw; [exact Hw|].
  rewrite run_cons. simpl. assert (Hs := awaiting_step e w Hw).
  destruct (opens_remote k M e); simpl; [now apply completed_run | now apply IH].
Qed.

(** Calling the listener by hand, as [handle] does on the streams that
    are already open. *)
Lemma awaiting_call (s : StreamRef) (w : World) :
  once_ = false -> awaiting p k c once_ w ->
  (if M (ref_label s) then completed p else awaiting p k c once_) (call c (Some s) w).
Proof.
  intros Eo Hw. assert (H := Hw). destruct H as (_ & _ & _ & _ & r & Vr & _ & _ & Hc & Ho).
  assert (Hin : In r (registrations w) /\ owns_registration (only p) r = true).
  { apply owned_registration_in_view. rewrite Vr. now left. }
  assert (E : call c (Some s) w = invoke (Some s) r w).
  { unfold invoke, andThen. rewrite Hc, Ho, Eo. reflexivity. }
  rewrite E. apply awaiting_invoke; [exact Hw | exact (proj1 Hin) | exact (proj2 Hin)].
Qed.

Lemma completed_call (s : StreamRef) (w : World) :
  completed p w -> completed p (call c (Some s) w).
Proof.
  intros (Hg & Vc & [Vr Vk] & Hp). unfold call, andThen. rewrite body_c.
  destruct (M (ref_label s)).
  - unfold andThen.
    set (wc := (if once_ then skip else removeListener connection (remote_open_event k) c)
                 (log (Called c (Some s)) w)).
    assert (Ef := Settling_resolve p wc).
    assert (Fn : next_id wc = next_id w) by (unfold wc; destruct once_; reflexivity).
    assert (Fs : settlements wc = settlements w) by (unfold wc; destruct once_; reflexivity).
    assert (Fc : combinators wc = combinators w) by (unfold wc; destruct once_; reflexivity).
    assert (Fk : suspended wc = suspended w) by (unfold wc; destruct once_; reflexivity).
    assert (Fi : forall k', ids k' wc = ids k' w)
      by (intro k'; unfold wc; destruct once_; reflexivity).
    assert (Fr : filter (owns_registration (only p)) (registrations wc) = []).
    { unfold wc. destruct once_; simpl; [exact Vr|].
      assert (El : filter (registered_as connection (remote_open_event k) c)
                     (registrations w) = []).
      { rewrite <- (filter_filter_implies _ (owns_registration (only p))).
        - change (filter (owns_registration (only p)) (registrations w))
            with (v_registrations (view (only p) w)).
          now rewrite Vr.
        - intros x Hx. apply only_registration.
          rewrite (registered_as_owner _ _ _ _ Hx). exact c_owner. }
      change (fun r1 : Registration =>
                listens connection (remote_open_event k) r1 && Closure_eqb (callback r1) c)
        with (registered_as connection (remote_open_event k) c).
      rewrite remove_last_at_most_one by (rewrite El; simpl; lia).
      rewrite filter_filter_comm.
      change (filter (owns_registration (only p)) (registrations w))
        with (v_registrations (view (only p) w)).
      now rewrite Vr. }
    split; [|split; [|split]].
    + apply (good_next (only p) w); [exact Hg | | |]; rewrite Ef; simpl; auto. lia.
    + simpl. rewrite Ef. simpl. rewrite Fc. exact Vc.
    + split; simpl; rewrite Ef; simpl; [exact Fr | rewrite Fk; exact Vk].
    + apply Monotone_resolve. unfold pstate. rewrite Fs. exact Hp.
  - unfold skip. split; [|split; [|split]].
    + apply (good_next (only p) w); auto.
    + exact Vc.
    + split; [exact Vr | exact Vk].
    + exact Hp.
Qed.

Lemma call_loop (l : list StreamRef) :
  once_ = false ->
  forall w, awaiting p k c once_ w ->
    (if existsb (fun s => M (ref_label s)) l then completed p else awaiting p k c once_)
      (forEach l (fun s => call c (Some s)) w).
Proof.
  intro Eo. induction l as [|s l IH]; intros w Hw; [exact Hw|].
  rewrite forEach_cons. simpl. assert (Hs := awaiting_call s w Eo Hw).
  destruct (M (ref_label s)); simpl; [|now apply IH].
  apply (forEach_preserves (completed p)); [|exact Hs].
  intros x w' _ Hw'. now apply completed_call.
Qed.

End Await.

Lemma matchesChannel_label (channelLabel : option string) (s : StreamRef) :
  matchesChannel channelLabel (Some s) = matches_label channelLabel (ref_label s).
Proof. now destruct channelLabel. Qed.

Lemma existsb_matches (channelLabel : option string) (l : list StreamRef) :
  existsb (fun channel => matchesChannel channelLabel (Some channel)) l
  = existsb (fun s => matches_label channelLabel (ref_label s)) l.
Proof.
  induction l as [|s l IH]; simpl; [reflexivity|].
  now rewrite IH, matchesChannel_label.
Qed.

Lemma channelOpened_body (channelLabel : option string) (p : nat) (s : StreamRef) :
  body (channelOpened channelLabel p) (Some s)
  = if matches_label channelLabel (ref_label s)
    then ((if false then skip
           else removeListener connection (remote_open_event DataChannel)
                  (channelOpened channelLabel p)) ;;
          resolve p)
    else skip.
Proof. simpl. now rewrite matchesChannel_label. Qed.

(** Where a wait-for-channel step stands when [handle] returns. *)
Lemma WaitForChannelStep_starts (channelLabel : option string) (w : World) :
  wf w = true ->
  (if existsb (fun s => matches_label channelLabel (ref_label s)) (remoteChannels w)
   then completed (next_id w)
   else awaiting (next_id w) DataChannel (channelOpened channelLabel (next_id w)) false)
    (snd (WaitForChannelStep_handle channelLabel w)).
Proof.
  intro Hwf. unfold WaitForChannelStep_handle, new_Promise, fresh. cbn [snd].
  set (p := next_id w). set (c := channelOpened channelLabel p).
  unfold andThen, forEach_of.
  set (wa := on connection "remote-channel-open" c (set_next_id S w)).
  set (r := {| reg_id := S (next_id w); target := connection;
               event := "remote-channel-open"; callback := c; is_once := false |}).
  destruct (fresh_start (only p) w wa [r] [] Hwf) as (Hg & Vs & Vc & Vr & Vk);
    try reflexivity.
  { apply only_bounds; [unfold p; lia | unfold wa; simpl; lia]. }
  { simpl. now rewrite app_nil_r. }
  { unfold wa. simpl. lia. }
  assert (Hwa : awaiting p DataChannel c false wa).
  { split; [exact Hg|]. split; [exact Vc|]. split; [exact Vk|].
    split; [apply (fresh_pending (only p)); [apply only_self | exact Vs]|].
    exists r. rewrite Vr. simpl. unfold owns_registration, only. simpl.
    rewrite Nat.eqb_refl. repeat split. }
  assert (Hwb : awaiting p DataChannel c false (log (Examined "remoteChannels") wa)).
  { destruct (Frame_log (only p) (Examined "remoteChannels") eq_refl wa Hg) as [Hg' Hu].
    exact (awaiting_stable p DataChannel c false wa _ Hwa Hg' Hu). }
  change (remoteChannels wa) with (remoteChannels w).
  exact (call_loop p DataChannel c false (matches_label channelLabel) eq_refl
           (channelOpened_body channelLabel p) (fun H => False_ind _ (diff_false_true H))
           (remoteChannels w) eq_refl _ Hwb).
Qed.

(** X4. A wait-for-channel step is started in a well-formed world.  The
    promise of [handle] is fulfilled exactly when a remote channel
    matching the label filter was open at the start or has opened since;
    channels opened locally, channels with another label, media tracks,
    data and the close of the connection never complete the step, and
    nothing rejects it.  While it is pending the step has one listener,
    and none once it has completed. *)
Theorem wait_for_channel_completes_on_first_match :
  forall (channelLabel : option string) (w : World),
    wf w = true ->
    let p := fst (WaitForChannelStep_handle channelLabel w) in
    let w1 := snd (WaitForChannelStep_handle channelLabel w) in
    forall history,
      pstate p (run history w1)
      = (if existsb (fun channel => matchesChannel channelLabel (Some channel))
              (remoteChannels w)
            || existsb (opens_remote DataChannel (matches_label channelLabel)) history
         then Some Fulfilled else None)
      /\ List.length (v_registrations (view (only p) (run history w1)))
         = (if existsb (fun channel => matchesChannel channelLabel (Some channel))
                 (remoteChannels w)
               || existsb (opens_remote DataChannel (matches_label channelLabel)) history
            then 0 else 1).
Proof.
  intros channelLabel w Hwf p w1 history.
  assert (Hs := WaitForChannelStep_starts channelLabel w Hwf).
  change (fst (WaitForChannelStep_handle channelLabel w)) with (next_id w) in p.
  fold w1 in Hs. fold p in Hs. rewrite existsb_matches.
  set (c := channelOpened channelLabel p) in *.
  assert (Hdone : forall w', completed p w' ->
            pstate p w' = Some Fulfilled
            /\ List.length (v_registrations (view (only p) w')) = 0).
  { intros w' (_ & _ & [Vr _] & Hp). now rewrite Vr. }
  destruct (existsb _ (remoteChannels w)); simpl.
  - apply Hdone. now apply completed_run.
  - assert (Hr := awaiting_run p DataChannel c false (matches_label channelLabel) eq_refl
                    (channelOpened_body channelLabel p)
                    (fun H => False_ind _ (diff_false_true H)) history w1 Hs).
    destruct (existsb _ history); [now apply Hdone|].
    destruct Hr as (_ & _ & _ & Hp & r & Vr & _). split; [exact Hp|].
    change (List.length (v_registrations (view (only p) (run history w1))) = 1).
    now rewrite Vr.
Qed.

Lemma wait_for_channel_completes_on_first_match_witness :
  pstate 3 (run [channel_opens "files" true; channel_opens "chat" false;
                 track_opens false; connection_closes]
              (snd (WaitForChannelStep_handle (Some "files") two_channels_one_track)))
  = None
  /\ pstate 3 (run [channel_opens "chat" false; channel_opens "files" false]
                 (snd (WaitForChannelStep_handle (Some "files") two_channels_one_track)))
     = Some Fulfilled.
Proof.
  split.
  - exact (proj1 (wait_for_channel_completes_on_first_match (Some "files")
                    two_channels_one_track eq_refl
                    [channel_opens "files" true; channel_opens "chat" false;
                     track_opens false; connection_closes])).
  - exact (proj1 (wait_for_channel_completes_on_first_match (Some "files")
                    two_channels_one_track eq_refl
                    [channel_opens "chat" false; channel_opens "files" false])).
Defined.

Lemma trackOpened_body (p : nat) (s : StreamRef) :
  body (trackOpened p) (Some s)
  = if (fun _ : string => true) (ref_label s)
    then ((if true then skip
           else removeListener connection (remote_open_event MediaTrack) (trackOpened p)) ;;
          resolve p)
    else skip.
Proof. reflexivity. Qed.

(** Where a wait-for-track step stands when [handle] returns. *)
Lemma WaitForTrackStep_starts (w : World) :
  wf w = true ->
  (if Nat.ltb 0 (List.length (remoteMediaTracks w))
   then completed (next_id w)
   else awaiting (next_id w) MediaTrack (trackOpened (next_id w)) true)
    (snd (WaitForTrackStep_handle w)).
Proof.
  intro Hwf. unfold WaitForTrackStep_handle, new_Promise, fresh. cbn [snd]. cbv zeta.
  set (p := next_id w).
  set (w2 := log (Examined "remoteMediaTracks") (set_next_id S w)).
  change (remoteMediaTracks w2) with (remoteMediaTracks w).
  destruct (Nat.ltb 0 (List.length (remoteMediaTracks w))).
  - destruct (fresh_start (only p) w w2 [] [] Hwf) as (Hg & Vs & Vc & Vr & Vk);
      try reflexivity.
    { apply only_bounds; [unfold p; lia | unfold w2; simpl; lia]. }
    { simpl. now rewrite app_nil_r. }
    { simpl. now rewrite app_nil_r. }
    { unfold w2. simpl. lia. }
    assert (Ef := Settling_resolve p w2).
    split; [|split; [|split]].
    + apply (good_next (only p) w2); [exact Hg | | |]; rewrite Ef; simpl; auto.
    + simpl. rewrite Ef. exact Vc.
    + split; simpl; rewrite Ef; [exact Vr | exact Vk].
    + apply resolve_fulfils. left.
      apply (fresh_pending (only p)); [apply only_self | exact Vs].
  - set (wa := once connection "remote-track-open" (trackOpened p) w2).
    set (r := {| reg_id := S (next_id w); target := connection;
                 event := "remote-track-open"; callback := trackOpened p;
                 is_once := true |}).
    destruct (fresh_start (only p) w wa [r] [] Hwf) as (Hg & Vs & Vc & Vr & Vk);
      try reflexivity.
    { apply only_bounds; [unfold p; lia | unfold wa; simpl; lia]. }
    { simpl. now rewrite app_nil_r. }
    { unfold wa. simpl. lia. }
    split; [exact Hg|]. split; [exact Vc|]. split; [exact Vk|].
    split; [apply (fresh_pending (only p)); [apply only_self | exact Vs]|].
    exists r. rewrite Vr. simpl. unfold owns_registration, only. simpl.
    rewrite Nat.eqb_refl. repeat split.
Qed.

(** X5. A wait-for-track step is started in a well-formed world.  The
    promise of [handle] is fulfilled exactly when a remote media track was
    open at the start or has opened since; tracks opened locally, data
    channels, data and the close of the connection never complete the
    step, and nothing rejects it.  The step has a listener only if no
    remote track was open at the start, and only until the first one
    opens. *)
Theorem wait_for_track_completes_on_first_remote_track :
  forall (w : World),
    wf w = true ->
    let p := fst (WaitForTrackStep_handle w) in
    let w1 := snd (WaitForTrackStep_handle w) in
    forall history,
      pstate p (run history w1)
      = (if Nat.ltb 0 (List.length (remoteMediaTracks w))
            || existsb (opens_remote MediaTrack (fun _ => true)) history
         then Some Fulfilled else None)
      /\ List.length (v_registrations (view (only p) (run history w1)))
         = (if Nat.ltb 0 (List.length (remoteMediaTracks w))
               || existsb (opens_remote MediaTrack (fun _ => true)) history
            then 0 else 1).
Proof.
  intros w Hwf p w1 history.
  assert (Hs := WaitForTrackStep_starts w Hwf).
  change (fst (WaitForTrackStep_handle w)) with (next_id w) in p.
  fold w1 in Hs. fold p in Hs.
  assert (Hdone : forall w', completed p w' ->
            pstate p w' = Some Fulfilled
            /\ List.length (v_registrations (view (only p) w')) = 0).
  { intros w' (_ & _ & [Vr _] & Hp). now rewrite Vr. }
  destruct (Nat.ltb 0 (List.length (remoteMediaTracks w))); simpl.
  - apply Hdone. now apply completed_run.
  - assert (Hr := awaiting_run p MediaTrack (trackOpened p) true (fun _ => true) eq_refl
                    (trackOpened_body p) (fun _ _ => eq_refl) history w1 Hs).
    destruct (existsb _ history); [now apply Hdone|].
    destruct Hr as (_ & _ & _ & Hp & r & Vr & _). split; [exact Hp|].
    change (List.length (v_registrations (view (only p) (run history w1))) = 1).
    now rewrite Vr.
Qed.

Lemma wait_for_track_completes_on_first_remote_track_witness :
  pstate 0 (run [track_opens true; channel_opens "chat" false; connection_closes]
              (snd (WaitForTrackStep_handle new_world)))
  = None
  /\ pstate 0 (run [track_opens true; track_opens false]
                 (snd (WaitForTrackStep_handle new_world)))
     = Some Fulfilled.
Proof.
  split.
  - exact (proj1 (wait_for_track_completes_on_first_remote_track new_world eq_refl
                    [track_opens true; channel_opens "chat" false; connection_closes])).
  - exact (proj1 (wait_for_track_completes_on_first_remote_track new_world eq_refl
                    [track_opens true; track_opens false])).
Defined.

(* ================================================================== *)
(** * What [dispose] closes, and what [handle] leaves alone *)

Lemma closes_all (l : list nat) (i : nat) :
  forall w, is_open i (forEach l close w) = is_open i w && negb (existsb (Nat.eqb i) l).
Proof.
  induction l as [|d l IH]; intro w.
  - rewrite forEach_nil. simpl. now rewrite andb_true_r.
  - rewrite forEach_cons, IH, is_open_close. simpl. rewrite negb_orb.
    now rewrite andb_assoc.
Qed.

Lemma close_fields (d : nat) (w : World) :
  close d w = set_externalConns (fun _ => externalConns (close d w)) w
  /\ map conn_id (externalConns (close d w)) = map conn_id (externalConns w)
  /\ map remoteDescription (externalConns (close d w))
     = map remoteDescription (externalConns w).
Proof.
  split; [now destruct w|]. unfold close, update_conn. simpl. rewrite !map_map.
  split; apply map_ext; intro c; now destruct (Nat.eqb (conn_id c) d).
Qed.

Lemma closes_fields (l : list nat) :
  forall w,
    forEach l close w = set_externalConns (fun _ => externalConns (forEach l close w)) w
    /\ map conn_id (externalConns (forEach l close w)) = map conn_id (externalConns w)
    /\ map remoteDescription (externalConns (forEach l close w))
       = map remoteDescription (externalConns w).
Proof.
  induction l as [|d l IH]; intro w; [now destruct w|].
  rewrite forEach_cons. destruct (IH (close d w)) as (A & B & C).
  destruct (close_fields d w) as (A' & B' & C').
  split; [|split; congruence].
  etransitivity; [exact A|].
  generalize (externalConns (forEach l close (close d w))). intro x.
  now rewrite A'.
Qed.

(** X6. [dispose] of a step closes the external connections recorded in
    its [externalConnections] and no other: a connection is open
    afterwards exactly if it was open before and is not one of them.  It
    removes no connection, keeps their remote descriptions, and touches
    nothing else of the world; for the steps without external connections
    it does nothing at all. *)
Theorem dispose_closes_its_connections_only :
  forall (s : HandlerStep) (w : World),
    (forall i, is_open i (dispose s w)
               = is_open i w && negb (existsb (Nat.eqb i) (externalConnections_of s)))
    /\ map conn_id (externalConns (dispose s w)) = map conn_id (externalConns w)
    /\ map remoteDescription (externalConns (dispose s w))
       = map remoteDescription (externalConns w)
    /\ dispose s w = set_externalConns (fun _ => externalConns (dispose s w)) w
    /\ (externalConnections_of s = [] -> dispose s w = w).
Proof.
  intros s w.
  assert (H : dispose s w = forEach (externalConnections_of s) close w)
    by (destruct s; reflexivity).
  rewrite H. destruct (closes_fields (externalConnections_of s) w) as (A & B & C).
  split; [intro i; apply closes_all|]. split; [exact B|]. split; [exact C|].
  split; [exact A|]. intro E. now rewrite E.
Qed.

(** X7. Starting a step, whichever it is, leaves alone what belongs to
    the promises that exist already ([own] picks any of them, together
    with the [Promise.all]s over them): their settlements, their
    listeners on the connection and on its streams, the callbacks they
    wait for, and the calls their listeners have received are the same
    after [handle] as before. *)
Theorem handle_leaves_other_steps_alone :
  forall (s : HandlerStep) (own : nat -> bool) (w : World),
    good own w ->
    view own (snd (handle s w)) = view own w
    /\ good own (snd (handle s w)).
Proof.
  intros s own w Hg. destruct (Frame_handle own s w Hg) as [Hg' (Hv & _)].
  split; [exact Hv | exact Hg'].
Qed.

Lemma handle_leaves_other_steps_alone_witness :
  view (only 0) (snd (handle (WaitForMessageStep None) (snd (EchoStep_handle new_world))))
  = view (only 0) (snd (EchoStep_handle new_world)).
Proof.
  exact (proj1 (handle_leaves_other_steps_alone (WaitForMessageStep None) (only 0)
                  (snd (EchoStep_handle new_world))
                  (parked_good 0 _ (proj2 (EchoStep_parked new_world eq_refl))))).
Defined.

(* ================================================================== *)
(** * The streams of the connection only change by opening *)

Create HintDb steady.

Lemma same_stream_refl (t : Tracked) : same_stream t t.
Proof. repeat split; auto. Qed.

Lemma same_stream_trans (a b c : Tracked) :
  same_stream a b -> same_stream b c -> same_stream a c.
Proof.
  intros (A1 & A2 & A3 & A4) (B1 & B2 & B3 & B4).
  unfold same_stream. repeat split; try congruence. auto.
Qed.

Lemma Forall2_same_refl (l : list Tracked) : Forall2 same_stream l l.
Proof. induction l; constructor; auto using same_stream_refl. Qed.

Lemma Forall2_same_trans (l1 : list Tracked) :
  forall l2 l3, Forall2 same_stream l1 l2 -> Forall2 same_stream l2 l3 ->
    Forall2 same_stream l1 l3.
Proof.
  induction l1 as [|a l1 IH]; intros l2 l3 H12 H23.
  - inversion H12; subst. inversion H23; subst. constructor.
  - inversion H12 as [|? b ? l2' Hab H12']; subst.
    inversion H23 as [|? c ? l3' Hbc H23']; subst.
    constructor; [eapply same_stream_trans; eauto | eapply IH; eauto].
Qed.

Lemma steady_refl (w : World) : steady w w.
Proof.
  split; [intro k; apply Forall2_same_refl|]. exists []. now rewrite app_nil_r.
Qed.

Lemma steady_trans (w1 w2 w3 : World) : steady w1 w2 -> steady w2 w3 -> steady w1 w3.
Proof.
  intros [A (x & Ax)] [B (y & By)]. split.
  - intro k. eapply Forall2_same_trans; [apply A | apply B].
  - exists (x ++ y). now rewrite By, Ax, app_assoc.
Qed.

Lemma steady_fields (w w' : World) :
  trackedChannels w' = trackedChannels w ->
  trackedMediaTracks w' = trackedMediaTracks w ->
  externalConns w' = externalConns w ->
  steady w w'.
Proof.
  intros A B C. split.
  - intro k. destruct k; simpl; [rewrite A | rewrite B]; apply Forall2_same_refl.
  - exists []. now rewrite C, app_nil_r.
Qed.

Lemma Steady_skip : Steady skip.
Proof. intro w. apply steady_refl. Qed.

Lemma Steady_andThen (f g : Stmt) : Steady f -> Steady g -> Steady (f ;; g).
Proof. intros Hf Hg w. unfold andThen. eapply steady_trans; [apply Hf | apply Hg]. Qed.

Lemma Steady_forEach {A : Type} (l : list A) (f : A -> Stmt) :
  (forall x, Steady (f x)) -> Steady (forEach l f).
Proof.
  intros Hf w. apply (forEach_preserves (steady w)); [|apply steady_refl].
  intros x w' _ H. eapply steady_trans; [exact H | apply Hf].
Qed.

Lemma Settling_Steady (f : Stmt) : Settling f -> Steady f.
Proof. intros H w. rewrite (H w). now apply steady_fields. Qed.

Lemma Steady_log (e : Effect) : Steady (log e).
Proof. intro w. now apply steady_fields. Qed.

Lemma Steady_set_next_id (f : nat -> nat) : Steady (set_next_id f).
Proof. intro w. now apply steady_fields. Qed.

Lemma Steady_subscribe (o : bool) (t : Target) (ev : string) (c : Closure) :
  Steady (subscribe o t ev c).
Proof. intro w. now apply steady_fields. Qed.

Lemma Steady_removeListener (t : Target) (ev : string) (c : Closure) :
  Steady (removeListener t ev c).
Proof. intro w. now apply steady_fields. Qed.

Lemma Steady_drop (r : Registration) : Steady (drop r).
Proof. intro w. now apply steady_fields. Qed.

Lemma Steady_suspend (k : Continuation) : Steady (suspend k).
Proof. intro w. now apply steady_fields. Qed.

Lemma Steady_set_suspended (f : list Continuation -> list Continuation) :
  Steady (set_suspended f).
Proof. intro w. now apply steady_fields. Qed.

Lemma Steady_set_combinators (f : list PromiseAll -> list PromiseAll) :
  Steady (set_combinators f).
Proof. intro w. now apply steady_fields. Qed.

Lemma Steady_proxyTrafficTo (i : nat) : Steady (proxyTrafficTo i).
Proof. intro w. now apply steady_fields. Qed.

Lemma Steady_settle (q : nat) (s : Settlement) : Steady (settle q s).
Proof. apply Settling_Steady, Settling_settle. Qed.

Lemma Steady_all_done (c : PromiseAll) : Steady (all_done c).
Proof. apply Settling_Steady, Settling_all_done. Qed.

Lemma Steady_resolve (q : nat) : Steady (resolve q).
Proof. apply Settling_Steady, Settling_resolve. Qed.

Lemma Steady_reject (q : nat) (e : Error) : Steady (reject q e).
Proof. apply Settling_Steady, Settling_reject. Qed.

Lemma Steady_settle_or_reject (q : nat) (e : option Error) : Steady (settle_or_reject q e).
Proof. apply Settling_Steady, Settling_settle_or_reject. Qed.

Lemma update_in_same (i : nat) (f : Stream -> Stream) (l : list Tracked) :
  (forall st, ident (f st) = ident st /\ label (f st) = label st
              /\ (piped st = true -> piped (f st) = true)) ->
  Forall2 same_stream l (update_in i f l).
Proof.
  intro Hf. induction l as [|t l IH]; simpl; constructor; [|exact IH].
  destruct (Nat.eqb (ident (stream t)) i); [|apply same_stream_refl].
  destruct (Hf (stream t)) as (A & B & C). repeat split; auto.
Qed.

Lemma Steady_update_stream (k : StreamKind) (i : nat) (f : Stream -> Stream) :
  (forall st, ident (f st) = ident st /\ label (f st) = label st
              /\ (piped st = true -> piped (f st) = true)) ->
  Steady (update_stream k i f).
Proof.
  intros Hf w. split.
  - intro k'. destruct k, k'; simpl;
      try apply Forall2_same_refl; now apply update_in_same.
  - exists []. rewrite app_nil_r. now destruct k.
Qed.

Lemma Steady_pause (s : StreamRef) : Steady (pause s).
Proof. apply Steady_update_stream. intro st. repeat split; auto. Qed.

Lemma Steady_resume (k : StreamKind) (i : nat) : Steady (resume k i).
Proof. apply Steady_update_stream. intro st. repeat split; auto. Qed.

Lemma Steady_pipe (s : StreamRef) : Steady (pipe s).
Proof. apply Steady_update_stream. intro st. repeat split; auto. Qed.

Lemma Steady_update_conn (i : nat) (f : RTCConnection -> RTCConnection) :
  (forall c, conn_id (f c) = conn_id c) -> Steady (update_conn i f).
Proof.
  intros Hf w. split; [intro k; destruct k; apply Forall2_same_refl|].
  exists []. rewrite app_nil_r. unfold update_conn. simpl. rewrite map_map.
  apply map_ext. intro c. destruct (Nat.eqb (conn_id c) i); auto.
Qed.

Lemma Steady_setRemoteDescription (i : nat) (a : RTCSessionDescriptionInit) :
  Steady (setRemoteDescription i a).
Proof. apply Steady_update_conn. reflexivity. Qed.

Lemma Steady_new_RTCConnection : Steady (fun w => snd (new_RTCConnection w)).
Proof.
  intro w. split; [intro k; destruct k; apply Forall2_same_refl|].
  eexists. simpl. rewrite map_app. reflexivity.
Qed.

#[local] Hint Resolve Steady_skip Steady_andThen Steady_forEach Steady_log
  Steady_set_next_id Steady_subscribe Steady_removeListener Steady_drop Steady_suspend
  Steady_set_suspended Steady_set_combinators Steady_proxyTrafficTo Steady_settle
  Steady_all_done Steady_resolve Steady_reject Steady_settle_or_reject Steady_pause
  Steady_resume Steady_pipe Steady_setRemoteDescription : steady.

Lemma Steady_on (t : Target) (ev : string) (c : Closure) : Steady (on t ev c).
Proof. apply Steady_subscribe. Qed.

Lemma Steady_once (t : Target) (ev : string) (c : Closure) : Steady (once t ev c).
Proof. apply Steady_subscribe. Qed.

#[local] Hint Resolve Steady_on Steady_once : steady.

Lemma Steady_forEach_of (name : string) (coll : World -> list StreamRef)
  (f : StreamRef -> Stmt) :
  (forall x, Steady (f x)) -> Steady (forEach_of name coll f).
Proof.
  intros Hf w. unfold forEach_of.
  eapply steady_trans; [apply Steady_log | now apply Steady_forEach].
Qed.

#[local] Hint Resolve Steady_forEach_of : steady.

Lemma Steady_body (c : Closure) (arg : option StreamRef) : Steady (body c arg).
Proof.
  destruct c; simpl;
    repeat match goal with
           | |- Steady (if ?b then _ else _) => destruct b
           | |- Steady (match ?a with Some _ => _ | None => _ end) => destruct a
           end;
    auto 8 with steady.
Qed.

Lemma Steady_call (c : Closure) (arg : option StreamRef) : Steady (call c arg).
Proof. unfold call. auto using Steady_body with steady. Qed.

Lemma Steady_invoke (arg : option StreamRef) (r : Registration) : Steady (invoke arg r).
Proof.
  unfold invoke. apply Steady_andThen; [|apply Steady_call].
  destruct (is_once r); auto with steady.
Qed.

Lemma Steady_emit (t : Target) (ev : string) (arg : option StreamRef) :
  Steady (emit t ev arg).
Proof. intro w. unfold emit. apply Steady_forEach. apply Steady_invoke. Qed.

Lemma Steady_take (sel : Continuation -> bool) (k : Continuation -> Stmt) :
  (forall c, Steady (k c)) -> Steady (take sel k).
Proof.
  intros Hk w. unfold take.
  eapply steady_trans; [apply Steady_set_suspended | now apply Steady_forEach].
Qed.

Lemma Steady_new_Promise (executor : nat -> Stmt) :
  (forall p, Steady (executor p)) -> Steady (fun w => snd (new_Promise executor w)).
Proof.
  intros He w. simpl. eapply steady_trans; [apply (Steady_set_next_id S) | apply He].
Qed.

Lemma Steady_new_Promises {A : Type} (l : list A) (executor : A -> nat -> Stmt) :
  (forall x p, Steady (executor x p)) ->
  Steady (fun w => snd (new_Promises l executor w)).
Proof.
  intros He. induction l as [|x l IH]; intro w; [apply steady_refl|].
  simpl. destruct (new_Promises l executor _) as [qs w2] eqn:E. simpl.
  change w2 with (snd (qs, w2)). rewrite <- E.
  eapply steady_trans; [|apply IH].
  eapply steady_trans; [apply (Steady_set_next_id S) | apply He].
Qed.

Lemma Steady_Promise_all (elements : list nat) :
  Steady (fun w => snd (Promise_all elements w)).
Proof.
  intro w. unfold Promise_all. simpl.
  eapply steady_trans; [apply (Steady_set_next_id S)|].
  eapply steady_trans; [apply Steady_set_combinators|].
  destruct (first_rejection _ _); [apply Steady_settle | apply Steady_all_done].
Qed.

Lemma Steady_PeerProxyStep_handle_1
  (getAnswer : RTCSessionDescriptionInit -> Eventually RTCSessionDescriptionInit)
  (externalConn p : nat) (externalOffer : RTCSessionDescriptionInit + Error) :
  Steady (PeerProxyStep_handle_1 getAnswer externalConn p externalOffer).
Proof. destruct externalOffer; simpl; auto with steady. Qed.

Lemma Steady_PeerProxyStep_handle_2 (externalConn p : nat)
  (answer : Eventually RTCSessionDescriptionInit) :
  Steady (PeerProxyStep_handle_2 externalConn p answer).
Proof. destruct answer; simpl; auto 6 with steady. Qed.

Lemma Steady_DynamicProxyStep_handle_1 (p : nat) (error : option Error) :
  Steady (DynamicProxyStep_handle_1 p error).
Proof. destruct error; simpl; auto with steady. Qed.

Lemma Steady_handle (s : HandlerStep) : Steady (fun w => snd (handle s w)).
Proof.
  destruct s; intro w; simpl.
  - apply (Steady_new_Promise (fun p => suspend (timer durationMs p))); auto with steady.
  - apply (Steady_new_Promise (fun p =>
      on connection "remote-channel-open" (channelOpened channelLabel p) ;;
      forEach_of "remoteChannels" remoteChannels (fun channel =>
        call (channelOpened channelLabel p) (Some channel))));
      auto 6 using Steady_call with steady.
  - apply (Steady_new_Promise (fun p =>
      on connection "channel-open" (listenForMessage channelLabel p) ;;
      forEach_of "channels" channels (fun channel =>
        call (listenForMessage channelLabel p) (Some channel))));
      auto 6 using Steady_call with steady.
  - unfold WaitForTrackStep_handle. simpl.
    eapply steady_trans; [apply (Steady_set_next_id S)|].
    eapply steady_trans; [apply Steady_log|].
    destruct (Nat.ltb 0 _); [apply Steady_resolve | apply Steady_once].
  - apply (Steady_new_Promise (fun p =>
      on connection "track-open" (listenForData p) ;;
      forEach_of "mediaTracks" mediaTracks (fun track =>
        call (listenForData p) (Some track))));
      auto 6 using Steady_call with steady.
  - unfold SendStep_handle.
    destruct (new_Promises _ _ _) as [qs w2] eqn:E.
    eapply steady_trans; [|apply Steady_Promise_all].
    change w2 with (snd (qs, w2)). rewrite <- E.
    eapply steady_trans; [apply Steady_log|].
    apply Steady_new_Promises. intros c q. unfold write. auto with steady.
  - apply (Steady_new_Promise (fun p => suspend (closing p))); auto with steady.
  - apply (Steady_new_Promise (fun p =>
      on connection "channel-open" (echoContent p) ;;
      on connection "track-open" (echoContent p) ;;
      forEach_of "channels" channels (fun stream => call (echoContent p) (Some stream)) ;;
      forEach_of "mediaTracks" mediaTracks (fun stream => call (echoContent p) (Some stream)) ;;
      on connection "connection-closed" (closedResolve p)));
      auto 8 using Steady_call with steady.
  - eapply steady_trans; [apply Steady_new_RTCConnection|].
    apply (Steady_new_Promise (fun p =>
      suspend (after_getLocalDescription getAnswer (next_id w) p))); auto with steady.
  - apply (Steady_new_Promise (fun p =>
      suspend (after_proxyTrafficToExternalConnection p))); auto with steady.
Qed.

(** No event but the opening of a stream adds a stream. *)
Lemma Steady_step (e : Event) : kind_of_event e = None \/ (exists k i, e = data_arrives k i) ->
  Steady (step e).
Proof.
  intros He. destruct e; simpl;
    try (destruct He as [He|(k' & i' & He)]; discriminate).
  - intro w. destruct (is_flowing k i w); [apply Steady_emit | apply steady_refl].
  - apply Steady_resume.
  - apply Steady_emit.
  - apply Steady_take. intro. apply Steady_resolve.
  - apply Steady_take. intro. apply Steady_settle_or_reject.
  - apply Steady_take. intro. apply Steady_settle_or_reject.
  - apply Steady_take. intros c. destruct c; auto with steady.
    apply Steady_PeerProxyStep_handle_1.
  - apply Steady_take. intros c. destruct c; auto with steady.
    apply Steady_PeerProxyStep_handle_2.
  - apply Steady_take. intro. apply Steady_DynamicProxyStep_handle_1.
  - apply Steady_handle.
Qed.

Lemma opens_with_stream (k : StreamKind) (label : string) (local : bool) (w : World) :
  opens k label local w
  = emit connection (nth 1 (open_events k local) "")
      (Some {| ref_kind := k; ref_ident := next_id w; ref_label := label |})
      (emit connection (open_event k)
         (Some {| ref_kind := k; ref_ident := next_id w; ref_label := label |})
         (with_stream k label local w))
  /\ tracked k (with_stream k label local w)
     = tracked k w ++ [ {| stream := {| ident := next_id w; label := label;
                                        paused := false; piped := false |};
                           isLocal := local |} ]
  /\ (forall k', k' <> k -> tracked k' (with_stream k label local w) = tracked k' w)
  /\ externalConns (with_stream k label local w) = externalConns w
  /\ registrations (with_stream k label local w) = registrations w.
Proof.
  split; [now destruct k|]. split; [now destruct k|]. split; [|split; now destruct k].
  intros k' Hk. destruct k, k'; try reflexivity; now elim Hk.
Qed.

Lemma with_stream_unchanged (own : nat -> bool) (k : StreamKind) (label : string)
  (local : bool) (w : World) :
  good own w ->
  good own (with_stream k label local w) /\ unchanged own w (with_stream k label local w).
Proof.
  intro Hw.
  assert (Hids : forall k', ids k' (with_stream k label local w)
                 = ids k' w ++ (if StreamKind_eqb k' k then [next_id w] else [])).
  { intro k'. unfold ids. destruct k, k'; simpl;
      rewrite ?map_app, ?app_nil_r; reflexivity. }
  assert (Hu : unchanged own w (with_stream k label local w)).
  { split; [now destruct k|]. split; [destruct k; simpl; lia|].
    intro k'. rewrite Hids. now apply incl_appl. }
  split; [|exact Hu].
  destruct Hw as (Hc & Hb & Hs). split; [|split].
  - apply closed_view. destruct Hu as [-> _]. now apply closed_view.
  - intros i Hi. specialize (Hb i Hi). destruct k; simpl; lia.
  - intros k' i Hin. rewrite Hids in Hin. apply in_app_or in Hin as [Hin|Hin].
    + specialize (Hs k' i Hin). destruct k; simpl; lia.
    + destruct (StreamKind_eqb k' k); [|contradiction].
      destruct Hin as [<-|[]]. destruct k; simpl; lia.
Qed.

Lemma Forall2_same_in (l l' : list Tracked) (t' : Tracked) :
  Forall2 same_stream l l' -> In t' l' -> exists t, In t l /\ same_stream t t'.
Proof.
  induction 1 as [|a b l l' Hab H IH]; intros Hin; [destruct Hin|].
  destruct Hin as [<-|Hin].
  - exists a. split; [now left | exact Hab].
  - destruct (IH Hin) as (t & Ht & Hs). exists t. split; [now right | exact Hs].
Qed.

Lemma steady_piped (w w' : World) : steady w w' -> all_piped w -> all_piped w'.
Proof.
  intros [Hs _] Hp k. apply Forall_forall. intros t' Hin.
  destruct (Forall2_same_in _ _ t' (Hs k) Hin) as (t & Ht & _ & _ & _ & Hpt).
  apply Hpt. specialize (Hp k). rewrite Forall_forall in Hp. now apply Hp.
Qed.

(* ================================================================== *)
(** * An echo step pipes every stream *)

(** The echo listener pipes the stream it is called with. *)
Lemma call_echo_pipes (p : nat) (s : StreamRef) (w : World) (t : Tracked) :
  In t (tracked (ref_kind s) (call (echoContent p) (Some s) w)) ->
  (ident (stream t) = ref_ident s -> piped (stream t) = true)
  /\ (ident (stream t) <> ref_ident s -> In t (tracked (ref_kind s) w)).
Proof.
  unfold call, andThen. simpl. unfold pipe.
  set (f := fun st => {| ident := ident st; label := label st; paused := false;
                         piped := true |}).
  intro Hin.
  assert (H : In t (update_in (ref_ident s) f (tracked (ref_kind s) w)))
    by (destruct (ref_kind s); exact Hin).
  unfold update_in in H. apply in_map_iff in H as (x & <- & Hx).
  destruct (Nat.eqb_spec (ident (stream x)) (ref_ident s)) as [E|E]; simpl.
  - split; [reflexivity | intro N; now elim N].
  - split; [intro N; now elim E | intros _; exact Hx].
Qed.

Lemma echo_loop (p : nat) (k : StreamKind) (l : list StreamRef) :
  (forall s, In s l -> ref_kind s = k) ->
  forall w t,
    In t (tracked k (forEach l (fun s => call (echoContent p) (Some s)) w)) ->
    In (ident (stream t)) (map ref_ident l) -> piped (stream t) = true.
Proof.
  induction l as [|s l IH]; intros Hk w t Hin Hid; [destruct Hid|].
  rewrite forEach_cons in Hin.
  destruct (in_dec Nat.eq_dec (ident (stream t)) (map ref_ident l)) as [Hl|Hl].
  - apply (IH (fun x Hx => Hk x (or_intror Hx)) _ t Hin Hl).
  - destruct Hid as [Hid|Hid]; [|now elim Hl].
    assert (Hs : steady (call (echoContent p) (Some s) w)
                   (forEach l (fun s => call (echoContent p) (Some s))
                      (call (echoContent p) (Some s) w)))
      by (apply Steady_forEach; intro; apply Steady_call).
    destruct (Forall2_same_in _ _ t (proj1 Hs k) Hin) as (t0 & Ht0 & E1 & _ & _ & Hp).
    apply Hp. rewrite <- (Hk s (or_introl eq_refl)) in Ht0.
    apply (proj1 (call_echo_pipes p s w t0 Ht0)). congruence.
Qed.

Lemma echoing_stable (p : nat) : Stable (only p) (echoing p).
Proof.
  intros w w' He _ (Hv & _) k. destruct (He k) as (r & Hin & Ht & Hev & Hc & Ho).
  exists r. split; [|auto].
  assert (H : In r (v_registrations (view (only p) w)))
    by (apply owned_registration_in_view; split; [exact Hin|];
        apply only_registration; now rewrite Hc).
  rewrite <- Hv in H. now apply owned_registration_in_view in H as [H _].
Qed.

Lemma Registration_eqb_once (a b : Registration) :
  Registration_eqb a b = true -> is_once a = is_once b.
Proof.
  unfold Registration_eqb. intro H. apply andb_true_iff in H as [_ H].
  now apply Bool.eqb_prop in H.
Qed.

(** The listeners of an echo or proxy step never take an [on] listener
    out of the tables. *)
Lemma echoing_invoke (p : nat) (arg : option StreamRef) (r : Registration) (w : World) :
  callback r = echoContent p \/ callback r = closedResolve p ->
  echoing p w -> echoing p (invoke arg r w).
Proof.
  intros Hc He k. destruct (He k) as (x & Hin & Ht & Hev & Hcx & Ho).
  exists x. split; [|auto].
  destruct (is_once r) eqn:Hr.
  - destruct (invoke_perpetual_fields p arg r w Hc) as (_ & _ & _ & _ & _ & Hkeep & _).
    apply Hkeep; [exact Hin|].
    destruct (Registration_eqb x r) eqn:E; [|reflexivity].
    apply Registration_eqb_once in E. congruence.
  - unfold invoke, andThen. rewrite Hr. unfold skip.
    destruct Hc as [-> | ->].
    + destruct (same_control_call_echo p arg w) as (_ & _ & _ & -> & _). exact Hin.
    + unfold call, andThen. simpl. rewrite (Settling_resolve p). exact Hin.
Qed.

Lemma echo_step (p : nat) (e : Event) (w : World) :
  settling p w /\ echoing p w -> settling p (step e w) /\ echoing p (step e w).
Proof.
  intro Hw.
  apply (step_each (only p) (fun w => settling p w /\ echoing p w));
    [| | | | |exact Hw].
  - intros w0 w' [Hs He] Hg Hu.
    split; [exact (settling_stable p w0 w' Hs Hg Hu) | exact (echoing_stable p w0 w' He Hg Hu)].
  - intros w0 [Hs _]. now apply settling_good.
  - intros arg r w0 w' [(Hs0 & _) _] Hin Hf Ho [Hs' He'].
    assert (Hc := shape_registered p w0 r Hs0 Hin Ho).
    split; [now apply settling_invoke|].
    apply echoing_invoke; [|exact He'].
    destruct Hc as [Hc|Hc]; [now left | right; now apply close_listener_callback].
  - intros k w' Hin Hr Ho _. exfalso.
    destruct Hw as [(_ & Hk & _) _]. exact (nothing_suspended _ _ _ Hk Hin Ho).
  - intros w' [(Hs' & Hk' & Hp') He']. split; [|exact He'].
    split; [now apply shape_drop_continuations|].
    split; [now apply v_suspended_dropped | exact Hp'].
Qed.

Lemma tracked_with_stream (k k' : StreamKind) (label : string) (local : bool) (w : World)
  (t : Tracked) :
  In t (tracked k' (with_stream k label local w)) ->
  In t (tracked k' w) \/ (k' = k /\ ident (stream t) = next_id w).
Proof.
  destruct k, k'; simpl; intro H; try (left; exact H);
    apply in_app_or in H as [H|[<-|[]]]; auto.
Qed.

(** While the echo listeners are registered, a stream that opens is piped
    before its opening is over. *)
Lemma echo_opens_piped (p : nat) (k : StreamKind) (label : string) (local : bool)
  (w : World) :
  echoing p w -> all_piped w -> all_piped (opens k label local w).
Proof.
  intros He Hp.
  destruct (opens_with_stream k label local w) as (E & _ & _ & _ & Er). rewrite E. clear E.
  set (s := {| ref_kind := k; ref_ident := next_id w; ref_label := label |}).
  set (w1 := with_stream k label local w) in *.
  apply (steady_piped (emit connection (open_event k) (Some s) w1)); [apply Steady_emit|].
  destruct (He k) as (r & Hin & Ht & Hev & Hc & Ho).
  unfold emit.
  assert (Hsnap : In r (filter (listens connection (open_event k)) (registrations w1))).
  { apply filter_In. rewrite Er. split; [exact Hin | apply listens_iff; now split]. }
  apply in_split in Hsnap as (l1 & l2 & Hl). rewrite Hl, forEach_app, forEach_cons.
  set (wA := forEach l1 (invoke (Some s)) w1).
  assert (HA : steady w1 wA) by (apply Steady_forEach; intro; apply Steady_invoke).
  apply (steady_piped (invoke (Some s) r wA));
    [apply Steady_forEach; intro; apply Steady_invoke|].
  assert (HB : steady w1 (invoke (Some s) r wA))
    by (eapply steady_trans; [exact HA | apply Steady_invoke]).
  intro k'. apply Forall_forall. intros t Hint.
  destruct (Forall2_same_in _ _ t (proj1 HB k') Hint) as (t0 & Ht0 & Eid & _ & _ & Hpt).
  destruct (tracked_with_stream k k' label local w t0 Ht0) as [Hold|[-> Hnew]].
  - apply Hpt. specialize (Hp k'). rewrite Forall_forall in Hp. now apply Hp.
  - unfold invoke, andThen in Hint. rewrite Ho, Hc in Hint. unfold skip in Hint.
    apply (proj1 (call_echo_pipes p s wA t Hint)). simpl. congruence.
Qed.

Lemma echo_piped_step (p : nat) (e : Event) (w : World) :
  echoing p w -> all_piped w -> all_piped (step e w).
Proof.
  intros He Hp.
  assert (Hs : kind_of_event e = None \/ (exists k i, e = data_arrives k i) ->
               all_piped (step e w)).
  { intro H. exact (steady_piped w _ (Steady_step e H w) Hp). }
  destruct e; try (apply Hs; left; reflexivity).
  - now apply echo_opens_piped with (p := p).
  - now apply echo_opens_piped with (p := p).
  - apply Hs. right. eauto.
Qed.

Lemma echo_run (p : nat) (history : list Event) :
  forall w, settling p w /\ echoing p w -> all_piped w ->
    all_piped (run history w).
Proof.
  induction history as [|e h IH]; intros w Hw Hp; [exact Hp|].
  rewrite run_cons. apply IH; [now apply echo_step|].
  now apply (echo_piped_step p).
Qed.

(** [handle] pipes the streams that are open already. *)
Lemma echo_loop_all (p : nat) (k : StreamKind) (name : string) (w : World) :
  Forall (fun t => piped (stream t) = true)
    (tracked k (forEach_of name (streams_of k)
                  (fun stream => call (echoContent p) (Some stream)) w)).
Proof.
  unfold forEach_of. apply Forall_forall. intros t Hin.
  apply (echo_loop p k (streams_of k w)) with (w := log (Examined name) w).
  - intros s Hs. unfold streams_of in Hs. apply in_map_iff in Hs as (x & <- & _).
    reflexivity.
  - exact Hin.
  - assert (Hs : steady (log (Examined name) w)
                   (forEach (streams_of k w)
                      (fun stream => call (echoContent p) (Some stream))
                      (log (Examined name) w)))
      by (apply Steady_forEach; intro; apply Steady_call).
    destruct (Forall2_same_in _ _ t (proj1 Hs k) Hin) as (t0 & Ht0 & Eid & _).
    rewrite Eid. unfold streams_of. rewrite map_map. simpl.
    change (tracked k (log (Examined name) w)) with (tracked k w) in Ht0.
    apply in_map_iff. now exists t0.
Qed.

Lemma EchoStep_echoing (w : World) :
  echoing (next_id w) (snd (EchoStep_handle w)) /\ all_piped (snd (EchoStep_handle w)).
Proof.
  set (p := next_id w).
  set (wc := (on connection "channel-open" (echoContent p) ;;
              on connection "track-open" (echoContent p)) (set_next_id S w)).
  set (wd := forEach_of "channels" (streams_of DataChannel)
               (fun stream => call (echoContent p) (Some stream)) wc).
  set (we := forEach_of "mediaTracks" (streams_of MediaTrack)
               (fun stream => call (echoContent p) (Some stream)) wd).
  assert (E1 : snd (EchoStep_handle w)
               = on connection "connection-closed" (closedResolve p) we) by reflexivity.
  rewrite E1. split.
  - assert (Hcd : same_control wc wd).
    { apply same_control_forEach_of. intros x w'. apply same_control_call_echo. }
    assert (Hde : same_control wd we).
    { apply same_control_forEach_of. intros x w'. apply same_control_call_echo. }
    destruct (same_control_trans _ _ _ Hcd Hde) as (_ & _ & _ & ER & _).
    intro k.
    exists {| reg_id := match k with DataChannel => S p | MediaTrack => S (S p) end;
              target := connection; event := open_event k;
              callback := echoContent p; is_once := false |}.
    split; [|repeat split].
    simpl. rewrite ER. apply in_or_app. left. unfold wc, andThen. simpl.
    apply in_or_app. destruct k; simpl.
    + left. apply in_or_app. right. now left.
    + right. now left.
  - intro k. change (tracked k (on connection "connection-closed" (closedResolve p) we))
      with (tracked k we).
    destruct k.
    + assert (Hs : steady wd we)
        by (apply Steady_forEach_of; intro; apply Steady_call).
      apply Forall_forall. intros t Hin.
      destruct (Forall2_same_in _ _ t (proj1 Hs DataChannel) Hin) as (t0 & Ht0 & _ & _ & _ & Hp).
      apply Hp.
      assert (H := echo_loop_all p DataChannel "channels" wc).
      rewrite Forall_forall in H. now apply H.
    + apply (echo_loop_all p MediaTrack "mediaTracks" wd).
Qed.

(** X8. An echo step is started in a well-formed world.  When [handle]
    returns every data channel and every media track of the connection
    has been piped back to itself, and so is every channel or track that
    opens later, local or remote, by the time its opening has been
    announced: in every history all the streams of the connection are
    piped. *)
Theorem echo_pipes_every_stream :
  forall (w : World),
    wf w = true ->
    forall history,
      Forall (fun t => piped (stream t) = true)
        (trackedChannels (run history (snd (EchoStep_handle w))))
      /\ Forall (fun t => piped (stream t) = true)
           (trackedMediaTracks (run history (snd (EchoStep_handle w)))).
Proof.
  intros w Hwf history.
  destruct (EchoStep_parked w Hwf) as [_ Hpark].
  destruct (EchoStep_echoing w) as [He Hp].
  assert (H := echo_run (next_id w) history _ (conj (parked_settling _ _ Hpark) He) Hp).
  split; [exact (H DataChannel) | exact (H MediaTrack)].
Qed.

Lemma echo_pipes_every_stream_witness :
  Forall (fun t => piped (stream t) = true)
    (trackedChannels
       (run [channel_opens "late" true; connection_closes; channel_opens "later" false]
          (snd (EchoStep_handle two_channels_one_track)))).
Proof.
  exact (proj1 (echo_pipes_every_stream two_channels_one_track eq_refl
                  [channel_opens "late" true; connection_closes;
                   channel_opens "later" false])).
Defined.

(* ================================================================== *)
(** * Waiting for a message or for media: what completes the step *)

Lemma StreamKind_eqb_eq (a b : StreamKind) : StreamKind_eqb a b = true <-> a = b.
Proof. destruct a, b; simpl; split; intro H; congruence. Qed.

Lemma StreamKind_eqb_neq (a b : StreamKind) : a <> b -> StreamKind_eqb a b = false.
Proof. destruct a, b; simpl; intro H; congruence. Qed.

Lemma steady_streams (k : StreamKind) (w w' : World) :
  steady w w' -> streams_of k w' = streams_of k w.
Proof.
  intros [H _]. unfold streams_of. specialize (H k).
  induction H as [|t t' l l' (A & B & _) _ IH]; simpl; [reflexivity|].
  rewrite IH. f_equal. unfold ref_of. now rewrite A, B.
Qed.

Lemma opens_streams (k k' : StreamKind) (label : string) (local : bool) (w : World) :
  streams_of k' (opens k label local w)
  = streams_of k' w
    ++ (if StreamKind_eqb k' k
        then [{| ref_kind := k; ref_ident := next_id w; ref_label := label |}] else []).
Proof.
  destruct (opens_with_stream k label local w) as (E & _). rewrite E.
  rewrite (steady_streams k' _ _ (Steady_emit _ _ _ _)).
  rewrite (steady_streams k' _ _ (Steady_emit _ _ _ _)).
  unfold streams_of. destruct k, k'; simpl; rewrite ?map_app, ?app_nil_r; reflexivity.
Qed.

Lemma owned_registration_unchanged (own : nat -> bool) (w w' : World) (r : Registration) :
  unchanged own w w' -> owns_registration own r = true ->
  (In r (registrations w) <-> In r (registrations w')).
Proof.
  intros (Hv & _) Ho.
  assert (E : In r (v_registrations (view own w)) <-> In r (v_registrations (view own w')))
    by now rewrite Hv.
  rewrite !owned_registration_in_view in E. tauto.
Qed.

Section Cover.

Variables (p : nat) (k : StreamKind) (L D : Closure) (name : string)
  (F : option StreamRef -> bool).

Hypothesis L_owner : owner L = p.
Hypothesis D_owner : owner D = p.
Hypothesis L_not_D : L <> D.
Hypothesis body_L : forall arg,
  body L arg = match arg with
               | Some s => if F arg then once (emitter s) "data" D else skip
               | None => skip end.
Hypothesis body_D : forall arg,
  body D arg = (removeListener connection (open_event k) L ;;
                forEach_of name (streams_of k) (fun s =>
                  removeListener (emitter s) "data" D ;; pause s) ;;
                resolve p).

Lemma covering_stable (S : list StreamRef) : Stable (only p) (covering p k L D F S).
Proof.
  intros w w' ((r & Hin & Hr & Ho) & H2 & H3) _ Hu.
  assert (Hown : forall x t ev c, owner c = p -> registered_as t ev c x = true ->
            owns_registration (only p) x = true).
  { intros x t ev c Hc Hx. apply only_registration.
    now rewrite (registered_as_owner _ _ _ _ Hx). }
  split; [|split].
  - exists r. split; [|now split].
    apply (owned_registration_unchanged (only p) w w' r Hu); eauto.
  - intros s Hs HF. destruct (H2 s Hs HF) as (x & Hx & Hxr). exists x. split; [|exact Hxr].
    apply (owned_registration_unchanged (only p) w w' x Hu); eauto.
  - intros x i Hx Hxo Ht. apply (H3 x i); auto.
    apply (owned_registration_unchanged (only p) w w' x Hu); [|exact Hx].
    now apply only_registration.
Qed.

(** The listener for new streams is called on a stream. *)
Lemma cover_call (S : list StreamRef) (s : StreamRef) (w : World) :
  ref_kind s = k -> covering p k L D F S w ->
  covering p k L D F (S ++ [s]) (call L (Some s) w).
Proof.
  intros Hk ((r & Hin & Hr & Ho) & H2 & H3). unfold call, andThen. rewrite body_L.
  set (wl := log (Called L (Some s)) w).
  assert (Et : emitter s = on_stream k (ref_ident s)) by (unfold emitter; now rewrite Hk).
  rewrite Et. destruct (F (Some s)) eqn:HF.
  - set (rD := {| reg_id := next_id wl; target := on_stream k (ref_ident s);
                  event := "data"; callback := D; is_once := true |}).
    assert (Eregs : registrations (once (on_stream k (ref_ident s)) "data" D wl)
                    = registrations w ++ [rD])
      by reflexivity.
    split; [|split].
    + exists r. rewrite Eregs. split; [apply in_or_app; now left | now split].
    + intros s' Hs' HF'. rewrite Eregs. apply in_app_or in Hs' as [Hs'|[<-|[]]].
      * destruct (H2 s' Hs' HF') as (x & Hx & Hxr). exists x.
        split; [apply in_or_app; now left | exact Hxr].
      * exists rD. split; [apply in_or_app; right; now left|].
        apply registered_as_iff. now repeat split.
    + intros x i Hx Hxo Hxt. rewrite Eregs in Hx. apply in_app_or in Hx as [Hx|[<-|[]]].
      * destruct (H3 x i Hx Hxo Hxt) as (s' & Hs' & Hi & HF'). exists s'.
        split; [apply in_or_app; now left | now split].
      * simpl in Hxt. injection Hxt as <-. exists s.
        split; [apply in_or_app; right; now left | now split].
  - split; [|split].
    + exists r. now repeat split.
    + intros s' Hs' HF'. apply in_app_or in Hs' as [Hs'|[<-|[]]]; [|congruence].
      now apply H2.
    + intros x i Hx Hxo Hxt. destruct (H3 x i Hx Hxo Hxt) as (s' & Hs' & Hi & HF').
      exists s'. split; [apply in_or_app; now left | now split].
Qed.

(** Events that are not about streams of kind [k] reach nothing of the
    step. *)
Lemma watching_is_quiet (n : nat) (e : Event) (w : World) :
  kind_of_event e <> Some k -> watching p k L D n w -> quiet (only p) e w.
Proof.
  intros He Hw. assert (H := Hw). destruct H as (Hg & _ & Vk & _). split.
  - intros r Hin Ho. apply only_registration in Ho.
    assert (Hk : forall k', k' <> k -> StreamKind_eqb k k' = false)
      by (intros k' H; apply StreamKind_eqb_neq; congruence).
    destruct (watching_shape p k L D n w r Hw Hin Ho)
      as [(_ & Ht & Hev)|(_ & Hev & i & Ht & _)];
      destruct e as [lab loc|loc|k' i'|k' i'| | | | | | | |st];
      simpl in *; try reflexivity; unfold listens; rewrite Ht, Hev;
      try reflexivity.
    + destruct (StreamKind_cases k) as [E|E]; rewrite E in *; [now elim He|].
      destruct loc; reflexivity.
    + destruct (StreamKind_cases k) as [E|E]; rewrite E in *; [|now elim He].
      destruct loc; reflexivity.
    + destruct (StreamKind_cases k) as [E|E]; rewrite E; reflexivity.
    + simpl. rewrite (Hk k'); [reflexivity|]. congruence.
  - intros k' Hin Ho. exfalso. exact (nothing_suspended _ _ _ Vk Hin Ho).
Qed.

Lemma singleton_of {A : Type} (l : list A) (x : A) :
  List.length l <= 1 -> In x l -> l = [x].
Proof.
  destruct l as [|a [|b l]]; simpl; intros Hl Hin; [destruct Hin| |lia].
  destruct Hin as [->|[]]. reflexivity.
Qed.

Lemma covering_registrations (S : list StreamRef) (w w' : World) :
  registrations w' = registrations w ->
  covering p k L D F S w -> covering p k L D F S w'.
Proof. intros E H. unfold covering. now rewrite E. Qed.

(** Events that are not about streams of kind [k] leave the step as it
    is. *)
Lemma cover_quiet (n : nat) (e : Event) (w : World) :
  kind_of_event e <> Some k ->
  watching p k L D n w -> covering p k L D F (streams_of k w) w ->
  watching p k L D n (step e w)
  /\ covering p k L D F (streams_of k (step e w)) (step e w).
Proof.
  intros He Hw Hc. assert (Hg := watching_good p k L D n w Hw).
  destruct (step_quiet (only p) e w Hg (watching_is_quiet n e w He Hw)) as [Hg' Hu].
  split; [exact (watching_stable p k L D n w _ Hw Hg' Hu)|].
  assert (Es : streams_of k (step e w) = streams_of k w).
  { assert (Hst : kind_of_event e = None \/ (exists k' i, e = data_arrives k' i) ->
                  streams_of k (step e w) = streams_of k w)
      by (intro H; apply steady_streams; now apply Steady_step).
    destruct e; try (apply Hst; left; reflexivity).
    - simpl. rewrite opens_streams, StreamKind_eqb_neq; [apply app_nil_r|].
      simpl in He. congruence.
    - simpl. rewrite opens_streams, StreamKind_eqb_neq; [apply app_nil_r|].
      simpl in He. congruence.
    - apply Hst. right. eauto. }
  rewrite Es. exact (covering_stable _ w _ Hc Hg' Hu).
Qed.

(** Data arrives on a stream of kind [k]: the step completes if the
    stream is flowing and is one it listens on, and stays as it is if
    not. *)
Lemma cover_data (n i : nat) (w : World) :
  watching p k L D n w -> covering p k L D F (streams_of k w) w ->
  (is_flowing k i w = true ->
   existsb (fun s => Nat.eqb (ref_ident s) i && F (Some s)) (streams_of k w) = true ->
   fired p D n (step (data_arrives k i) w))
  /\ (is_flowing k i w = false
      \/ existsb (fun s => Nat.eqb (ref_ident s) i && F (Some s)) (streams_of k w) = false ->
      watching p k L D n (step (data_arrives k i) w)
      /\ covering p k L D F (streams_of k (step (data_arrives k i) w))
           (step (data_arrives k i) w)).
Proof.
  intros Hw Hc. assert (Hg := watching_good p k L D n w Hw). split.
  - intros Hf Hex. simpl. rewrite Hf.
    apply existsb_exists in Hex as (s & Hs & Hsi). apply andb_true_iff in Hsi as [Hi HF].
    apply Nat.eqb_eq in Hi. subst i.
    destruct Hc as (_ & H2 & _). destruct (H2 s Hs HF) as (r & Hin & Hr).
    unfold emit.
    apply (invoke_single (only p) (watching p k L D n) (fired p D n)
             (watching_stable p k L D n) (fired_stable p D n)
             (watching_good p k L D n) (fired_good p D n) None _ r); [| |exact Hw].
    + rewrite filter_filter_comm.
      change (filter (owns_registration (only p)) (registrations w))
        with (v_registrations (view (only p) w)).
      rewrite (filter_ext_in' _ _ _ (owned_listens_data p k L D n w k (ref_ident s) Hw)).
      apply singleton_of.
      * destruct Hw as (_ & _ & _ & _ & _ & Ho & _). now apply Ho.
      * apply filter_In. split; [|exact Hr]. apply owned_registration_in_view.
        split; [exact Hin|]. apply only_registration.
        now rewrite (registered_as_owner _ _ _ _ Hr).
    + intros w' Hw'.
      apply (data_listener_fires p k L D name L_owner D_owner body_D n None r w');
        [|exact Hw'].
      now apply registered_as_iff in Hr as (_ & _ & Hr).
  - intros Hno. simpl. destruct (is_flowing k i w) eqn:Hf; [|now split].
    destruct Hno as [Hno|Hno]; [discriminate|].
    destruct (emit_quiet (only p) (on_stream k i) "data" None w Hg) as [Hg' Hu].
    + intros r Hin Ho. destruct (listens (on_stream k i) "data" r) eqn:Hl; [|reflexivity].
      exfalso. apply listens_iff in Hl as [Ht _]. apply only_registration in Ho.
      destruct Hc as (_ & _ & H3). destruct (H3 r i Hin Ho Ht) as (s & Hs & Hi & HF).
      assert (E : existsb (fun s => Nat.eqb (ref_ident s) i && F (Some s)) (streams_of k w)
                  = true).
      { apply existsb_exists. exists s. split; [exact Hs|].
        rewrite HF, Hi, Nat.eqb_refl. reflexivity. }
      congruence.
    + split; [exact (watching_stable p k L D n w _ Hw Hg' Hu)|].
      rewrite (steady_streams k _ _ (Steady_emit _ _ _ w)).
      exact (covering_stable _ w _ Hc Hg' Hu).
Qed.

(** A stream of kind [k] opens: the step starts listening on it if it
    satisfies [F]. *)
Lemma cover_opens (n : nat) (label : string) (local : bool) (w : World) :
  watching p k L D n w -> covering p k L D F (streams_of k w) w ->
  watching p k L D n (opens k label local w)
  /\ covering p k L D F (streams_of k (opens k label local w)) (opens k label local w).
Proof.
  intros Hw Hc. assert (Hg := watching_good p k L D n w Hw).
  rewrite opens_streams.
  replace (StreamKind_eqb k k) with true by (symmetry; now apply StreamKind_eqb_eq).
  destruct (opens_with_stream k label local w) as (E & _ & _ & _ & Er). rewrite E. clear E.
  destruct (with_stream_unchanged (only p) k label local w Hg) as [Hg1 Hu1].
  set (w1 := with_stream k label local w) in *.
  set (s := {| ref_kind := k; ref_ident := next_id w; ref_label := label |}).
  set (S0 := streams_of k w) in *.
  assert (Hw1 : watching p k L D n w1) by exact (watching_stable p k L D n w w1 Hw Hg1 Hu1).
  assert (Hc1 : covering p k L D F S0 w1) by exact (covering_stable S0 w w1 Hc Hg1 Hu1).
  set (J := fun w' => watching p k L D n w' /\ covering p k L D F S0 w'
                      /\ unwatched p k (next_id w) w' /\ In (next_id w) (ids k w')).
  set (K := fun w' => watching p k L D n w' /\ covering p k L D F (S0 ++ [s]) w').
  assert (J_stable : Stable (only p) J).
  { intros wx wy (Hx & Hcx & Hux & Hix) Hgy Huy. split; [|split; [|split]].
    - exact (watching_stable p k L D n wx wy Hx Hgy Huy).
    - exact (covering_stable S0 wx wy Hcx Hgy Huy).
    - intros r Hr Ho. apply Hux; [|exact Ho].
      eapply owned_registrations_kept; eauto. now apply only_registration.
    - destruct Huy as (_ & _ & Hincl). now apply (Hincl k). }
  assert (K_stable : Stable (only p) K).
  { intros wx wy (Hx & Hcx) Hgy Huy.
    split; [exact (watching_stable p k L D n wx wy Hx Hgy Huy)
           | exact (covering_stable _ wx wy Hcx Hgy Huy)]. }
  assert (HJ1 : J w1).
  { split; [exact Hw1|]. split; [exact Hc1|]. split.
    - intros r Hr Ho Ht. rewrite Er in Hr.
      destruct Hc as (_ & _ & H3). destruct (H3 r _ Hr Ho Ht) as (s' & Hs' & Hi & _).
      destruct (streams_of_kind k w s' Hs') as [_ Hid].
      destruct Hg as (_ & _ & Hb). specialize (Hb k _ Hid). lia.
    - unfold w1, ids. destruct (StreamKind_cases k) as [Hk|Hk]; rewrite Hk; simpl;
        rewrite map_app; apply in_or_app; right; now left. }
  assert (HK2 : K (emit connection (open_event k) (Some s) w1)).
  { destruct Hc1 as ((r & Hin & Hr & Ho) & _). unfold emit.
    apply (invoke_single (only p) J K J_stable K_stable
             (fun w' H => watching_good p k L D n w' (proj1 H))
             (fun w' H => watching_good p k L D n w' (proj1 H)) (Some s) _ r);
      [| |exact HJ1].
    - rewrite filter_filter_comm.
      change (filter (owns_registration (only p)) (registrations w1))
        with (v_registrations (view (only p) w1)).
      rewrite (filter_ext_in' _ _ _ (owned_listens_open p k L D n w1 (open_event k) Hw1)).
      apply singleton_of.
      + destruct Hw1 as (_ & _ & _ & _ & _ & Hon & _). now apply Hon.
      + apply filter_In. split; [|exact Hr]. apply owned_registration_in_view.
        split; [exact Hin|]. apply only_registration.
        now rewrite (registered_as_owner _ _ _ _ Hr).
    - intros w' (Hw' & Hc' & Hu' & Hi').
      assert (Hcb : callback r = L) by now apply registered_as_iff in Hr as (_ & _ & Hr).
      split.
      + apply (open_listener_invoke p k L D F L_owner D_owner L_not_D body_L); auto.
      + assert (Ei : invoke (Some s) r w' = call L (Some s) w').
        { unfold invoke, andThen. now rewrite Ho, Hcb. }
        rewrite Ei. now apply cover_call. }
  set (w2 := emit connection (open_event k) (Some s) w1) in *.
  destruct HK2 as [Hw2 Hc2].
  destruct (emit_quiet (only p) connection (nth 1 (open_events k local) "") (Some s) w2
              (watching_good p k L D n w2 Hw2)) as [Hg3 Hu3].
  - intros r Hin Ho. apply only_registration in Ho.
    destruct (watching_shape p k L D n w2 r Hw2 Hin Ho)
      as [(_ & Ht & Hev)|(_ & Hev & i & Ht & _)];
      unfold listens; rewrite Ht, Hev; [|reflexivity].
    destruct (StreamKind_cases k) as [Hk|Hk]; rewrite Hk; destruct local; reflexivity.
  - split; [exact (watching_stable p k L D n w2 _ Hw2 Hg3 Hu3)
           | exact (covering_stable _ w2 _ Hc2 Hg3 Hu3)].
Qed.

(** Nothing but data on a stream of kind [k] completes the step. *)
Lemma cover_step_other (n : nat) (e : Event) (w : World) :
  is_data_on k e = false ->
  watching p k L D n w -> covering p k L D F (streams_of k w) w ->
  watching p k L D n (step e w)
  /\ covering p k L D F (streams_of k (step e w)) (step e w).
Proof.
  intros He Hw Hc.
  assert (Hq : kind_of_event e <> Some k ->
               watching p k L D n (step e w)
               /\ covering p k L D F (streams_of k (step e w)) (step e w))
    by (intro H; now apply cover_quiet).
  destruct e as [lab loc|loc|k' i| | | | | | | | |]; try (apply Hq; discriminate).
  - destruct (StreamKind_cases k) as [Hk|Hk].
    + replace (step (channel_opens lab loc) w) with (opens k lab loc w)
        by (rewrite Hk; reflexivity).
      now apply cover_opens.
    + apply Hq. rewrite Hk. discriminate.
  - destruct (StreamKind_cases k) as [Hk|Hk].
    + apply Hq. rewrite Hk. discriminate.
    + replace (step (track_opens loc) w) with (opens k "" loc w)
        by (rewrite Hk; reflexivity).
      now apply cover_opens.
  - apply Hq. simpl in *. intro H. injection H as ->.
    replace (StreamKind_eqb k k) with true in He by (symmetry; now apply StreamKind_eqb_eq).
    discriminate.
Qed.

Lemma cover_run_pending (n : nat) (history : list Event) :
  existsb (is_data_on k) history = false ->
  forall w, watching p k L D n w -> covering p k L D F (streams_of k w) w ->
    watching p k L D n (run history w)
    /\ covering p k L D F (streams_of k (run history w)) (run history w).
Proof.
  induction history as [|e h IH]; intros Hh w Hw Hc; [now split|].
  simpl in Hh. apply orb_false_iff in Hh as [He Hh]. rewrite run_cons.
  destruct (cover_step_other n e w He Hw Hc) as [Hw' Hc']. now apply IH.
Qed.

Lemma cover_run (n : nat) (history : list Event) :
  forall w, watching p k L D n w -> covering p k L D F (streams_of k w) w ->
    (watching p k L D n (run history w)
     /\ covering p k L D F (streams_of k (run history w)) (run history w))
    \/ fired p D n (run history w).
Proof.
  induction history as [|e h IH]; intros w Hw Hc; [left; now split|].
  rewrite run_cons.
  destruct (is_data_on k e) eqn:He.
  - destruct e; try discriminate He. simpl in He. apply StreamKind_eqb_eq in He. subst k0.
    destruct (cover_data n i w Hw Hc) as [Hfire Hstay].
    destruct (is_flowing k i w) eqn:Hf;
      [destruct (existsb (fun s => Nat.eqb (ref_ident s) i && F (Some s)) (streams_of k w))
         eqn:Hex|].
    + right. exact (proj1 (fired_run p D n h _ (Hfire eq_refl eq_refl))).
    + destruct Hstay as [Hw' Hc']; [now right|]. now apply IH.
    + destruct Hstay as [Hw' Hc']; [now left|]. now apply IH.
  - destruct (cover_step_other n e w He Hw Hc) as [Hw' Hc']. now apply IH.
Qed.

Lemma cover_loop (l : list StreamRef) :
  (forall s, In s l -> ref_kind s = k) ->
  forall S w, covering p k L D F S w ->
    covering p k L D F (S ++ l) (forEach l (fun s => call L (Some s)) w).
Proof.
  induction l as [|s l IH]; intros Hk S w Hc.
  - now rewrite app_nil_r.
  - rewrite forEach_cons.
    replace (S ++ s :: l) with ((S ++ [s]) ++ l) by (now rewrite <- app_assoc).
    apply IH; [intros x Hx; apply Hk; now right|].
    apply cover_call; [apply Hk; now left | exact Hc].
Qed.

(** Where the step stands when [handle] returns. *)
Lemma cover_start (w0 : World) :
  wf w0 = true -> p = next_id w0 ->
  covering p k L D F
    (streams_of k ((on connection (open_event k) L ;;
                    forEach_of name (streams_of k) (fun s => call L (Some s)))
                     (set_next_id S w0)))
    ((on connection (open_event k) L ;;
      forEach_of name (streams_of k) (fun s => call L (Some s))) (set_next_id S w0)).
Proof.
  intros Hwf Hp0. unfold andThen, forEach_of.
  set (wa := on connection (open_event k) L (set_next_id S w0)).
  set (rL := {| reg_id := S (next_id w0); target := connection; event := open_event k;
                callback := L; is_once := false |}).
  set (wb := log (Examined name) wa).
  destruct (fresh_start (only p) w0 wa [rL] [] Hwf) as (Hg & Vs & Vc & Vr & Vk);
    try reflexivity.
  { apply only_bounds; [lia|]. unfold wa. simpl. lia. }
  { simpl. now rewrite app_nil_r. }
  { unfold wa. simpl. lia. }
  assert (Vr' : v_registrations (view (only p) wa) = [rL]).
  { rewrite Vr. simpl. unfold owns_registration, only. simpl.
    now rewrite L_owner, Nat.eqb_refl. }
  assert (Hcb : covering p k L D F [] wb).
  { apply (covering_registrations [] wa wb eq_refl). split; [|split].
    - exists rL. split; [|split; [|reflexivity]].
      + apply (owned_registration_in_view (only p)). rewrite Vr'. now left.
      + apply registered_as_iff. now repeat split.
    - intros s [].
    - intros r i Hr Ho Ht. exfalso.
      assert (Hin : In r (v_registrations (view (only p) wa)))
        by (apply owned_registration_in_view; split; [exact Hr | now apply only_registration]).
      rewrite Vr' in Hin. destruct Hin as [<-|[]]. discriminate. }
  change (streams_of k wa) with (streams_of k wb).
  rewrite (steady_streams k wb).
  - apply (cover_loop (streams_of k wb)) with (S := []); [|exact Hcb].
    intros s Hs. exact (proj1 (streams_of_kind k wb s Hs)).
  - apply Steady_forEach. intro. apply Steady_call.
Qed.

Lemma cover_summary (n : nat) (w1 : World) (history : list Event) :
  watching p k L D n w1 -> covering p k L D F (streams_of k w1) w1 ->
  (existsb (is_data_on k) history = false -> pstate p (run history w1) = None)
  /\ (forall e, pstate p (run history w1) <> Some (Rejected e))
  /\ (pstate p (run history w1) = None ->
      forall i, is_flowing k i (run history w1) = true ->
        pstate p (step (data_arrives k i) (run history w1))
        = if existsb (fun stream => Nat.eqb (ref_ident stream) i && F (Some stream))
               (streams_of k (run history w1))
          then Some Fulfilled else None)
  /\ (pstate p (run history w1) = None ->
      forall i, is_flowing k i (run history w1) = false ->
        pstate p (step (data_arrives k i) (run history w1)) = None).
Proof.
  intros Hw Hc.
  assert (Hpending : forall w, watching p k L D n w -> pstate p w = None)
    by (intros w (_ & _ & _ & H & _); exact H).
  assert (Hdone : forall w, fired p D n w -> pstate p w = Some Fulfilled)
    by (intros w (_ & _ & _ & H & _); exact H).
  assert (Hrun := cover_run n history w1 Hw Hc).
  split; [|split; [|split]].
  - intro Hh. apply Hpending. exact (proj1 (cover_run_pending n history Hh w1 Hw Hc)).
  - intros e He. destruct Hrun as [[Hw2 _]|Hf].
    + rewrite (Hpending _ Hw2) in He. discriminate.
    + rewrite (Hdone _ Hf) in He. discriminate.
  - intros Hp i Hflow. destruct Hrun as [[Hw2 Hc2]|Hf];
      [|rewrite (Hdone _ Hf) in Hp; discriminate].
    destruct (cover_data n i _ Hw2 Hc2) as [Hfire Hstay].
    destruct (existsb _ (streams_of k (run history w1))) eqn:Hex.
    + apply Hdone. now apply Hfire.
    + apply Hpending. apply Hstay. now right.
  - intros Hp i Hflow. destruct Hrun as [[Hw2 Hc2]|Hf];
      [|rewrite (Hdone _ Hf) in Hp; discriminate].
    destruct (cover_data n i _ Hw2 Hc2) as [_ Hstay].
    apply Hpending. apply Hstay. now left.
Qed.

End Cover.

(** X9. A wait-for-message or wait-for-media step is started in a
    well-formed world; it waits for data on the data channels, or on the
    media tracks.  Whatever has happened since [handle] returned:
    - the step is pending as long as no data has arrived on a stream of
      that kind, and it is never rejected;
    - while it is pending, data arriving on a flowing stream completes
      it exactly if the stream is one of the connection's streams of that
      kind, open at the start or opened since, and, for wait-for-message,
      its label matches the filter;
    - data arriving on a paused stream is not delivered and leaves the
      step pending. *)
Theorem data_waits_complete_on_data :
  forall (s : HandlerStep) (w : World),
    wf w = true ->
    is_data_wait s = true ->
    let p := snd (fst (handle s w)) in
    let w1 := snd (handle s w) in
    forall history,
      (existsb (is_data_on (data_kind s)) history = false ->
       pstate p (run history w1) = None)
      /\ (forall e, pstate p (run history w1) <> Some (Rejected e))
      /\ (pstate p (run history w1) = None ->
          forall i, is_flowing (data_kind s) i (run history w1) = true ->
            pstate p (step (data_arrives (data_kind s) i) (run history w1))
            = if existsb (fun stream => Nat.eqb (ref_ident stream) i && listens_on s stream)
                   (streams_of (data_kind s) (run history w1))
              then Some Fulfilled else None)
      /\ (pstate p (run history w1) = None ->
          forall i, is_flowing (data_kind s) i (run history w1) = false ->
            pstate p (step (data_arrives (data_kind s) i) (run history w1)) = None).
Proof.
  intros s w Hwf Hs. destruct s; try discriminate Hs; simpl; intro history.
  - exact (cover_summary (next_id w) DataChannel
             (listenForMessage channelLabel (next_id w))
             (messageReceived channelLabel (next_id w))
             "channels" (matchesChannel channelLabel)
             eq_refl eq_refl ltac:(discriminate) (fun _ => eq_refl) (fun _ => eq_refl)
             _ _ history (WaitForMessageStep_watching channelLabel w Hwf)
             (cover_start (next_id w) DataChannel
                (listenForMessage channelLabel (next_id w))
                (messageReceived channelLabel (next_id w))
                "channels" (matchesChannel channelLabel)
                eq_refl eq_refl (fun _ => eq_refl) w Hwf eq_refl)).
  - exact (cover_summary (next_id w) MediaTrack
             (listenForData (next_id w)) (mediaReceived (next_id w))
             "mediaTracks" (fun _ => true)
             eq_refl eq_refl ltac:(discriminate) (fun _ => eq_refl) (fun _ => eq_refl)
             _ _ history (WaitForMediaStep_watching w Hwf)
             (cover_start (next_id w) MediaTrack
                (listenForData (next_id w)) (mediaReceived (next_id w))
                "mediaTracks" (fun _ => true)
                eq_refl eq_refl (fun _ => eq_refl) w Hwf eq_refl)).
Qed.

Lemma data_waits_complete_on_data_witness :
  pstate 3 (step (data_arrives DataChannel 6)
              (run [channel_opens "chat" false; track_opens false]
                 (snd (handle (WaitForMessageStep (Some "chat")) two_channels_one_track))))
  = Some Fulfilled
  /\ pstate 3 (step (data_arrives DataChannel 1)
                 (run [channel_opens "chat" false; track_opens false]
                    (snd (handle (WaitForMessageStep (Some "chat")) two_channels_one_track))))
     = None.
Proof.
  destruct (data_waits_complete_on_data (WaitForMessageStep (Some "chat"))
              two_channels_one_track eq_refl eq_refl
              [channel_opens "chat" false; track_opens false]) as (_ & _ & H & _).
  split.
  - exact (H eq_refl 6 eq_refl).
  - exact (H eq_refl 1 eq_refl).
Defined.

(* ================================================================== *)
(** * A peer-proxy step whose negotiation succeeds, or fails at the offer *)

(** No event removes an external connection. *)
Lemma conns_kept_step (e : Event) (w : World) :
  exists extra,
    map conn_id (externalConns (step e w)) = map conn_id (externalConns w) ++ extra.
Proof.
  assert (Hs : kind_of_event e = None \/ (exists k i, e = data_arrives k i) ->
               exists extra,
                 map conn_id (externalConns (step e w))
                 = map conn_id (externalConns w) ++ extra)
    by (intro H; exact (proj2 (Steady_step e H w))).
  assert (Ho : forall k label local,
            exists extra,
              map conn_id (externalConns (opens k label local w))
              = map conn_id (externalConns w) ++ extra).
  { intros k label local.
    destruct (opens_with_stream k label local w) as (E & _ & _ & Ec & _). rewrite E.
    rewrite <- Ec.
    exact (proj2 (steady_trans _ _ _ (Steady_emit _ _ _ _) (Steady_emit _ _ _ _))). }
  destruct e; try (apply Hs; left; reflexivity); try apply Ho.
  apply Hs. right. eauto.
Qed.

Lemma conns_kept_run (history : list Event) :
  forall w i, In i (map conn_id (externalConns w)) ->
    In i (map conn_id (externalConns (run history w))).
Proof.
  induction history as [|e h IH]; intros w i Hin; [exact Hin|].
  rewrite run_cons. apply IH. destruct (conns_kept_step e w) as (extra & ->).
  apply in_or_app. now left.
Qed.

(** X10. A peer-proxy step is started in a well-formed world; the local
    description of its new external connection comes in, and the answer
    source answers it with [a].  When the answer is in, the step gives it
    to the external connection as its remote description, tells the mock
    connection to proxy its traffic to that connection, and to no other,
    and parks on the close of the mock connection; the connection is the
    one recorded in [externalConnections] for [dispose]. *)
Theorem peer_proxy_sets_up_proxying :
  forall (getAnswer : RTCSessionDescriptionInit -> Eventually RTCSessionDescriptionInit)
         (l : list nat) (w : World) (offer a : RTCSessionDescriptionInit)
         (h1 h2 : list Event),
    wf w = true ->
    getAnswer offer = resolves a ->
    undisturbed (S (next_id w)) h1 = true ->
    undisturbed (S (next_id w)) h2 = true ->
    let l' := fst (fst (PeerProxyStep_handle getAnswer l w)) in
    let p := snd (fst (PeerProxyStep_handle getAnswer l w)) in
    let w1 := snd (PeerProxyStep_handle getAnswer l w) in
    let externalConn := next_id w in
    let wb := run (h1 ++ localDescription_returns p (inl offer) :: h2) w1 in
    let w2 := step (answer_returns p) wb in
    l' = l ++ [externalConn]
    /\ In externalConn (map conn_id (externalConns wb))
    /\ externalConns w2
       = map (fun c => if Nat.eqb (conn_id c) externalConn
                       then {| conn_id := conn_id c; conn_open := conn_open c;
                               remoteDescription := Some a |}
                       else c) (externalConns wb)
    /\ proxiedTo w2 = proxiedTo wb ++ [externalConn]
    /\ parked p w2.
Proof.
  intros getAnswer l w offer a h1 h2 Hwf Ha Hh1 Hh2.
  destruct (PeerProxyStep_negotiating getAnswer l w Hwf) as (El & Ep & _ & Hn).
  cbv zeta. rewrite El, Ep.
  set (p := S (next_id w)) in *. set (ec := next_id w) in *.
  set (w1 := snd (PeerProxyStep_handle getAnswer l w)) in *.
  assert (H1 := negotiating_run p (after_getLocalDescription getAnswer ec p) h1
                  eq_refl Hh1 w1 Hn).
  assert (H2 := negotiation_offer p ec getAnswer offer _ H1).
  assert (H3 := negotiating_run p (after_getAnswer ec (getAnswer offer) p) h2
                  eq_refl Hh2 _ H2).
  rewrite Ha in H3.
  rewrite run_app, run_cons.
  set (wb := run h2 (step (localDescription_returns p (inl offer)) (run h1 w1))) in *.
  split; [reflexivity|]. split.
  - unfold wb. rewrite <- run_cons, <- run_app. apply conns_kept_run.
    unfold w1, PeerProxyStep_handle, new_RTCConnection, new_Promise. simpl.
    rewrite map_app. apply in_or_app. right. now left.
  - destruct (negotiating_resumed p (after_getAnswer ec (resolves a) p)
                (answer_returns p) wb eq_refl H3) as (E & _);
      [simpl; apply Nat.eqb_refl|].
    split; [rewrite E; reflexivity|]. split; [rewrite E; reflexivity|].
    exact (negotiation_answer p ec a wb H3).
Qed.

Lemma peer_proxy_sets_up_proxying_witness :
  proxiedTo
    (step (answer_returns 4)
       (run ([channel_opens "late" false]
             ++ localDescription_returns 4 (inl {| sd_type := "offer"; sdp := "o" |})
                :: [track_opens true])
          (snd (PeerProxyStep_handle
                  (fun o => resolves {| sd_type := "answer"; sdp := sdp o |}) []
                  two_channels_one_track))))
  = proxiedTo
      (run ([channel_opens "late" false]
            ++ localDescription_returns 4 (inl {| sd_type := "offer"; sdp := "o" |})
               :: [track_opens true])
         (snd (PeerProxyStep_handle
                 (fun o => resolves {| sd_type := "answer"; sdp := sdp o |}) []
                 two_channels_one_track)))
    ++ [3].
Proof.
  exact (proj1 (proj2 (proj2 (proj2
    (peer_proxy_sets_up_proxying
       (fun o => resolves {| sd_type := "answer"; sdp := sdp o |}) []
       two_channels_one_track {| sd_type := "offer"; sdp := "o" |}
       {| sd_type := "answer"; sdp := "o" |}
       [channel_opens "late" false] [track_opens true]
       eq_refl eq_refl eq_refl eq_refl))))).
Defined.

(** X11. A peer-proxy step is started in a well-formed world, and
    [getLocalDescription()] of its new external connection fails with
    [e].  The promise of [handle] is rejected with [e] at once: the answer
    source is not awaited, the external connection gets no remote
    description, the mock connection is not told to proxy, and the step
    has subscribed to nothing, so that it stays rejected whatever happens
    later, the close of the connection included. *)
Theorem peer_proxy_fails_with_its_offer :
  forall (getAnswer : RTCSessionDescriptionInit -> Eventually RTCSessionDescriptionInit)
         (l : list nat) (w : World) (e : Error) (h1 h2 : list Event),
    wf w = true ->
    undisturbed (S (next_id w)) h1 = true ->
    let p := snd (fst (PeerProxyStep_handle getAnswer l w)) in
    let w1 := snd (PeerProxyStep_handle getAnswer l w) in
    let wb := run h1 w1 in
    let w2 := step (localDescription_returns p (inr e)) wb in
    externalConns w2 = externalConns wb
    /\ proxiedTo w2 = proxiedTo wb
    /\ pstate p (run h2 w2) = Some (Rejected e)
    /\ v_registrations (view (only p) (run h2 w2)) = []
    /\ v_suspended (view (only p) (run h2 w2)) = [].
Proof.
  intros getAnswer l w e h1 h2 Hwf Hh1.
  destruct (PeerProxyStep_negotiating getAnswer l w Hwf) as (_ & Ep & _ & Hn).
  cbv zeta. rewrite Ep.
  set (p := S (next_id w)) in *.
  set (w1 := snd (PeerProxyStep_handle getAnswer l w)) in *.
  assert (H1 := negotiating_run p (after_getLocalDescription getAnswer (next_id w) p) h1
                  eq_refl Hh1 w1 Hn).
  destruct (negotiating_resumed p (after_getLocalDescription getAnswer (next_id w) p)
              (localDescription_returns p (inr e)) (run h1 w1) eq_refl H1)
    as (E & Hg & _ & Vr & Vk & Hp); [simpl; apply Nat.eqb_refl|].
  rewrite E. set (w0 := set_suspended _ (run h1 w1)) in *.
  change (resumption (localDescription_returns p (inr e))
            (after_getLocalDescription getAnswer (next_id w) p) w0)
    with (reject p e w0).
  assert (Ef := Settling_reject p e w0).
  split; [rewrite Ef; reflexivity|]. split; [rewrite Ef; reflexivity|].
  now apply rejected_for_good.
Qed.

Lemma peer_proxy_fails_with_its_offer_witness :
  pstate 4 (run [connection_closes]
              (step (localDescription_returns 4 (inr "no candidates"))
                 (run [channel_opens "late" false]
                    (snd (PeerProxyStep_handle (fun o => resolves o) []
                            two_channels_one_track)))))
  = Some (Rejected "no candidates").
Proof.
  exact (proj1 (proj2 (proj2
    (peer_proxy_fails_with_its_offer (fun o => resolves o) [] two_channels_one_track
       "no candidates" [channel_opens "late" false] [connection_closes]
       eq_refl eq_refl)))).
Defined.

(* ================================================================== *)
(** * A peer-proxy step built from a peer connection *)

(** X12. The answer source of a peer-proxy step built from an
    [RTCPeerConnection] gives the offer to the connection as its remote
    description, has it create an answer, sets that answer as its local
    description and returns it: it answers [a] exactly when the three
    calls succeed, in that order, and [a] is the answer created; it fails
    with [e] exactly when the first call that does not succeed fails with
    [e].  Built from a function, the step uses that function.  A new
    step has no external connection. *)
Theorem peer_connection_target_answers :
  forall (pc : RTCPeerConnection) (offer : RTCSessionDescriptionInit),
    (forall a,
       getAnswer_of (new_PeerProxyStep (inl pc)) offer = resolves a
       <-> pc_setRemoteDescription pc offer = resolves tt
           /\ pc_createAnswer pc offer = resolves a
           /\ pc_setLocalDescription pc a = resolves tt)
    /\ (forall e,
          getAnswer_of (new_PeerProxyStep (inl pc)) offer = rejects e
          <-> pc_setRemoteDescription pc offer = rejects e
              \/ (pc_setRemoteDescription pc offer = resolves tt
                  /\ pc_createAnswer pc offer = rejects e)
              \/ (pc_setRemoteDescription pc offer = resolves tt
                  /\ exists a, pc_createAnswer pc offer = resolves a
                               /\ pc_setLocalDescription pc a = rejects e))
    /\ (forall f, getAnswer_of (new_PeerProxyStep (inr f)) = f)
    /\ externalConnections_of (new_PeerProxyStep (inl pc)) = [].
Proof.
  intros pc offer. simpl. split; [|split; [|split; reflexivity]].
  - intro a.
    destruct (pc_setRemoteDescription pc offer) as [[]| |] eqn:E1; simpl;
      [|split; [discriminate | intros (H & _); discriminate]..].
    destruct (pc_createAnswer pc offer) as [a'| |] eqn:E2; simpl;
      [|split; [discriminate | intros (_ & H & _); discriminate]..].
    destruct (pc_setLocalDescription pc a') as [[]| |] eqn:E3; simpl.
    + split.
      * intro H. injection H as <-. now repeat split.
      * intros (_ & H & _). exact H.
    + split; [discriminate|]. intros (_ & H & H'). injection H as <-. congruence.
    + split; [discriminate|]. intros (_ & H & H'). injection H as <-. congruence.
  - intro e.
    destruct (pc_setRemoteDescription pc offer) as [[]| |] eqn:E1; simpl.
    + destruct (pc_createAnswer pc offer) as [a'| |] eqn:E2; simpl.
      * destruct (pc_setLocalDescription pc a') as [[]| |] eqn:E3; simpl.
        -- split; [discriminate|].
           intros [H|[(_ & H)|(_ & a & H & H')]]; try discriminate.
           injection H as <-. congruence.
        -- split.
           ++ intro H. injection H as <-. right. right. split; [reflexivity|].
              exists a'. now split.
           ++ intros [H|[(_ & H)|(_ & a & H & H')]]; try discriminate.
              injection H as <-. congruence.
        -- split; [discriminate|].
           intros [H|[(_ & H)|(_ & a & H & H')]]; try discriminate.
           injection H as <-. congruence.
      * split.
        -- intro H. right. left. now split.
        -- intros [H|[(_ & H)|(_ & a & H & _)]]; try discriminate. exact H.
      * split; [discriminate|].
        intros [H|[(_ & H)|(_ & a & H & _)]]; discriminate.
    + split; [intro H; left; congruence|].
      intros [H|[(H & _)|(H & _)]]; try discriminate. congruence.
    + split; [discriminate|]. intros [H|[(H & _)|(H & _)]]; discriminate.
Qed.
